(** * A shallow embedding of [redis.sansio._parser.PythonParser]

    The parser of [src/redis/sansio/_parser.py] is a chain of Python
    generators: [parse_one] resumes the generator stored in [_gen], which
    runs until the single [yield] of [waitsome], until it returns, or until
    it raises.  The embedding keeps the source's functions and names.  A
    suspended generator is represented by the call stack it is suspended
    with: the [size] argument of the pending [waitsome], the reader it was
    called from, and the aggregate parsers waiting for a child.  Python
    integers are [Z], [bytes]/[bytearray] are [list byte], and slices,
    [find] and [del] follow Python's index normalisation. *)

From Stdlib Require Import ZArith List Bool Lia String.
From Stdlib Require Import Init.Byte Strings.Byte.
From Stdlib Require DecimalZ DecimalPos.
Import ListNotations.

Set Implicit Arguments.
Set Warnings "-register-all".
Local Open Scope Z_scope.

(** ** Bytes, slices and searching *)

Definition bytes := list byte.

Definition CR : byte := x0d.
Definition LF : byte := x0a.
Definition crlf : bytes := [CR; LF].

Definition len (b : bytes) : Z := Z.of_nat (List.length b).

(** Python's normalisation of a slice bound against a sequence of length
    [n]: a negative bound counts from the end, and the result is clipped
    to [0 .. n]. *)
Definition clip (n i : Z) : Z :=
  if i <? 0 then Z.max 0 (i + n) else Z.min i n.

(** [b[i:j]] *)
Definition slice (b : bytes) (i j : Z) : bytes :=
  let lo := clip (len b) i in
  let hi := clip (len b) j in
  firstn (Z.to_nat (hi - lo)) (skipn (Z.to_nat lo) b).

(** [del b[:k]], which leaves [b[k:]] *)
Definition del_prefix (b : bytes) (k : Z) : bytes :=
  skipn (Z.to_nat (clip (len b) k)) b.

Fixpoint bytes_eqb (a b : bytes) : bool :=
  match a, b with
  | [], [] => true
  | x :: a', y :: b' => Byte.eqb x y && bytes_eqb a' b'
  | _, _ => false
  end.

(** Index of the first ["\r\n"] in [b], if any. *)
Fixpoint index_crlf (b : bytes) : option nat :=
  match b with
  | [] => None
  | c :: t =>
      match t with
      | d :: _ =>
          if (Byte.eqb c CR && Byte.eqb d LF)%bool then Some 0%nat
          else option_map S (index_crlf t)
      | [] => None
      end
  end.

(** [b.find(b"\r\n", start)] *)
Definition find_crlf (b : bytes) (start : Z) : Z :=
  let st := clip (len b) start in
  match index_crlf (skipn (Z.to_nat st) b) with
  | Some k => st + Z.of_nat k
  | None => -1
  end.

(** [vbt.split(b":", maxsplit=1)]: the parts before and after the first
    colon; [None] when there is no colon and the result has one element. *)
Fixpoint split_colon (b : bytes) : option (bytes * bytes) :=
  match b with
  | [] => None
  | c :: t =>
      if Byte.eqb c x3a then Some ([], t)
      else match split_colon t with
           | Some (typ, val) => Some (c :: typ, val)
           | None => None
           end
  end.

(** ** The host language's [int] on a bytes object

    [int(b)] with the default base converts as CPython does for a bytes
    argument: leading ASCII whitespace, an optional sign, decimal digits
    with single underscores between digits, trailing whitespace, end of
    input.  The result is an unbounded integer, but one conversion
    reads at most [int_max_str_digits] digits: with more digits,
    leading zeros counted and underscores not, [int] raises
    [ValueError] as it does for a token that is no literal. *)

(** [sys.get_int_max_str_digits()], as the interpreter starts with. *)
Definition int_max_str_digits : Z := 4300.

Definition is_space (c : byte) : bool :=
  match c with
  | x20 | x09 | x0a | x0b | x0c | x0d => true
  | _ => false
  end.

Definition digit_value (c : byte) : option Z :=
  match c with
  | x30 => Some 0 | x31 => Some 1 | x32 => Some 2 | x33 => Some 3
  | x34 => Some 4 | x35 => Some 5 | x36 => Some 6 | x37 => Some 7
  | x38 => Some 8 | x39 => Some 9
  | _ => None
  end.

Fixpoint skip_space (b : bytes) : bytes :=
  match b with
  | c :: t => if is_space c then skip_space t else b
  | [] => []
  end.

(** The digit scan: [prev_us] records that the previous character was an
    underscore, [acc] is the value read so far and [nd] the number of
    digits.  Two underscores in a row and a trailing underscore are
    rejected. *)
Fixpoint scan_digits (prev_us : bool) (acc : Z) (nd : nat) (b : bytes)
  : option (Z * nat * bytes) :=
  match b with
  | c :: t =>
      if Byte.eqb c x5f then
        if prev_us then None else scan_digits true acc nd t
      else
        match digit_value c with
        | Some d => scan_digits false (10 * acc + d) (S nd) t
        | None => if prev_us then None else Some (acc, nd, b)
        end
  | [] => if prev_us then None else Some (acc, nd, b)
  end.

Definition py_int (b : bytes) : option Z :=
  let b1 := skip_space b in
  let '(sign, b2) :=
    match b1 with
    | x2b :: t => (1, t)
    | x2d :: t => (-1, t)
    | _ => (1, b1)
    end in
  match b2 with
  | x5f :: _ => None
  | _ =>
      match scan_digits false 0 0 b2 with
      | Some (v, nd, rest) =>
          match nd, skip_space rest with
          | S _, [] =>
              if Z.of_nat nd <=? int_max_str_digits then Some (sign * v)
              else None
          | _, _ => None
          end
      | None => None
      end
  end.

(** Decimal rendering of an integer, as a server writes a number. *)
Fixpoint bytes_of_uint (u : Decimal.uint) : bytes :=
  match u with
  | Decimal.Nil => []
  | Decimal.D0 u => x30 :: bytes_of_uint u
  | Decimal.D1 u => x31 :: bytes_of_uint u
  | Decimal.D2 u => x32 :: bytes_of_uint u
  | Decimal.D3 u => x33 :: bytes_of_uint u
  | Decimal.D4 u => x34 :: bytes_of_uint u
  | Decimal.D5 u => x35 :: bytes_of_uint u
  | Decimal.D6 u => x36 :: bytes_of_uint u
  | Decimal.D7 u => x37 :: bytes_of_uint u
  | Decimal.D8 u => x38 :: bytes_of_uint u
  | Decimal.D9 u => x39 :: bytes_of_uint u
  end.

Definition render_int (z : Z) : bytes :=
  match Z.to_int z with
  | Decimal.Pos u => bytes_of_uint u
  | Decimal.Neg u => x2d :: bytes_of_uint u
  end.

(** The number of digits [render_int] writes, and whether one
    conversion reads that many. *)
Definition int_digits (z : Z) : nat :=
  match Z.to_int z with
  | Decimal.Pos u | Decimal.Neg u => Decimal.nb_digits u
  end.

Definition fits (z : Z) : bool :=
  Z.of_nat (int_digits z) <=? int_max_str_digits.

(** ASCII text as bytes, for writing inputs. *)
Definition bs (s : string) : bytes := list_byte_of_string s.
Arguments bs s%_string.

(** ** Exceptions, callbacks and values *)

(** Exceptions of the host language that the parser's own code can raise
    (they are not produced by [protocolError]). *)
Inductive host_exn : Type :=
| ValueError_int (tok : bytes)      (* int(tok): invalid literal, or too many digits *)
| ValueError_float (tok : bytes)    (* float(tok): could not convert *)
| ValueError_unpack                 (* typ, val = [one part] *)
| TypeError_not_iterable            (* yield from <bound method> *)
| TypeError_unhashable              (* val[key] = v, key a list, dict or set *)
| TypeError_encoding_none           (* val.decode(None, errors=...) *)
| Codec_error (name : string).      (* UnicodeDecodeError or LookupError of a codec *)

(** The argument [error] passes to [protocolError]. *)
Inductive message : Type :=
| Msg_expected_crlf                 (* "Expected b'\r\n'" *)
| Msg_protocol_error (ctl : bytes)  (* f"Protocol Error: {msg!r}", msg the lossy UTF-8 text of ctl *)
| Msg_exception (exc : host_exn).   (* the ValueError caught by readint or readfloat *)

(** What the parser takes from its caller and from the host language: the
    two error factories given to [__init__], the codecs behind
    [bytes.decode(encoding, errors)] and the conversion [float(bytes)]. *)
Class Host : Type := {
  text : Type;
  perr : Type;
  rerr : Type;
  pyfloat : Type;
  protocolError : message -> perr;
  replyError : text -> rerr;
  decode : string -> string -> bytes -> text + host_exn;
  float_of_bytes : bytes -> option pyfloat
}.

Section Parser.

Context {H : Host}.

Inductive exn : Type :=
| Protocol (e : perr)
| Bare (e : host_exn).

(** Parsed replies.  A dict is kept as the sequence of assignments
    [val[key] = v] that built it, in order. *)
Inductive value : Type :=
| VNone
| VBytes (v : bytes)
| VStr (t : text)
| VInt (z : Z)
| VFloat (f : pyfloat)
| VBool (v : bool)
| VError (e : rerr)
| VList (l : list value)
| VSet (l : list value)
| VDict (d : list (value * value)).

Definition hashable (v : value) : bool :=
  match v with
  | VList _ | VSet _ | VDict _ => false
  | _ => true
  end.

(** ** Suspended generators *)

(** The entries of the dispatch tables. *)
Inductive proto : Type :=
| P_error | P_single | P_single_decode | P_int | P_float | P_bool | P_null
| P_bulk | P_bulk_decode | P_verbatim | P_verbatim_decode
| P_mutibulk | P_set | P_dict | P_vector.

Inductive table : Type := PROTOCOLS | PROTOCOLS_DECODE.

(** Where a frame parser is suspended: in the [readline()] of its first
    line, or in the [readline(size)] of its payload after it read
    [length]; [w] is the argument of the pending [waitsome]. *)
Inductive point : Type :=
| Header (w : Z)
| Payload (length w : Z).

(** Where [parse] is suspended: in [readone], or inside the frame parser
    it dispatched to. *)
Inductive frame : Type :=
| In_readone (w : Z)
| In_proto (p : proto) (pt : point).

(** An aggregate parser suspended in [yield from parse()]: [todo] is the
    number of iterations of its loop that remain after the current one. *)
Inductive agg : Type :=
| A_list (todo : Z) (val : list value)
| A_dict_key (todo : Z) (val : list (value * value))
| A_dict_value (todo : Z) (key : value) (val : list (value * value)).

(** The generator stored in [_gen]: the innermost [parse] and the
    aggregate parsers above it, innermost first. *)
Record generator : Type := {
  fr : frame;
  stack : list agg
}.

Record parser : Type := {
  buf : bytes;
  pos : Z;
  encoding : option string;
  encoding_errors : string;
  err : option perr;
  gen : option generator;
  protocols : table
}.

Definition set_pos (s : parser) (p : Z) : parser :=
  {| buf := buf s; pos := p; encoding := encoding s;
     encoding_errors := encoding_errors s; err := err s; gen := gen s;
     protocols := protocols s |}.

Definition set_buf (s : parser) (v : bytes) : parser :=
  {| buf := v; pos := pos s; encoding := encoding s;
     encoding_errors := encoding_errors s; err := err s; gen := gen s;
     protocols := protocols s |}.

Definition set_err (s : parser) (e : option perr) : parser :=
  {| buf := buf s; pos := pos s; encoding := encoding s;
     encoding_errors := encoding_errors s; err := e; gen := gen s;
     protocols := protocols s |}.

Definition set_gen (s : parser) (g : option generator) : parser :=
  {| buf := buf s; pos := pos s; encoding := encoding s;
     encoding_errors := encoding_errors s; err := err s; gen := g;
     protocols := protocols s |}.

(** Truth value of an optional string: [None] and [""] are false. *)
Definition truthy (o : option string) : option string :=
  match o with
  | Some EmptyString | None => None
  | Some e => Some e
  end.

(** [__init__] *)
Definition init (enc errors : option string) : parser :=
  {| buf := []; pos := 0; encoding := enc;
     encoding_errors := match truthy errors with Some e => e | None => "strict"%string end;
     err := None; gen := None;
     protocols := match truthy enc with
                  | Some _ => PROTOCOLS_DECODE
                  | None => PROTOCOLS
                  end |}.

(** The [encoding] setter *)
Definition set_encoding (s : parser) (val : option string) : parser :=
  {| buf := buf s; pos := pos s; encoding := val;
     encoding_errors := encoding_errors s; err := err s; gen := gen s;
     protocols := PROTOCOLS_DECODE |}.

(** The owner appends to [buf]. *)
Definition feed (s : parser) (data : bytes) : parser :=
  set_buf s (buf s ++ data).

(** ** Running a generator up to its next suspension *)

(** [Yield k] is a suspension with [k] recording where; [Spin] is a loop
    that never yields. *)
Inductive res (K A : Type) : Type :=
| Done (a : A) (s : parser)
| Yield (k : K) (s : parser)
| Raise (e : exn) (s : parser)
| Spin (s : parser).

Arguments Done {K A}.
Arguments Yield {K A}.
Arguments Raise {K A}.
Arguments Spin {K A}.

Definition bind {K A B : Type} (r : res K A) (f : A -> parser -> res K B)
  : res K B :=
  match r with
  | Done a s => f a s
  | Yield k s => Yield k s
  | Raise e s => Raise e s
  | Spin s => Spin s
  end.

(** Relabel the suspensions of a callee with the caller's position. *)
Definition within {K K' A : Type} (f : K -> K') (r : res K A) : res K' A :=
  match r with
  | Done a s => Done a s
  | Yield k s => Yield (f k) s
  | Raise e s => Raise e s
  | Spin s => Spin s
  end.

(** [error]: latch the protocol error and return it. *)
Definition error (msg : message) (s : parser) : perr * parser :=
  let e := protocolError msg in (e, set_err s (Some e)).

(** [raise self.error(msg)] *)
Definition raise_error {K A : Type} (msg : message) (s : parser) : res K A :=
  let '(e, s') := error msg s in Raise (Protocol e) s'.

(** [waitsome]: one test of the loop condition.  Resuming the generator
    at its [yield] is running [waitsome size] again on the new state. *)
Definition waitsome (size : Z) (s : parser) : res Z unit :=
  if len (buf s) <? pos s + size then Yield size s else Done tt s.

Definition waitany (s : parser) : res Z unit :=
  waitsome (len (buf s) + 1) s.

(** In the readers, [resume = Some size] enters at the pending
    [waitsome size]; [None] is a fresh call. *)
Definition readone (resume : option Z) (s : parser) : res Z bytes :=
  let wait :=
    match resume with
    | Some size => waitsome size s
    | None =>
        match slice (buf s) (pos s) (pos s + 1) with
        | [] => waitany s
        | _ => Done tt s
        end
    end in
  bind wait (fun _ s =>
    let val := slice (buf s) (pos s) (pos s + 1) in
    Done val (set_pos s (pos s + 1))).

(** The end of [readline]: take [buf[pos:offset]], reset [pos], and
    delete the line and its terminator. *)
Definition take_line (offset : Z) (s : parser) : res Z bytes :=
  let val := slice (buf s) (pos s) offset in
  Done val (set_buf (set_pos s 0) (del_prefix (buf s) (offset + 2))).

(** [readline()], from the search for the terminator on.  When [waitany]
    returns without yielding the buffer is as it was, the search fails
    again, and the loop never ends. *)
Definition readline_scan (s : parser) : res Z bytes :=
  let offset := find_crlf (buf s) (pos s) in
  if offset <? 0 then bind (waitany s) (fun _ s => Spin s)
  else take_line offset s.

Definition readline (resume : option Z) (s : parser) : res Z bytes :=
  match resume with
  | Some size => bind (waitsome size s) (fun _ s => readline_scan s)
  | None => readline_scan s
  end.

(** [readline(size)] *)
Definition readline_size (size : Z) (resume : option Z) (s : parser)
  : res Z bytes :=
  let wait :=
    match resume with
    | Some w => waitsome w s
    | None =>
        if len (buf s) <? size + 2 + pos s then waitsome (size + 2) s
        else Done tt s
    end in
  bind wait (fun _ s =>
    let offset := pos s + size in
    if bytes_eqb (slice (buf s) offset (offset + 2)) crlf
    then take_line offset s
    else raise_error Msg_expected_crlf s).

Definition readint (resume : option Z) (s : parser) : res Z Z :=
  bind (readline resume s) (fun line s =>
    match py_int line with
    | Some z => Done z s
    | None => raise_error (Msg_exception (ValueError_int line)) s
    end).

Definition readfloat (resume : option Z) (s : parser) : res Z pyfloat :=
  bind (readline resume s) (fun line s =>
    match float_of_bytes line with
    | Some f => Done f s
    | None => raise_error (Msg_exception (ValueError_float line)) s
    end).

Definition readbool (resume : option Z) (s : parser) : res Z bool :=
  bind (readline resume s) (fun val s => Done (bytes_eqb val (bs "t")) s).

(** ** Frame parsers

    A frame parser entered with [None] is a fresh call; entered with
    [Some pt] it is resumed where it was suspended. *)

Definition header_of (at_ : option point) : option Z :=
  match at_ with
  | Some (Header w) => Some w
  | _ => None
  end.

Definition _parse_error (resume : option Z) (s : parser) : res Z rerr :=
  bind (readline resume s) (fun val s =>
    let msg := match val with [] => bs "Error" | _ => val end in
    let enc := match truthy (encoding s) with
               | Some e => e
               | None => "utf8"%string
               end in
    match decode enc "replace" msg with
    | inl t => Done (replyError t) s
    | inr e => Raise (Bare e) s
    end).

Definition _maybe_decode {K : Type} (val : option bytes) (s : parser)
  : res K (option text) :=
  match val with
  | None => Done None s
  | Some v =>
      match encoding s with
      | None => Raise (Bare TypeError_encoding_none) s
      | Some enc =>
          match decode enc (encoding_errors s) v with
          | inl t => Done (Some t) s
          | inr e => Raise (Bare e) s
          end
      end
  end.

Definition _parse_single (resume : option Z) (s : parser) : res Z bytes :=
  bind (readline resume s) (fun val s => Done val s).

Definition _parse_single_decode (resume : option Z) (s : parser)
  : res Z (option text) :=
  bind (_parse_single resume s) (fun val s => _maybe_decode (Some val) s).

Definition _parse_verbatim (at_ : option point) (s : parser)
  : res point (option bytes) :=
  let rest (vbt : bytes) (s : parser) : res point (option bytes) :=
    match split_colon vbt with
    | Some (typ, val) => Done (Some val) s
    | None => Raise (Bare ValueError_unpack) s
    end in
  match at_ with
  | Some (Payload length w) =>
      bind (within (Payload length) (readline_size length (Some w) s)) rest
  | _ =>
      bind (within Header (readint (header_of at_) s)) (fun length s =>
        if length =? -1 then Done None s
        else bind (within (Payload length) (readline_size length None s)) rest)
  end.

Definition _parse_verbatim_decode (at_ : option point) (s : parser)
  : res point (option text) :=
  bind (_parse_verbatim at_ s) (fun val s => _maybe_decode val s).

Definition _parse_int (resume : option Z) (s : parser) : res Z Z :=
  readint resume s.

Definition _parse_float (resume : option Z) (s : parser) : res Z pyfloat :=
  readfloat resume s.

Definition _parse_bulk (at_ : option point) (s : parser)
  : res point (option bytes) :=
  let rest (val : bytes) (s : parser) : res point (option bytes) :=
    Done (Some val) s in
  match at_ with
  | Some (Payload length w) =>
      bind (within (Payload length) (readline_size length (Some w) s)) rest
  | _ =>
      bind (within Header (readint (header_of at_) s)) (fun length s =>
        if length =? -1 then Done None s
        else bind (within (Payload length) (readline_size length None s)) rest)
  end.

Definition _parse_bulk_decode (at_ : option point) (s : parser)
  : res point (option text) :=
  bind (_parse_bulk at_ s) (fun val s => _maybe_decode val s).

(** The aggregate parsers up to their first [yield from parse()]: the
    result is the finished value, or the parser's frame as it waits for
    its first child.  [range(length)] is empty for [length <= 0]. *)
Definition _parse_mutibulk (resume : option Z) (s : parser)
  : res Z (value + agg) :=
  bind (readint resume s) (fun length s =>
    if length =? -1 then Done (inl VNone) s
    else if 0 <? length then Done (inr (A_list (length - 1) [])) s
    else Done (inl (VList [])) s).

Definition _parse_null (resume : option Z) (s : parser) : res Z unit :=
  bind (readline resume s) (fun _ s => Done tt s).

Definition _parse_bool (resume : option Z) (s : parser) : res Z bool :=
  readbool resume s.

Definition _parse_dict (resume : option Z) (s : parser)
  : res Z (value + agg) :=
  bind (readint resume s) (fun keynum s =>
    if keynum =? -1 then Done (inl VNone) s
    else if 0 <? keynum then Done (inr (A_dict_key (keynum - 1) [])) s
    else Done (inl (VDict [])) s).

(** [_parse_set] evaluates [yield from parse] on the bound method itself,
    which is not iterable: the first iteration raises [TypeError]. *)
Definition _parse_set (resume : option Z) (s : parser)
  : res Z (value + agg) :=
  bind (readint resume s) (fun length s =>
    if length =? -1 then Done (inl VNone) s
    else if 0 <? length then Raise (Bare TypeError_not_iterable) s
    else Done (inl (VSet [])) s).

Definition _parse_vector (resume : option Z) (s : parser)
  : res Z (value + agg) :=
  _parse_mutibulk resume s.

Definition opt_value {A : Type} (f : A -> value) (o : option A) : value :=
  match o with
  | Some a => f a
  | None => VNone
  end.

Definition returning {K A : Type} (f : A -> value) (r : res K A)
  : res K (value + agg) :=
  bind r (fun a s => Done (inl (f a)) s).

(** Calling a table entry. *)
Definition call (p : proto) (at_ : option point) (s : parser)
  : res point (value + agg) :=
  let h := header_of at_ in
  match p with
  | P_error => returning VError (within Header (_parse_error h s))
  | P_single => returning VBytes (within Header (_parse_single h s))
  | P_single_decode =>
      returning (opt_value VStr) (within Header (_parse_single_decode h s))
  | P_int => returning VInt (within Header (_parse_int h s))
  | P_float => returning VFloat (within Header (_parse_float h s))
  | P_bool => returning VBool (within Header (_parse_bool h s))
  | P_null => returning (fun _ => VNone) (within Header (_parse_null h s))
  | P_bulk => returning (opt_value VBytes) (_parse_bulk at_ s)
  | P_bulk_decode => returning (opt_value VStr) (_parse_bulk_decode at_ s)
  | P_verbatim => returning (opt_value VBytes) (_parse_verbatim at_ s)
  | P_verbatim_decode =>
      returning (opt_value VStr) (_parse_verbatim_decode at_ s)
  | P_mutibulk => within Header (_parse_mutibulk h s)
  | P_set => within Header (_parse_set h s)
  | P_dict => within Header (_parse_dict h s)
  | P_vector => within Header (_parse_vector h s)
  end.

Definition _PROTOCOLS : list (bytes * proto) :=
  [ (bs "-", P_error); (bs "+", P_single); (bs ":", P_int); (bs "(", P_int);
    (bs ",", P_float); (bs "#", P_bool); (bs "_", P_null); (bs "$", P_bulk);
    (bs "=", P_verbatim); (bs "*", P_mutibulk); (bs "~", P_set);
    (bs "%", P_dict); (bs ">", P_vector) ].

Definition _PROTOCOLS_DECODE : list (bytes * proto) :=
  [ (bs "-", P_error); (bs "+", P_single_decode); (bs ":", P_int);
    (bs "(", P_int); (bs ",", P_float); (bs "#", P_bool); (bs "_", P_null);
    (bs "$", P_bulk_decode); (bs "=", P_verbatim_decode);
    (bs "*", P_mutibulk); (bs "~", P_set); (bs "%", P_dict);
    (bs ">", P_vector) ].

Fixpoint assoc (l : list (bytes * proto)) (k : bytes) : option proto :=
  match l with
  | [] => None
  | (k', p) :: t => if bytes_eqb k' k then Some p else assoc t k
  end.

Definition lookup (t : table) (ctl : bytes) : option proto :=
  match t with
  | PROTOCOLS => assoc _PROTOCOLS ctl
  | PROTOCOLS_DECODE => assoc _PROTOCOLS_DECODE ctl
  end.

(** [parse], from the byte read by [readone] on. *)
Definition dispatch (ctl : bytes) (s : parser) : res frame (value + agg) :=
  match lookup (protocols s) ctl with
  | None => raise_error (Msg_protocol_error ctl) s
  | Some p => within (In_proto p) (call p None s)
  end.

Definition parse (at_ : option frame) (s : parser)
  : res frame (value + agg) :=
  match at_ with
  | None =>
      match err s with
      | Some e => Raise (Protocol e) s
      | None => bind (within In_readone (readone None s)) dispatch
      end
  | Some (In_readone w) =>
      bind (within In_readone (readone (Some w) s)) dispatch
  | Some (In_proto p pt) => within (In_proto p) (call p (Some pt) s)
  end.

(** ** Returning a child to the aggregate parsers above it *)

Inductive delivery : Type :=
| Finished (v : value)            (* the outermost parse returns v *)
| Next (stack : list agg)         (* a loop goes on: the next parse() is called *)
| Failed (e : exn).

Fixpoint deliver (v : value) (stack : list agg) : delivery :=
  match stack with
  | [] => Finished v
  | A_list todo val :: up =>
      let val' := val ++ [v] in
      if 0 <? todo then Next (A_list (todo - 1) val' :: up)
      else deliver (VList val') up
  | A_dict_key todo val :: up => Next (A_dict_value todo v val :: up)
  | A_dict_value todo key val :: up =>
      if hashable key then
        let val' := val ++ [(key, v)] in
        if 0 <? todo then Next (A_dict_key (todo - 1) val' :: up)
        else deliver (VDict val') up
      else Failed (Bare TypeError_unhashable)
  end.

(** ** The driver *)

(** What a call of [parse_one] does: return a reply, return the
    caller's [notEnoughData] sentinel (kept apart from the replies here,
    whatever value the caller chose for it), raise, or never return.  A
    call that does not return leaves no state to observe; [Hang] comes
    with the parser without its generator. *)
Inductive outcome : Type :=
| Returned (v : value)
| NotEnoughData
| Raised (e : exn)
| Hang.

(** [_gen.send(None)]: run the generator chain until it yields, returns
    or raises.  Every [parse] that finishes a frame or opens an aggregate
    has removed a line from the buffer, which bounds the number of
    frames one call can go through; [fuel] counts them. *)
Fixpoint send (fuel : nat) (r : res frame (value + agg)) (stk : list agg)
  : outcome * parser :=
  match r with
  | Yield f s => (NotEnoughData, set_gen s (Some {| fr := f; stack := stk |}))
  | Raise e s => (Raised e, set_gen s None)
  | Spin s => (Hang, set_gen s None)
  | Done (inr a) s =>
      match fuel with
      | O => (Hang, set_gen s None)
      | S n => send n (parse None s) (a :: stk)
      end
  | Done (inl v) s =>
      match deliver v stk with
      | Finished v' => (Returned v', set_gen s None)
      | Failed e => (Raised e, set_gen s None)
      | Next stk' =>
          match fuel with
          | O => (Hang, set_gen s None)
          | S n => send n (parse None s) stk'
          end
      end
  end.

Definition parse_one (s : parser) : outcome * parser :=
  let fuel := S (List.length (buf s)) in
  match gen s with
  | None => send fuel (parse None s) []
  | Some g => send fuel (parse (Some (fr g)) s) (stack g)
  end.

(** Feed the chunks one at a time, calling [parse_one] after each. *)
Fixpoint feed_each (s : parser) (chunks : list bytes)
  : list outcome * parser :=
  match chunks with
  | [] => ([], s)
  | c :: t =>
      let '(o, s1) := parse_one (feed s c) in
      let '(os, s2) := feed_each s1 t in
      (o :: os, s2)
  end.

(** What the owner of a parser can do with it. *)
Inductive op : Type :=
| Feed (data : bytes)
| Set_encoding (val : option string)
| Parse_one.

(** Run the operations in order; the outcomes of the [parse_one] calls
    are collected. *)
Fixpoint run (s : parser) (ops : list op) : list outcome * parser :=
  match ops with
  | [] => ([], s)
  | Feed data :: t => run (feed s data) t
  | Set_encoding val :: t => run (set_encoding s val) t
  | Parse_one :: t =>
      let '(o, s1) := parse_one s in
      let '(os, s2) := run s1 t in
      (o :: os, s2)
  end.

(** No generator is suspended, no error is latched, the cursor is at the
    start of the buffer: the parser is between two replies. *)
Definition idle (s : parser) : Prop :=
  gen s = None /\ err s = None /\ pos s = 0.

End Parser.

Arguments Done {H K A}.
Arguments Yield {H K A}.
Arguments Raise {H K A}.
Arguments Spin {H K A}.

(** ** A host to run examples on

    Text is a list of code points.  The codec table has [utf8] and
    [ascii], on 7-bit input: a byte above 127 is a decoding error under
    [strict] and U+FFFD under [replace]; any other name is unknown.
    Of the forms [float] reads, the instance knows a sign, digits and an
    optional fraction, and keeps the decimal as mantissa and exponent. *)
Module Demo.

Definition decode7 (enc errors : string) (v : bytes) : list N + host_exn :=
  if (String.eqb enc "utf8" || String.eqb enc "utf-8" || String.eqb enc "ascii")%bool
  then
    if forallb (fun c => N.ltb (Byte.to_N c) 128) v then inl (map Byte.to_N v)
    else if String.eqb errors "replace"
         then inl (map (fun c => if N.ltb (Byte.to_N c) 128 then Byte.to_N c else 65533%N) v)
         else inr (Codec_error "UnicodeDecodeError")
  else inr (Codec_error "LookupError").

Definition float10 (v : bytes) : option (Z * Z) :=
  let '(sign, r) :=
    match v with
    | x2d :: t => (-1, t)
    | x2b :: t => (1, t)
    | _ => (1, v)
    end in
  match scan_digits false 0 0 r with
  | Some (m, S _, []) => Some (sign * m, 0)
  | Some (m, S _, x2e :: frac) =>
      match scan_digits false m 0 frac with
      | Some (m', nd, []) => Some (sign * m', - Z.of_nat nd)
      | _ => None
      end
  | _ => None
  end.

#[export] Instance host : Host := {|
  text := list N;
  perr := message;
  rerr := list N;
  pyfloat := Z * Z;
  protocolError := fun m => m;
  replyError := fun t => t;
  decode := decode7;
  float_of_bytes := float10
|}.

Definition fresh : parser := init None None.

End Demo.

(** ** Notions used in the statements and proofs *)

(** Value of a digit sequence read most significant digit first. *)
Fixpoint big_endian (acc : Z) (u : Decimal.uint) : Z :=
  match u with
  | Decimal.Nil => acc
  | Decimal.D0 u => big_endian (10 * acc + 0) u
  | Decimal.D1 u => big_endian (10 * acc + 1) u
  | Decimal.D2 u => big_endian (10 * acc + 2) u
  | Decimal.D3 u => big_endian (10 * acc + 3) u
  | Decimal.D4 u => big_endian (10 * acc + 4) u
  | Decimal.D5 u => big_endian (10 * acc + 5) u
  | Decimal.D6 u => big_endian (10 * acc + 6) u
  | Decimal.D7 u => big_endian (10 * acc + 7) u
  | Decimal.D8 u => big_endian (10 * acc + 8) u
  | Decimal.D9 u => big_endian (10 * acc + 9) u
  end.

(** Replies as a server writes them, for the frames the raw table
    parses into bytes, integers, booleans, nulls, lists and dicts. *)
Inductive scalar : Type :=
| S_simple (tok : bytes)     (* +tok *)
| S_int (z : Z)              (* :z *)
| S_bool (v : bool)          (* #t, #f *)
| S_null                     (* _ *)
| S_bulk (v : bytes)         (* $len, then the payload *)
| S_null_bulk                (* $-1 *)
| S_null_array.              (* *-1 *)

Inductive reply : Type :=
| R_scalar (c : scalar)
| R_array (push : bool) (l : list reply)   (* *n or >n, then n replies *)
| R_map (l : list (scalar * reply)).       (* %n, then n keys and values *)

Definition scalar_tag (c : scalar) : byte :=
  match c with
  | S_simple _ => x2b
  | S_int _ => x3a
  | S_bool _ => x23
  | S_null => x5f
  | S_bulk _ | S_null_bulk => x24
  | S_null_array => x2a
  end.

Definition scalar_token (c : scalar) : bytes :=
  match c with
  | S_simple tok => tok
  | S_int z => render_int z
  | S_bool v => if v then bs "t" else bs "f"
  | S_null => []
  | S_bulk v => render_int (len v)
  | S_null_bulk | S_null_array => render_int (-1)
  end.

Definition scalar_body (c : scalar) : bytes :=
  match c with
  | S_bulk v => v ++ crlf
  | _ => []
  end.

Definition encode_scalar (c : scalar) : bytes :=
  scalar_tag c :: scalar_token c ++ crlf ++ scalar_body c.

Definition reply_tag (w : reply) : byte :=
  match w with
  | R_scalar c => scalar_tag c
  | R_array push _ => if push then x3e else x2a
  | R_map _ => x25
  end.

Definition reply_token (w : reply) : bytes :=
  match w with
  | R_scalar c => scalar_token c
  | R_array _ l => render_int (Z.of_nat (List.length l))
  | R_map l => render_int (Z.of_nat (List.length l))
  end.

Fixpoint encode (w : reply) : bytes :=
  match w with
  | R_scalar c => encode_scalar c
  | R_array push l =>
      (if push then x3e else x2a)
        :: render_int (Z.of_nat (List.length l)) ++ crlf ++ flat_map encode l
  | R_map l =>
      x25 :: render_int (Z.of_nat (List.length l)) ++ crlf
          ++ flat_map (fun kv => encode_scalar (fst kv) ++ encode (snd kv)) l
  end.

(** What follows the first line of a reply. *)
Definition reply_body (w : reply) : bytes :=
  match w with
  | R_scalar c => scalar_body c
  | R_array _ l => flat_map encode l
  | R_map l => flat_map (fun kv => encode_scalar (fst kv) ++ encode (snd kv)) l
  end.

(** A simple string has no line terminator inside, and every number on
    the wire (an integer, the length of a bulk string, the size of an
    aggregate) has no more digits than one conversion reads. *)
Definition wf_scalar (c : scalar) : bool :=
  match c with
  | S_simple tok => match index_crlf tok with None => true | Some _ => false end
  | S_int z => fits z
  | S_bulk v => fits (len v)
  | _ => true
  end.

Fixpoint wf (w : reply) : bool :=
  match w with
  | R_scalar c => wf_scalar c
  | R_array _ l => fits (Z.of_nat (List.length l)) && forallb wf l
  | R_map l =>
      fits (Z.of_nat (List.length l))
      && forallb (fun kv => wf_scalar (fst kv) && wf (snd kv)) l
  end.

(** The number of times [send] takes a unit of fuel while it parses a
    reply: once for every reply inside an aggregate, and once more
    between a key and its value. *)
Fixpoint cost (w : reply) : nat :=
  match w with
  | R_scalar _ => 0%nat
  | R_array _ l => fold_right (fun x n => S (cost x + n)) 0%nat l
  | R_map l => fold_right (fun kv n => S (S (cost (snd kv) + n))) 0%nat l
  end.

(** Induction on replies with the hypothesis for the replies inside. *)
Section Reply_induction.

Variable P : reply -> Prop.
Hypothesis Hs : forall c, P (R_scalar c).
Hypothesis Ha : forall push l, Forall P l -> P (R_array push l).
Hypothesis Hm : forall l, Forall (fun kv => P (snd kv)) l -> P (R_map l).

Fixpoint reply_induction (w : reply) : P w :=
  match w with
  | R_scalar c => Hs c
  | R_array push l =>
      Ha push
         ((fix go (l : list reply) : Forall P l :=
             match l with
             | [] => Forall_nil P
             | x :: t => @Forall_cons reply P x t (reply_induction x) (go t)
             end) l)
  | R_map l =>
      Hm ((fix go (l : list (scalar * reply))
             : Forall (fun kv => P (snd kv)) l :=
             match l with
             | [] => Forall_nil _
             | (k, v) :: t =>
                 @Forall_cons (scalar * reply) (fun kv => P (snd kv))
                              (k, v) t (reply_induction v) (go t)
             end) l)
  end.

End Reply_induction.

Section Notions.

Context {H : Host}.

(** The cursor is at 0, no error is stored and the raw table is in
    use: [parse] can start a frame. *)
Definition ready (s : parser) : Prop :=
  pos s = 0 /\ err s = None /\ protocols s = PROTOCOLS.

Definition value_of_scalar (c : scalar) : value :=
  match c with
  | S_simple tok => VBytes tok
  | S_int z => VInt z
  | S_bool v => VBool v
  | S_bulk v => VBytes v
  | S_null | S_null_bulk | S_null_array => VNone
  end.

(** What the raw table makes of a reply. *)
Fixpoint value_of (w : reply) : value :=
  match w with
  | R_scalar c => value_of_scalar c
  | R_array _ l => VList (map value_of l)
  | R_map l => VDict (map (fun kv => (value_of_scalar (fst kv), value_of (snd kv))) l)
  end.

(** The frame parser the raw table has for a reply. *)
Definition reply_proto (w : reply) : proto :=
  match w with
  | R_scalar (S_simple _) => P_single
  | R_scalar (S_int _) => P_int
  | R_scalar (S_bool _) => P_bool
  | R_scalar S_null => P_null
  | R_scalar (S_bulk _) | R_scalar S_null_bulk => P_bulk
  | R_scalar S_null_array => P_mutibulk
  | R_array push _ => if push then P_vector else P_mutibulk
  | R_map _ => P_dict
  end.


(** What the decoding frame parsers return for the bytes [v]. *)
Definition decoded (s : parser) (v : bytes) : outcome :=
  match encoding s with
  | None => Raised (Bare TypeError_encoding_none)
  | Some enc =>
      match decode enc (encoding_errors s) v with
      | inl t => Returned (VStr t)
      | inr e => Raised (Bare e)
      end
  end.

(** What a bulk frame with payload [v] gives under the table in use. *)
Definition bulk_outcome (s : parser) (v : bytes) : outcome :=
  match protocols s with
  | PROTOCOLS => Returned (VBytes v)
  | PROTOCOLS_DECODE => decoded s v
  end.

(** The frame parsers that start by reading an integer. *)
Definition reads_int (p : proto) : bool :=
  match p with
  | P_int | P_bulk | P_bulk_decode | P_verbatim | P_verbatim_decode
  | P_mutibulk | P_set | P_dict | P_vector => true
  | _ => false
  end.

(** A protocol error that is raised is the one stored in [_err]. *)
Definition latched {K A : Type} (r : res K A) : Prop :=
  match r with
  | Raise (Protocol e) s' => err s' = Some e
  | _ => True
  end.

(** The bytes appended by a sequence of operations. *)
Fixpoint appended (ops : list op) : bytes :=
  match ops with
  | [] => []
  | Feed data :: t => data ++ appended t
  | _ :: t => appended t
  end.

(** [PD] holds of the state a generator returns with, [PO] of the state
    it yields, raises or spins with. *)
Definition holds {K A : Type} (PD PO : parser -> Prop) (r : res K A) : Prop :=
  match r with
  | Done _ s' => PD s'
  | Yield _ s' | Raise _ s' | Spin s' => PO s'
  end.

(** The cursor is inside the buffer. *)
Definition cursor_ok (s : parser) : Prop := 0 <= pos s <= len (buf s).

(** [cursor_ok], and a generator suspended in [readone] waits for at
    least one byte. *)
Definition sound (s : parser) : Prop :=
  cursor_ok s /\
  match gen s with
  | Some {| fr := In_readone w |} => 1 <= w
  | _ => True
  end.

(** What [parse] keeps of [sound]: the cursor is inside the buffer of
    the state it stops with, and a wait in [readone] is for at least one
    byte. *)
Definition good (r : res frame (value + agg)) : Prop :=
  match r with
  | Yield f s' =>
      cursor_ok s' /\ match f with In_readone w => 1 <= w | _ => True end
  | Done _ s' | Raise _ s' | Spin s' => cursor_ok s'
  end.

(** The generator does not loop without yielding. *)
Definition quiet {K A : Type} (r : res K A) : Prop :=
  match r with
  | Spin _ => False
  | _ => True
  end.

(** The buffer holds at most [n] bytes. *)
Definition within_bytes (n : nat) (s : parser) : Prop :=
  (List.length (buf s) <= n)%nat.

(** A line with its terminator has gone from a buffer of [n] bytes. *)
Definition line_removed (n : nat) (s : parser) : Prop :=
  (List.length (buf s) + 2 <= n)%nat.

(** A generator that returns leaves fewer than [fuel] bytes. *)
Definition done_below (fuel : nat) (r : res frame (value + agg)) : Prop :=
  holds (fun s' => (List.length (buf s') < fuel)%nat) (fun _ => True) r.

(** The bulk parser of the table in use. *)
Definition bulk_entry (s : parser) : proto :=
  match protocols s with
  | PROTOCOLS => P_bulk
  | PROTOCOLS_DECODE => P_bulk_decode
  end.

(** The generator of a top-level bulk frame waiting in [readline(n)]. *)
Definition bulk_waiting (s : parser) (n : Z) : generator :=
  {| fr := In_proto (bulk_entry s) (Payload n (n + 2)); stack := [] |}.

(** Apply [g] to the state a generator stops with. *)
Definition on_state {K A : Type} (g : parser -> parser) (r : res K A)
  : res K A :=
  match r with
  | Done a s => Done a (g s)
  | Yield k s => Yield k (g s)
  | Raise e s => Raise e (g s)
  | Spin s => Spin (g s)
  end.

(** The frame parsers of the raw table that return a scalar and do not
    read the encoding. *)
Definition raw_scalar (p : proto) : bool :=
  match p with
  | P_single | P_int | P_float | P_bool | P_null | P_bulk | P_verbatim => true
  | _ => false
  end.

(** The frame parsers that never read the encoding: all but the error
    parser and the decoding string parsers. *)
Definition encoding_free (p : proto) : bool :=
  match p with
  | P_error | P_single_decode | P_bulk_decode | P_verbatim_decode => false
  | _ => true
  end.

(** What a decoding string parser ends with for the bytes [v] of its
    string, in the state [s] it has reached. *)
Definition decoding (s : parser) (v : bytes) : res frame (value + agg) :=
  match encoding s with
  | None => Raise (Bare TypeError_encoding_none) s
  | Some enc =>
      match decode enc (encoding_errors s) v with
      | inl t => Done (inl (VStr t)) s
      | inr e => Raise (Bare e) s
      end
  end.

(** The next thing [parse_one] does on [s] is to read the tag of a
    frame, under the suspended aggregates [stk]: the parser is idle, or
    its generator waits in [readone] for bytes that have arrived. *)
Definition tag_pending (s : parser) (stk : list agg) : Prop :=
  pos s = 0 /\ err s = None /\
  match gen s with
  | None => stk = []
  | Some g => stack g = stk /\ exists w, fr g = In_readone w /\ w <= len (buf s)
  end.

(** Where a generator stops relative to the state [s0] it started
    from: it returns, and it raises a host exception, with the cursor at
    0 and the stored error as it was; it yields with the stored error as
    it was. *)
Definition boundary {K A : Type} (s0 : parser) (r : res K A) : Prop :=
  match r with
  | Done _ s' | Raise (Bare _) s' => pos s' = 0 /\ err s' = err s0
  | Yield _ s' => err s' = err s0
  | _ => True
  end.

(** [x] holds a tail of the buffer of [s0] and the configuration of
    [s0]. *)
Definition kept (s0 x : parser) : Prop :=
  (exists k : nat, buf x = skipn k (buf s0)) /\
  encoding x = encoding s0 /\
  encoding_errors x = encoding_errors s0 /\
  protocols x = protocols s0.

(** What [send] does at a reply [w], whatever is above it: with the fuel
    [cost w] more than [m], it comes to the value of [w] with [m]. *)
Definition parses (w : reply) : Prop :=
  forall (m : nat) (stk : list agg) (s : parser) (rest : bytes),
    ready s -> wf w = true -> buf s = encode w ++ rest ->
    send (cost w + m) (parse None s) stk =
    send m (Done (inl (value_of w)) (set_buf s rest)) stk.

(** A [parse] on [s] under the aggregates [stk] goes to sleep after [k]
    frames, and woken behind the chunk [c] it does what a fresh [parse]
    on the longer buffer does after the same [k] frames. *)
Definition suspends (s : parser) (stk : list agg) (c : bytes) : Prop :=
  exists (k : nat) (g : generator) (s1 : parser),
    (forall n, send (k + n) (parse None s) stk =
               (NotEnoughData, set_gen s1 (Some g))) /\
    (forall n, send (k + n) (parse None (feed s c)) stk =
               send n (parse (Some (fr g)) (feed s1 c)) (stack g)).

(** Every proper prefix of the bytes of [w] puts the parser to sleep, to
    be woken by any chunk but a single byte. *)
Definition cuts (w : reply) : Prop :=
  forall (a d : bytes) (stk : list agg) (s : parser) (c : bytes),
    a ++ d = encode w -> d <> [] -> ready s -> wf w = true ->
    List.length c <> 1%nat -> suspends (set_buf s a) stk c.

End Notions.

(** * Properties *)

Unset Implicit Arguments.

(** ** Slices and searching *)

Lemma len_app (a c : bytes) : len (a ++ c) = len a + len c.
Proof. unfold len. rewrite length_app. lia. Qed.

Lemma len_nonneg (a : bytes) : 0 <= len a.
Proof. unfold len. lia. Qed.

Lemma len_cons (c : byte) (a : bytes) : len (c :: a) = 1 + len a.
Proof. unfold len. simpl List.length. lia. Qed.

Lemma clip_inside (n i : Z) : 0 <= i <= n -> clip n i = i.
Proof.
  intros Hi. unfold clip. destruct (Z.ltb_spec i 0); lia.
Qed.

Lemma clip_beyond (n i : Z) : 0 <= n <= i -> clip n i = n.
Proof.
  intros Hi. unfold clip. destruct (Z.ltb_spec i 0); lia.
Qed.

Lemma clip_range (n i : Z) : 0 <= n -> 0 <= clip n i <= n.
Proof.
  intros Hn. unfold clip. destruct (Z.ltb_spec i 0); lia.
Qed.

Lemma skipn_length_app (a c : bytes) : skipn (List.length a) (a ++ c) = c.
Proof. induction a; simpl; auto. Qed.

Lemma firstn_length_app (a c : bytes) : firstn (List.length a) (a ++ c) = a.
Proof. induction a; simpl; congruence. Qed.

Lemma to_nat_len (a : bytes) : Z.to_nat (len a) = List.length a.
Proof. unfold len. lia. Qed.

(** [(a ++ m ++ c)[len a : len a + len m] = m] *)
Lemma slice_middle (a m c : bytes) :
  slice (a ++ m ++ c) (len a) (len a + len m) = m.
Proof.
  unfold slice.
  pose proof (len_nonneg a). pose proof (len_nonneg m). pose proof (len_nonneg c).
  rewrite !clip_inside by (rewrite !len_app; lia).
  replace (len a + len m - len a) with (len m) by lia.
  rewrite !to_nat_len, skipn_length_app. apply firstn_length_app.
Qed.

(** [del (a ++ c)[:len a]] leaves [c] *)
Lemma del_prefix_app (a c : bytes) : del_prefix (a ++ c) (len a) = c.
Proof.
  unfold del_prefix.
  pose proof (len_nonneg a). pose proof (len_nonneg c).
  rewrite clip_inside by (rewrite len_app; lia).
  rewrite to_nat_len. apply skipn_length_app.
Qed.

Lemma del_prefix_length (v : bytes) (k : Z) :
  (List.length (del_prefix v k) <= List.length v)%nat.
Proof. unfold del_prefix. rewrite length_skipn. lia. Qed.

Lemma bytes_eqb_eq (a c : bytes) : bytes_eqb a c = true <-> a = c.
Proof.
  revert c. induction a as [|x a IH]; intros [|y c]; simpl; split;
    try congruence; try discriminate; auto.
  - intros E. apply andb_true_iff in E as [E1 E2].
    apply Byte.byte_dec_bl in E1. apply IH in E2. congruence.
  - intros E. injection E as -> ->. apply andb_true_iff. split.
    + now apply Byte.byte_dec_lb.
    + now apply IH.
Qed.

Lemma bytes_eqb_refl (a : bytes) : bytes_eqb a a = true.
Proof. now apply bytes_eqb_eq. Qed.

Lemma bytes_eqb_neq (a c : bytes) : a <> c -> bytes_eqb a c = false.
Proof.
  intros N. destruct (bytes_eqb a c) eqn:E; auto.
  apply bytes_eqb_eq in E. contradiction.
Qed.

Lemma index_crlf_cons2 (c d : byte) (t : bytes) :
  index_crlf (c :: d :: t) =
  if (Byte.eqb c CR && Byte.eqb d LF)%bool then Some 0%nat
  else option_map S (index_crlf (d :: t)).
Proof. reflexivity. Qed.

(** A token without ["\r\n"] inside, followed by a terminator: the
    terminator is the first one found. *)
Lemma index_crlf_token (tok rest : bytes) :
  index_crlf tok = None ->
  index_crlf (tok ++ crlf ++ rest) = Some (List.length tok).
Proof.
  induction tok as [|c t IH]; intros Hn.
  - reflexivity.
  - destruct t as [|d t'].
    + simpl. destruct (Byte.eqb c CR); reflexivity.
    + rewrite index_crlf_cons2 in Hn.
      change ((c :: d :: t') ++ crlf ++ rest)
        with (c :: d :: (t' ++ crlf ++ rest)).
      rewrite index_crlf_cons2.
      destruct (Byte.eqb c CR && Byte.eqb d LF)%bool; [discriminate|].
      destruct (index_crlf (d :: t')) eqn:E2; [discriminate|].
      change (d :: t' ++ crlf ++ rest) with ((d :: t') ++ crlf ++ rest).
      rewrite IH by reflexivity. reflexivity.
Qed.

Lemma find_crlf_token (pre tok rest : bytes) :
  index_crlf tok = None ->
  find_crlf (pre ++ tok ++ crlf ++ rest) (len pre) = len pre + len tok.
Proof.
  intros Hn. unfold find_crlf.
  pose proof (len_nonneg pre). pose proof (len_nonneg (tok ++ crlf ++ rest)).
  rewrite clip_inside by (rewrite len_app; lia).
  rewrite to_nat_len, skipn_length_app, index_crlf_token by assumption.
  reflexivity.
Qed.

Lemma split_colon_first (typ val : bytes) :
  Forall (fun c => c <> x3a) typ ->
  split_colon (typ ++ x3a :: val) = Some (typ, val).
Proof.
  induction 1 as [|c t Hc Ht IH]; [reflexivity|].
  cbn [app split_colon]. rewrite IH.
  destruct (Byte.eqb c x3a) eqn:E; [|reflexivity].
  apply Byte.byte_dec_bl in E. contradiction.
Qed.

(** ** The integer conversion on rendered numbers *)

(** Decide the comparisons of two literal bytes in the goal. *)
Ltac byte_eqb :=
  repeat match goal with
  | |- context [Byte.eqb ?x ?y] =>
      let v := eval vm_compute in (Byte.eqb x y) in
      change (Byte.eqb x y) with v
  end.

Lemma of_lu_revapp_big_endian (u d : Decimal.uint) :
  Z.of_N (DecimalPos.Unsigned.of_lu (Decimal.revapp u d)) =
  big_endian (Z.of_N (DecimalPos.Unsigned.of_lu d)) u.
Proof.
  revert d. induction u; intros d; cbn [Decimal.revapp big_endian];
    [reflexivity|..].
  all: rewrite IHu; f_equal; cbn [DecimalPos.Unsigned.of_lu]; lia.
Qed.

Lemma of_uint_big_endian (u : Decimal.uint) :
  Z.of_N (Pos.of_uint u) = big_endian 0 u.
Proof.
  rewrite DecimalPos.Unsigned.of_uint_alt. unfold Decimal.rev.
  apply of_lu_revapp_big_endian.
Qed.

Lemma scan_digits_rendered (u : Decimal.uint) (acc : Z) (nd : nat) :
  scan_digits false acc nd (bytes_of_uint u) =
  Some (big_endian acc u, (nd + Decimal.nb_digits u)%nat, []).
Proof.
  revert acc nd. induction u; intros acc nd;
    cbn [bytes_of_uint big_endian Decimal.nb_digits scan_digits];
    [rewrite Nat.add_0_r; reflexivity|..].
  all: byte_eqb; cbn [digit_value]; rewrite IHu;
    replace (S nd + Decimal.nb_digits u)%nat
      with (nd + S (Decimal.nb_digits u))%nat by lia; reflexivity.
Qed.

Lemma index_crlf_no_cr (v : bytes) :
  Forall (fun c => c <> CR) v -> index_crlf v = None.
Proof.
  induction 1 as [|c t Hc Ht IH]; [reflexivity|].
  destruct t as [|d t']; [reflexivity|].
  rewrite index_crlf_cons2, IH.
  destruct (Byte.eqb c CR) eqn:E; [|reflexivity].
  apply Byte.byte_dec_bl in E. contradiction.
Qed.

Lemma bytes_of_uint_no_cr (u : Decimal.uint) :
  Forall (fun c => c <> CR) (bytes_of_uint u).
Proof.
  induction u; cbn [bytes_of_uint]; constructor; auto; discriminate.
Qed.

Lemma py_int_unsigned (u : Decimal.uint) :
  u <> Decimal.Nil ->
  py_int (bytes_of_uint u) =
    (if Z.of_nat (Decimal.nb_digits u) <=? int_max_str_digits
     then Some (Z.of_N (Pos.of_uint u)) else None) /\
  py_int (x2d :: bytes_of_uint u) =
    (if Z.of_nat (Decimal.nb_digits u) <=? int_max_str_digits
     then Some (- Z.of_N (Pos.of_uint u)) else None).
Proof.
  intros Hu. rewrite of_uint_big_endian.
  assert (Hd : (0 + Decimal.nb_digits u)%nat = S (pred (Decimal.nb_digits u))).
  { destruct u; cbn; try lia. contradiction. }
  assert (Hs : S (pred (Decimal.nb_digits u)) = Decimal.nb_digits u) by lia.
  split.
  - unfold py_int.
    destruct u; try contradiction;
      cbn [bytes_of_uint skip_space is_space];
      change (x30 :: bytes_of_uint u) with (bytes_of_uint (Decimal.D0 u));
      change (x31 :: bytes_of_uint u) with (bytes_of_uint (Decimal.D1 u));
      change (x32 :: bytes_of_uint u) with (bytes_of_uint (Decimal.D2 u));
      change (x33 :: bytes_of_uint u) with (bytes_of_uint (Decimal.D3 u));
      change (x34 :: bytes_of_uint u) with (bytes_of_uint (Decimal.D4 u));
      change (x35 :: bytes_of_uint u) with (bytes_of_uint (Decimal.D5 u));
      change (x36 :: bytes_of_uint u) with (bytes_of_uint (Decimal.D6 u));
      change (x37 :: bytes_of_uint u) with (bytes_of_uint (Decimal.D7 u));
      change (x38 :: bytes_of_uint u) with (bytes_of_uint (Decimal.D8 u));
      change (x39 :: bytes_of_uint u) with (bytes_of_uint (Decimal.D9 u));
      rewrite scan_digits_rendered, Hd; cbn [skip_space]; rewrite Hs;
      (destruct (_ <=? _); [f_equal; lia|reflexivity]).
  - unfold py_int. cbn [skip_space is_space].
    destruct u; try contradiction;
      cbn [bytes_of_uint];
      change (x30 :: bytes_of_uint u) with (bytes_of_uint (Decimal.D0 u));
      change (x31 :: bytes_of_uint u) with (bytes_of_uint (Decimal.D1 u));
      change (x32 :: bytes_of_uint u) with (bytes_of_uint (Decimal.D2 u));
      change (x33 :: bytes_of_uint u) with (bytes_of_uint (Decimal.D3 u));
      change (x34 :: bytes_of_uint u) with (bytes_of_uint (Decimal.D4 u));
      change (x35 :: bytes_of_uint u) with (bytes_of_uint (Decimal.D5 u));
      change (x36 :: bytes_of_uint u) with (bytes_of_uint (Decimal.D6 u));
      change (x37 :: bytes_of_uint u) with (bytes_of_uint (Decimal.D7 u));
      change (x38 :: bytes_of_uint u) with (bytes_of_uint (Decimal.D8 u));
      change (x39 :: bytes_of_uint u) with (bytes_of_uint (Decimal.D9 u));
      rewrite scan_digits_rendered, Hd; cbn [skip_space]; rewrite Hs;
      (destruct (_ <=? _); [f_equal; lia|reflexivity]).
Qed.

(** What [int] makes of a rendered integer: the integer when its digits
    are within the limit of one conversion, [ValueError] beyond it. *)
Lemma py_int_rendered (z : Z) :
  py_int (render_int z) = if fits z then Some z else None.
Proof.
  pose proof (DecimalZ.of_to z) as Hz. unfold render_int, fits, int_digits.
  assert (Hnil : forall u, Z.to_int z = Decimal.Pos u \/ Z.to_int z = Decimal.Neg u ->
                           u <> Decimal.Nil).
  { intros u Hu. destruct z; cbn in Hu; destruct Hu as [Hu|Hu];
      try discriminate; injection Hu as <-;
      try apply DecimalPos.Unsigned.to_uint_nonnil; discriminate. }
  destruct (Z.to_int z) as [u|u] eqn:E.
  - destruct (py_int_unsigned u (Hnil u (or_introl eq_refl))) as [-> _].
    rewrite <- Hz. reflexivity.
  - destruct (py_int_unsigned u (Hnil u (or_intror eq_refl))) as [_ ->].
    rewrite <- Hz. reflexivity.
Qed.

(** An integer within the limit, rendered in decimal, is read back
    exactly, and the rendering of any integer has no line terminator
    inside. *)
Lemma py_int_render (z : Z) :
  (fits z = true -> py_int (render_int z) = Some z) /\
  index_crlf (render_int z) = None.
Proof.
  split.
  - intros Hf. now rewrite py_int_rendered, Hf.
  - apply index_crlf_no_cr. unfold render_int.
    destruct (Z.to_int z); [|constructor; [discriminate|]];
      apply bytes_of_uint_no_cr.
Qed.

(** ** The readers on a buffered line *)

Section Readers.

Context {H : Host}.

Lemma slice_first (c : byte) (r : bytes) : slice (c :: r) 0 (0 + 1) = [c].
Proof. exact (slice_middle [] [c] r). Qed.

(** [readone] on a non-empty buffer takes its first byte. *)
Lemma readone_first (s : parser) (c : byte) (r : bytes) :
  buf s = c :: r -> pos s = 0 ->
  readone None s = Done [c] (set_pos s 1).
Proof.
  intros Hb Hp. unfold readone. rewrite Hb, Hp, slice_first.
  cbn [bind]. rewrite Hb, Hp, slice_first. reflexivity.
Qed.

(** [readline()] with a whole line buffered after the cursor. *)
Lemma readline_token (s : parser) (pre tok rest : bytes) :
  buf s = pre ++ tok ++ crlf ++ rest -> pos s = len pre ->
  index_crlf tok = None ->
  readline None s = Done tok (set_buf (set_pos s 0) rest).
Proof.
  intros Hb Hp Hn. unfold readline, readline_scan.
  rewrite Hb, Hp, find_crlf_token by assumption.
  pose proof (len_nonneg pre). pose proof (len_nonneg tok).
  destruct (Z.ltb_spec (len pre + len tok) 0); [lia|].
  unfold take_line. rewrite Hb, Hp.
  change (pre ++ tok ++ crlf ++ rest) with (pre ++ tok ++ (crlf ++ rest)) at 1.
  rewrite slice_middle.
  replace (pre ++ tok ++ crlf ++ rest) with ((pre ++ tok ++ crlf) ++ rest)
    by (now rewrite <- !app_assoc).
  replace (len pre + len tok + 2) with (len (pre ++ tok ++ crlf))
    by (rewrite !len_app; change (len crlf) with 2; lia).
  rewrite del_prefix_app. reflexivity.
Qed.

(** The first line of a frame, read after [readone] took the tag. *)
Lemma header_line (s : parser) (c : byte) (tok rest : bytes) :
  pos s = 0 -> buf s = c :: tok ++ crlf ++ rest -> index_crlf tok = None ->
  readline None (set_pos s 1) = Done tok (set_buf s rest).
Proof.
  intros Hp Hb Hn.
  rewrite (readline_token (set_pos s 1) [c] tok rest); auto.
  destruct s; cbn in *; subst; reflexivity.
Qed.

(** [parse] on an idle parser with a buffered byte goes to the table. *)
Lemma parse_tag (s : parser) (c : byte) (r : bytes) :
  idle s -> buf s = c :: r ->
  parse None s = dispatch [c] (set_pos s 1).
Proof.
  intros (Hg & He & Hp) Hb. unfold parse. rewrite He.
  rewrite (readone_first s c r Hb Hp). reflexivity.
Qed.

Lemma parse_one_idle (s : parser) :
  idle s ->
  parse_one s = send (S (List.length (buf s))) (parse None s) [].
Proof. intros (Hg & _). unfold parse_one. rewrite Hg. reflexivity. Qed.

(** [readline(size)] with the payload and its terminator buffered. *)
Lemma readline_size_payload (s : parser) (payload rest : bytes) (resume : option Z) :
  buf s = payload ++ crlf ++ rest -> pos s = 0 ->
  match resume with Some w => w <= len payload + 2 | None => True end ->
  readline_size (len payload) resume s =
  Done payload (set_buf (set_pos s 0) rest).
Proof.
  intros Hb Hp Hw. unfold readline_size.
  pose proof (len_nonneg payload). pose proof (len_nonneg rest).
  assert (Hlen : len (buf s) = len payload + 2 + len rest).
  { rewrite Hb, !len_app. change (len crlf) with 2. lia. }
  assert (Hwait : match resume with
            | Some w => waitsome w s
            | None => if len (buf s) <? len payload + 2 + pos s
                      then waitsome (len payload + 2) s else Done tt s
            end = Done tt s).
  { destruct resume as [w|].
    - unfold waitsome. rewrite Hlen, Hp.
      destruct (Z.ltb_spec (len payload + 2 + len rest) (0 + w)); [lia|reflexivity].
    - rewrite Hlen, Hp.
      destruct (Z.ltb_spec (len payload + 2 + len rest) (len payload + 2 + 0));
        [lia|reflexivity]. }
  rewrite Hwait. cbn [bind]. rewrite Hb, Hp.
  change (0 + len payload) with (len payload).
  pose proof (slice_middle payload crlf rest) as Hs.
  change (len crlf) with 2 in Hs. rewrite Hs, bytes_eqb_refl.
  unfold take_line. rewrite Hb, Hp.
  pose proof (slice_middle [] payload (crlf ++ rest)) as Hs2.
  change (len [] + len payload) with (len payload) in Hs2.
  change (len []) with 0 in Hs2. cbn [app] in Hs2. rewrite Hs2.
  replace (payload ++ crlf ++ rest) with ((payload ++ crlf) ++ rest)
    by (now rewrite <- app_assoc).
  replace (len payload + 2) with (len (payload ++ crlf))
    by (rewrite len_app; change (len crlf) with 2; lia).
  rewrite del_prefix_app. reflexivity.
Qed.

(** [readline()] suspended behind the tag, with no terminator in sight:
    it waits for [len (buf s) + 1] bytes after the cursor, and one more
    byte in the buffer does not wake it, whatever the byte. *)
Lemma readline_sleeps_through_one_byte (s : parser) (c : byte) :
  pos s = 1 -> find_crlf (buf s) (pos s) < 0 ->
  readline None s = Yield (len (buf s) + 1) s /\
  readline (Some (len (buf s) + 1)) (feed s [c]) =
  Yield (len (buf s) + 1) (feed s [c]).
Proof.
  intros Hp Hf. unfold readline, readline_scan, waitany, waitsome.
  destruct (Z.ltb_spec (find_crlf (buf s) (pos s)) 0); [|lia].
  cbn [feed set_buf buf pos]. rewrite len_app, Hp.
  change (len [c]) with 1.
  destruct (Z.ltb_spec (len (buf s)) (1 + (len (buf s) + 1))); [|lia].
  destruct (Z.ltb_spec (len (buf s) + 1) (1 + (len (buf s) + 1))); [|lia].
  split; reflexivity.
Qed.

(** [readline(size)] with fewer than [size + 2] bytes buffered waits. *)
Lemma readline_size_short (s : parser) (size : Z) :
  pos s = 0 -> len (buf s) < size + 2 ->
  readline_size size None s = Yield (size + 2) s /\
  readline_size size (Some (size + 2)) s = Yield (size + 2) s.
Proof.
  intros Hp Hl. unfold readline_size, waitsome. rewrite Hp.
  destruct (Z.ltb_spec (len (buf s)) (size + 2 + 0)); [|lia].
  destruct (Z.ltb_spec (len (buf s)) (0 + (size + 2))); [|lia].
  split; reflexivity.
Qed.

End Readers.

(** ** Replies read from an idle parser *)

Lemma lookup_raw :
  lookup PROTOCOLS (bs "-") = Some P_error /\
  lookup PROTOCOLS (bs "+") = Some P_single /\
  lookup PROTOCOLS (bs ":") = Some P_int /\
  lookup PROTOCOLS (bs "(") = Some P_int /\
  lookup PROTOCOLS (bs ",") = Some P_float /\
  lookup PROTOCOLS (bs "$") = Some P_bulk /\
  lookup PROTOCOLS (bs "=") = Some P_verbatim /\
  lookup PROTOCOLS (bs "*") = Some P_mutibulk /\
  lookup PROTOCOLS (bs "~") = Some P_set /\
  lookup PROTOCOLS (bs "%") = Some P_dict /\
  lookup PROTOCOLS (bs ">") = Some P_vector.
Proof. repeat split. Qed.

Lemma lookup_decode :
  lookup PROTOCOLS_DECODE (bs "-") = Some P_error /\
  lookup PROTOCOLS_DECODE (bs "+") = Some P_single_decode /\
  lookup PROTOCOLS_DECODE (bs ":") = Some P_int /\
  lookup PROTOCOLS_DECODE (bs "(") = Some P_int /\
  lookup PROTOCOLS_DECODE (bs ",") = Some P_float /\
  lookup PROTOCOLS_DECODE (bs "$") = Some P_bulk_decode /\
  lookup PROTOCOLS_DECODE (bs "=") = Some P_verbatim_decode /\
  lookup PROTOCOLS_DECODE (bs "*") = Some P_mutibulk /\
  lookup PROTOCOLS_DECODE (bs "~") = Some P_set /\
  lookup PROTOCOLS_DECODE (bs "%") = Some P_dict /\
  lookup PROTOCOLS_DECODE (bs ">") = Some P_vector.
Proof. repeat split. Qed.

(** The state after a whole reply was taken from an idle parser. *)
Ltac same_state s :=
  destruct s; cbn in *; subst; reflexivity.

Section Replies.

Context {H : Host}.

(** A frame whose first line is buffered: [parse] reaches the table
    entry of the tag with the cursor behind the tag. *)
Lemma parse_one_tag (s : parser) (c : byte) (r : bytes) (p : proto) :
  idle s -> buf s = c :: r -> lookup (protocols s) [c] = Some p ->
  parse_one s =
  send (S (List.length (buf s)))
       (within (In_proto p) (call p None (set_pos s 1))) [].
Proof.
  intros Hi Hb Hl. rewrite parse_one_idle, (parse_tag s c r Hi Hb) by assumption.
  unfold dispatch. change (protocols (set_pos s 1)) with (protocols s).
  rewrite Hl. reflexivity.
Qed.

Lemma lookup_int (t : table) (tag : byte) :
  tag = x3a \/ tag = x28 -> lookup t [tag] = Some P_int.
Proof. intros [-> | ->]; destruct t; reflexivity. Qed.

(** An integer frame whose token the conversion accepts. *)
Lemma parse_one_int (s : parser) (tag : byte) (tok rest : bytes) (z : Z) :
  idle s -> tag = x3a \/ tag = x28 ->
  index_crlf tok = None -> py_int tok = Some z ->
  buf s = tag :: tok ++ crlf ++ rest ->
  parse_one s = (Returned (VInt z), set_buf s rest).
Proof.
  intros Hi Ht Hn Hz Hb.
  rewrite (parse_one_tag s _ _ _ Hi Hb (lookup_int (protocols s) _ Ht)).
  destruct Hi as (Hg & He & Hp).
  cbn [call header_of]. unfold _parse_int, readint.
  rewrite (header_line s _ _ _ Hp Hb Hn). cbn [bind within returning]. rewrite Hz.
  cbn [bind within returning send deliver]. f_equal. same_state s.
Qed.

Lemma len_not_minus_one (v : bytes) : (len v =? -1) = false.
Proof. pose proof (len_nonneg v). destruct (Z.eqb_spec (len v) (-1)); lia. Qed.


Lemma parse_one_bulk (s : parser) (tok payload rest : bytes) :
  idle s -> index_crlf tok = None -> py_int tok = Some (len payload) ->
  buf s = x24 :: tok ++ crlf ++ payload ++ crlf ++ rest ->
  parse_one s = (bulk_outcome s payload, set_buf s rest).
Proof.
  intros Hi Hn Hz Hb. unfold bulk_outcome, decoded.
  destruct (protocols s) eqn:Ht.
  - assert (Hl : lookup (protocols s) [x24] = Some P_bulk)
      by (rewrite Ht; reflexivity).
    rewrite (parse_one_tag s _ _ _ Hi Hb Hl).
    destruct Hi as (Hg & He & Hp).
    cbn [call header_of]. unfold _parse_bulk, readint. cbn [header_of].
    rewrite (header_line s _ _ _ Hp Hb Hn). cbn [bind within]. rewrite Hz.
    cbn [bind within]. rewrite len_not_minus_one.
    rewrite (readline_size_payload (set_buf s (payload ++ crlf ++ rest))
               payload rest None eq_refl Hp I).
    cbn [bind within returning opt_value send deliver]. f_equal. same_state s.
  - assert (Hl : lookup (protocols s) [x24] = Some P_bulk_decode)
      by (rewrite Ht; reflexivity).
    rewrite (parse_one_tag s _ _ _ Hi Hb Hl).
    destruct Hi as (Hg & He & Hp).
    cbn [call header_of]. unfold _parse_bulk_decode, _parse_bulk, readint.
    cbn [header_of].
    rewrite (header_line s _ _ _ Hp Hb Hn). cbn [bind within]. rewrite Hz.
    cbn [bind within]. rewrite len_not_minus_one.
    rewrite (readline_size_payload (set_buf s (payload ++ crlf ++ rest))
               payload rest None eq_refl Hp I).
    cbn [bind within]. unfold _maybe_decode.
    change (encoding (set_buf (set_pos (set_buf s (payload ++ crlf ++ rest)) 0) rest))
      with (encoding s).
    change (encoding_errors (set_buf (set_pos (set_buf s (payload ++ crlf ++ rest)) 0) rest))
      with (encoding_errors s).
    destruct (encoding s) as [enc|] eqn:Ee.
    + destruct (decode enc (encoding_errors s) payload);
        cbn [bind within returning opt_value send deliver]; f_equal; same_state s.
    + cbn [bind within returning opt_value send deliver]. f_equal. same_state s.
Qed.

Lemma parse_one_bulk_null (s : parser) (tok rest : bytes) :
  idle s -> index_crlf tok = None -> py_int tok = Some (-1) ->
  buf s = x24 :: tok ++ crlf ++ rest ->
  parse_one s = (Returned VNone, set_buf s rest).
Proof.
  intros Hi Hn Hz Hb.
  destruct (protocols s) eqn:Ht.
  - assert (Hl : lookup (protocols s) [x24] = Some P_bulk)
      by (rewrite Ht; reflexivity).
    rewrite (parse_one_tag s _ _ _ Hi Hb Hl).
    destruct Hi as (Hg & He & Hp).
    cbn [call header_of]. unfold _parse_bulk, readint. cbn [header_of].
    rewrite (header_line s _ _ _ Hp Hb Hn). cbn [bind within]. rewrite Hz.
    cbn [bind within Z.eqb Pos.eqb returning opt_value send deliver].
    f_equal. same_state s.
  - assert (Hl : lookup (protocols s) [x24] = Some P_bulk_decode)
      by (rewrite Ht; reflexivity).
    rewrite (parse_one_tag s _ _ _ Hi Hb Hl).
    destruct Hi as (Hg & He & Hp).
    cbn [call header_of]. unfold _parse_bulk_decode, _parse_bulk, readint.
    cbn [header_of].
    rewrite (header_line s _ _ _ Hp Hb Hn). cbn [bind within]. rewrite Hz.
    cbn [bind within Z.eqb Pos.eqb _maybe_decode returning opt_value send deliver].
    f_equal. same_state s.
Qed.

Lemma parse_one_verbatim_no_colon (s : parser) (tok payload rest : bytes) :
  idle s -> index_crlf tok = None -> py_int tok = Some (len payload) ->
  split_colon payload = None ->
  buf s = x3d :: tok ++ crlf ++ payload ++ crlf ++ rest ->
  parse_one s = (Raised (Bare ValueError_unpack), set_buf s rest).
Proof.
  intros Hi Hn Hz Hc Hb.
  destruct (protocols s) eqn:Ht.
  - assert (Hl : lookup (protocols s) [x3d] = Some P_verbatim)
      by (rewrite Ht; reflexivity).
    rewrite (parse_one_tag s _ _ _ Hi Hb Hl).
    destruct Hi as (Hg & He & Hp).
    cbn [call header_of]. unfold _parse_verbatim, readint. cbn [header_of].
    rewrite (header_line s _ _ _ Hp Hb Hn). cbn [bind within]. rewrite Hz.
    cbn [bind within]. rewrite len_not_minus_one.
    rewrite (readline_size_payload (set_buf s (payload ++ crlf ++ rest))
               payload rest None eq_refl Hp I).
    cbn [bind within]. rewrite Hc.
    cbn [bind within returning send]. f_equal. same_state s.
  - assert (Hl : lookup (protocols s) [x3d] = Some P_verbatim_decode)
      by (rewrite Ht; reflexivity).
    rewrite (parse_one_tag s _ _ _ Hi Hb Hl).
    destruct Hi as (Hg & He & Hp).
    cbn [call header_of]. unfold _parse_verbatim_decode, _parse_verbatim, readint.
    cbn [header_of].
    rewrite (header_line s _ _ _ Hp Hb Hn). cbn [bind within]. rewrite Hz.
    cbn [bind within]. rewrite len_not_minus_one.
    rewrite (readline_size_payload (set_buf s (payload ++ crlf ++ rest))
               payload rest None eq_refl Hp I).
    cbn [bind within]. rewrite Hc.
    cbn [bind within returning send]. f_equal. same_state s.
Qed.

(** *** Wire violations *)

Lemma call_bad_int (p : proto) (s s' : parser) (e : exn) :
  reads_int p = true -> readint None s = Raise e s' ->
  call p None s = Raise e s'.
Proof.
  intros Hp Hr.
  destruct p; try discriminate; cbn [call header_of];
    unfold _parse_int, _parse_bulk_decode, _parse_bulk,
      _parse_verbatim_decode, _parse_verbatim, _parse_vector,
      _parse_mutibulk, _parse_set, _parse_dict;
    cbn [header_of]; rewrite Hr; reflexivity.
Qed.

Lemma lookup_reads_int (t : table) (tag : byte) :
  In tag (bs "$=*~%>:(") ->
  exists p, lookup t [tag] = Some p /\ reads_int p = true.
Proof.
  intros Hin. cbn in Hin.
  repeat (destruct Hin as [<- | Hin];
          [destruct t; eexists; split; reflexivity|]).
  contradiction.
Qed.

Lemma parse_one_bad_int (s : parser) (tag : byte) (tok rest : bytes) :
  idle s -> In tag (bs "$=*~%>:(") ->
  index_crlf tok = None -> py_int tok = None ->
  buf s = tag :: tok ++ crlf ++ rest ->
  let e := protocolError (Msg_exception (ValueError_int tok)) in
  parse_one s = (Raised (Protocol e), set_err (set_buf s rest) (Some e)).
Proof.
  intros Hi Ht Hn Hz Hb e.
  destruct (lookup_reads_int (protocols s) tag Ht) as (p & Hl & Hp).
  rewrite (parse_one_tag s _ _ _ Hi Hb Hl).
  destruct Hi as (Hg & He & Hpos).
  rewrite (call_bad_int p (set_pos s 1) (set_err (set_buf s rest) (Some e))
             (Protocol e) Hp).
  - cbn [within send]. f_equal. same_state s.
  - unfold readint. rewrite (header_line s _ _ _ Hpos Hb Hn).
    cbn [bind]. rewrite Hz. reflexivity.
Qed.

Lemma parse_one_bad_float (s : parser) (tok rest : bytes) :
  idle s -> index_crlf tok = None -> float_of_bytes tok = None ->
  buf s = x2c :: tok ++ crlf ++ rest ->
  let e := protocolError (Msg_exception (ValueError_float tok)) in
  parse_one s = (Raised (Protocol e), set_err (set_buf s rest) (Some e)).
Proof.
  intros Hi Hn Hz Hb e.
  assert (Hl : lookup (protocols s) [x2c] = Some P_float)
    by (destruct (protocols s); reflexivity).
  rewrite (parse_one_tag s _ _ _ Hi Hb Hl).
  destruct Hi as (Hg & He & Hpos).
  cbn [call header_of]. unfold _parse_float, readfloat.
  rewrite (header_line s _ _ _ Hpos Hb Hn). cbn [bind]. rewrite Hz.
  cbn [raise_error error within returning bind send]. f_equal. same_state s.
Qed.

Lemma parse_one_unknown_tag (s : parser) (c : byte) (r : bytes) :
  idle s -> lookup (protocols s) [c] = None -> buf s = c :: r ->
  let e := protocolError (Msg_protocol_error [c]) in
  parse_one s = (Raised (Protocol e), set_err (set_pos s 1) (Some e)).
Proof.
  intros Hi Hl Hb e.
  rewrite parse_one_idle, (parse_tag s c r Hi Hb) by assumption.
  unfold dispatch. change (protocols (set_pos s 1)) with (protocols s).
  rewrite Hl. destruct Hi as (Hg & He & Hpos).
  cbn [raise_error error send]. f_equal. same_state s.
Qed.

(** [readline(size)] when the two bytes after the payload are not the
    terminator. *)
Lemma readline_size_no_crlf (s : parser) (payload junk rest : bytes) :
  buf s = payload ++ junk ++ rest -> pos s = 0 ->
  List.length junk = 2%nat -> junk <> crlf ->
  readline_size (len payload) None s = raise_error Msg_expected_crlf s.
Proof.
  intros Hb Hp Hj Hne. unfold readline_size.
  pose proof (len_nonneg payload). pose proof (len_nonneg rest).
  assert (Hjl : len junk = 2) by (unfold len; rewrite Hj; reflexivity).
  assert (Hlen : len (buf s) = len payload + 2 + len rest).
  { rewrite Hb, !len_app. lia. }
  rewrite Hlen, Hp.
  destruct (Z.ltb_spec (len payload + 2 + len rest) (len payload + 2 + 0)); [lia|].
  cbn [bind]. rewrite Hb, Hp. change (0 + len payload) with (len payload).
  pose proof (slice_middle payload junk rest) as Hs. rewrite Hjl in Hs.
  rewrite Hs, (bytes_eqb_neq _ _ Hne). reflexivity.
Qed.

Lemma parse_one_missing_crlf (s : parser) (tag : byte)
      (tok payload junk rest : bytes) :
  idle s -> tag = x24 \/ tag = x3d ->
  index_crlf tok = None -> py_int tok = Some (len payload) ->
  List.length junk = 2%nat -> junk <> crlf ->
  buf s = tag :: tok ++ crlf ++ payload ++ junk ++ rest ->
  let e := protocolError Msg_expected_crlf in
  parse_one s =
  (Raised (Protocol e), set_err (set_buf s (payload ++ junk ++ rest)) (Some e)).
Proof.
  intros Hi Ht Hn Hz Hj Hne Hb e.
  assert (Hr : forall K (f : Z -> K),
             within f (readline_size (len payload) None
                         (set_buf s (payload ++ junk ++ rest))) =
             Raise (Protocol e)
                   (set_err (set_buf s (payload ++ junk ++ rest)) (Some e))).
  { intros K f.
    rewrite (readline_size_no_crlf (set_buf s (payload ++ junk ++ rest))
               payload junk rest eq_refl (proj2 (proj2 Hi)) Hj Hne).
    reflexivity. }
  destruct Ht as [-> | ->]; destruct (protocols s) eqn:Et.
  - assert (Hl : lookup (protocols s) [x24] = Some P_bulk)
      by (rewrite Et; reflexivity).
    rewrite (parse_one_tag s _ _ _ Hi Hb Hl). destruct Hi as (Hg & He & Hp).
    cbn [call header_of]. unfold _parse_bulk, readint. cbn [header_of].
    rewrite (header_line s _ _ _ Hp Hb Hn). cbn [bind within]. rewrite Hz.
    cbn [bind within]. rewrite len_not_minus_one, Hr.
    cbn [bind within returning send]. f_equal. same_state s.
  - assert (Hl : lookup (protocols s) [x24] = Some P_bulk_decode)
      by (rewrite Et; reflexivity).
    rewrite (parse_one_tag s _ _ _ Hi Hb Hl). destruct Hi as (Hg & He & Hp).
    cbn [call header_of]. unfold _parse_bulk_decode, _parse_bulk, readint.
    cbn [header_of].
    rewrite (header_line s _ _ _ Hp Hb Hn). cbn [bind within]. rewrite Hz.
    cbn [bind within]. rewrite len_not_minus_one, Hr.
    cbn [bind within returning send]. f_equal. same_state s.
  - assert (Hl : lookup (protocols s) [x3d] = Some P_verbatim)
      by (rewrite Et; reflexivity).
    rewrite (parse_one_tag s _ _ _ Hi Hb Hl). destruct Hi as (Hg & He & Hp).
    cbn [call header_of]. unfold _parse_verbatim, readint. cbn [header_of].
    rewrite (header_line s _ _ _ Hp Hb Hn). cbn [bind within]. rewrite Hz.
    cbn [bind within]. rewrite len_not_minus_one, Hr.
    cbn [bind within returning send]. f_equal. same_state s.
  - assert (Hl : lookup (protocols s) [x3d] = Some P_verbatim_decode)
      by (rewrite Et; reflexivity).
    rewrite (parse_one_tag s _ _ _ Hi Hb Hl). destruct Hi as (Hg & He & Hp).
    cbn [call header_of]. unfold _parse_verbatim_decode, _parse_verbatim, readint.
    cbn [header_of].
    rewrite (header_line s _ _ _ Hp Hb Hn). cbn [bind within]. rewrite Hz.
    cbn [bind within]. rewrite len_not_minus_one, Hr.
    cbn [bind within returning send]. f_equal. same_state s.
Qed.

End Replies.

(** ** The error latch *)

Section Latch.

Context {H : Host}.

Lemma latched_bind {K A B : Type} (r : res K A) (f : A -> parser -> res K B) :
  latched r -> (forall a s, latched (f a s)) -> latched (bind r f).
Proof. destruct r; cbn; auto. Qed.

Lemma latched_within {K K' A : Type} (f : K -> K') (r : res K A) :
  latched r -> latched (within f r).
Proof. destruct r; cbn; auto. Qed.

Lemma latched_raise_error {K A : Type} (msg : message) (s : parser) :
  latched (@raise_error H K A msg s).
Proof. reflexivity. Qed.

Lemma latched_waitsome (size : Z) (s : parser) : latched (waitsome size s).
Proof. unfold waitsome. destruct (_ <? _); exact I. Qed.

(** Close a goal [latched r] by following the structure of [r]. *)
Ltac latch :=
  repeat first
    [ exact I
    | apply latched_raise_error
    | apply latched_waitsome
    | apply latched_within
    | apply latched_bind; [|intros]
    | match goal with
      | |- latched (match ?x with _ => _ end) => destruct x
      end
    | progress cbn [latched] ].

Lemma latched_readone (resume : option Z) (s : parser) :
  latched (readone resume s).
Proof. unfold readone, waitany. latch. Qed.

Lemma latched_readline (resume : option Z) (s : parser) :
  latched (readline resume s).
Proof. unfold readline, readline_scan, take_line, waitany. latch. Qed.

Lemma latched_readline_size (size : Z) (resume : option Z) (s : parser) :
  latched (readline_size size resume s).
Proof. unfold readline_size, take_line. latch. Qed.

Lemma latched_readint (resume : option Z) (s : parser) :
  latched (readint resume s).
Proof. unfold readint. apply latched_bind; [apply latched_readline|]. intros; latch. Qed.

Lemma latched_call (p : proto) (at_ : option point) (s : parser) :
  latched (call p at_ s).
Proof.
  destruct p; cbn [call]; unfold returning, _parse_error, _parse_single_decode,
    _parse_single, _parse_int, _parse_float, readfloat, _parse_bool, readbool,
    _parse_null, _parse_bulk_decode, _parse_bulk, _parse_verbatim_decode,
    _parse_verbatim, _parse_vector, _parse_mutibulk, _parse_set, _parse_dict,
    _maybe_decode;
    repeat first
      [ exact I
      | apply latched_raise_error
      | apply latched_readline
      | apply latched_readint
      | apply latched_readline_size
      | apply latched_within
      | apply latched_bind; [|intros]
      | match goal with
        | |- latched (match ?x with _ => _ end) => destruct x
        end
      | progress cbn [latched] ].
Qed.

Lemma latched_parse (at_ : option frame) (s : parser) :
  latched (parse at_ s).
Proof.
  assert (Hd : forall ctl s, latched (dispatch ctl s)).
  { intros ctl s0. unfold dispatch. destruct (lookup _ _).
    - apply latched_within, latched_call.
    - apply latched_raise_error. }
  unfold parse. destruct at_ as [[w|p pt]|].
  - apply latched_bind; [apply latched_within, latched_readone|auto].
  - apply latched_within, latched_call.
  - destruct (err s) eqn:E; [exact E|].
    apply latched_bind; [apply latched_within, latched_readone|auto].
Qed.

Lemma deliver_failed (v : value) (stk : list agg) (e : exn) :
  deliver v stk = Failed e -> e = Bare TypeError_unhashable.
Proof.
  revert v. induction stk as [|a up IH]; intros v; cbn [deliver].
  - discriminate.
  - destruct a.
    + destruct (0 <? todo); [discriminate|apply IH].
    + discriminate.
    + destruct (hashable key); [|congruence].
      destruct (0 <? todo); [discriminate|apply IH].
Qed.

Lemma send_latched (fuel : nat) (r : res frame (value + agg)) (stk : list agg)
      (e : perr) (s' : parser) :
  latched r -> send fuel r stk = (Raised (Protocol e), s') ->
  err s' = Some e /\ gen s' = None.
Proof.
  revert r stk. induction fuel as [|n IH]; intros r stk Hl Hs.
  - destruct r as [[v|a] s|f s|e0 s|s]; cbn [send] in Hs; try discriminate.
    + destruct (deliver v stk) eqn:D; try discriminate.
      injection Hs as He <-. apply deliver_failed in D. congruence.
    + injection Hs as -> <-. split; [exact Hl|reflexivity].
  - destruct r as [[v|a] s|f s|e0 s|s]; cbn [send] in Hs; try discriminate.
    + destruct (deliver v stk) eqn:D; try discriminate.
      * eapply IH; [apply latched_parse|exact Hs].
      * injection Hs as He <-. apply deliver_failed in D. congruence.
    + eapply IH; [apply latched_parse|exact Hs].
    + injection Hs as -> <-. split; [exact Hl|reflexivity].
Qed.

(** A protocol error raised by [parse_one] is stored, and no generator
    is left behind. *)
Lemma parse_one_latches (s s' : parser) (e : perr) :
  parse_one s = (Raised (Protocol e), s') ->
  err s' = Some e /\ gen s' = None.
Proof.
  unfold parse_one. destruct (gen s); apply send_latched, latched_parse.
Qed.

(** With an error stored and no generator, [parse_one] raises the stored
    error and changes nothing. *)
Lemma parse_one_reraises (s : parser) (e : perr) :
  err s = Some e -> gen s = None ->
  parse_one s = (Raised (Protocol e), s).
Proof.
  intros He Hg. unfold parse_one. rewrite Hg. unfold parse. rewrite He.
  cbn [send]. f_equal. destruct s; cbn in *; subst; reflexivity.
Qed.

Lemma run_poisoned (ops : list op) (s : parser) (e : perr) :
  err s = Some e -> gen s = None ->
  Forall (fun o => o = Raised (Protocol e)) (fst (run s ops)) /\
  err (snd (run s ops)) = Some e /\
  gen (snd (run s ops)) = None /\
  pos (snd (run s ops)) = pos s /\
  buf (snd (run s ops)) = buf s ++ appended ops.
Proof.
  revert s. induction ops as [|o t IH]; intros s He Hg.
  - cbn. rewrite app_nil_r. auto.
  - destruct o as [data|val|]; cbn [run appended].
    + destruct (IH (feed s data) He Hg) as (A & B & C & D & E).
      repeat split; auto. rewrite E. cbn [feed set_buf buf].
      now rewrite <- app_assoc.
    + destruct (IH (set_encoding s val) He Hg) as (A & B & C & D & E).
      repeat split; auto.
    + rewrite (parse_one_reraises s e He Hg).
      destruct (IH s He Hg) as (A & B & C & D & E).
      destruct (run s t) as [os s2]. cbn [fst snd] in *.
      repeat split; auto.
Qed.

End Latch.

(** ** Properties of the states the frame parsers pass through *)

Section Frames.

Context {H : Host}.

Lemma holds_bind {K A B : Type} (PD PD' PO : parser -> Prop)
      (r : res K A) (f : A -> parser -> res K B) :
  holds PD PO r -> (forall a s, PD s -> holds PD' PO (f a s)) ->
  holds PD' PO (bind r f).
Proof. destruct r; cbn; auto. Qed.

Lemma holds_within {K K' A : Type} (PD PO : parser -> Prop)
      (f : K -> K') (r : res K A) :
  holds PD PO r -> holds PD PO (within f r).
Proof. destruct r; cbn; auto. Qed.

Variables P0 P1 PO : parser -> Prop.

Hypothesis line :
  forall resume s, P0 s -> holds P1 PO (readline resume s).
Hypothesis size_first :
  forall size s, P1 s -> holds P1 PO (readline_size size None s).
Hypothesis weaken : forall s, P1 s -> PO s.
Hypothesis latch : forall s e, P1 s -> PO (set_err s e).

Ltac frames extra :=
  repeat lazymatch goal with
  | |- holds _ _ (bind _ _) => apply holds_bind with (PD := P1); [|intros]
  | |- holds _ _ (within _ _) => apply holds_within
  | |- holds _ _ (readline _ _) => apply line; assumption
  | |- holds _ _ (readline_size _ None _) => apply size_first; assumption
  | |- holds _ _ (readline_size _ (Some _) _) => apply extra; assumption
  | |- holds _ _ (raise_error _ _) =>
      cbn [holds raise_error error]; apply latch; assumption
  | |- holds _ _ (Done _ _) => cbn [holds]; assumption
  | |- holds _ _ (Raise _ _) => cbn [holds]; apply weaken; assumption
  | |- holds _ _ (match ?x with _ => _ end) => destruct x
  end.

(** A frame parser entered at its first line. *)
Lemma call_holds (p : proto) (h : option Z) (s : parser) :
  P0 s -> holds P1 PO (call p (option_map Header h) s).
Proof.
  intros Hs.
  destruct h as [w|]; cbn [option_map];
    destruct p; cbn [call header_of];
    unfold returning, _parse_error, _parse_single_decode,
    _parse_single, _parse_int, _parse_float, readfloat, _parse_bool, readbool,
    _parse_null, _parse_bulk_decode, _parse_bulk, _parse_verbatim_decode,
    _parse_verbatim, _parse_vector, _parse_mutibulk, _parse_set, _parse_dict,
    _maybe_decode, readint; cbn [header_of];
    frames line.
Qed.

Hypothesis size_again :
  forall size w s, P0 s -> holds P1 PO (readline_size size (Some w) s).

(** A frame parser resumed in its payload. *)
Lemma call_holds_payload (p : proto) (length w : Z) (s : parser) :
  P0 s -> holds P1 PO (call p (Some (Payload length w)) s).
Proof.
  intros Hs.
  destruct p; cbn [call header_of];
    unfold returning, _parse_error, _parse_single_decode,
    _parse_single, _parse_int, _parse_float, readfloat, _parse_bool, readbool,
    _parse_null, _parse_bulk_decode, _parse_bulk, _parse_verbatim_decode,
    _parse_verbatim, _parse_vector, _parse_mutibulk, _parse_set, _parse_dict,
    _maybe_decode, readint; cbn [header_of];
    frames size_again.
Qed.

End Frames.

(** ** The cursor stays inside the buffer *)

Section Cursor.

Context {H : Host}.

Lemma cursor_zero (s : parser) : pos s = 0 -> cursor_ok s.
Proof. intros Hp. unfold cursor_ok. rewrite Hp. pose proof (len_nonneg (buf s)). lia. Qed.

Lemma readline_cursor (resume : option Z) (s : parser) :
  cursor_ok s -> holds cursor_ok cursor_ok (readline resume s).
Proof.
  intros Hs. unfold readline, readline_scan, waitany, waitsome, take_line.
  destruct resume as [w|]; repeat (destruct (_ <? _); cbn [bind holds]);
    auto; apply cursor_zero; reflexivity.
Qed.

Lemma readline_size_cursor (size : Z) (resume : option Z) (s : parser) :
  cursor_ok s -> holds cursor_ok cursor_ok (readline_size size resume s).
Proof.
  intros Hs. unfold readline_size, waitsome, take_line.
  destruct resume as [w|];
    repeat (destruct (_ <? _); cbn [bind holds]); auto;
    destruct (bytes_eqb _ _); cbn [holds raise_error error]; auto;
    apply cursor_zero; reflexivity.
Qed.

Lemma slice_nonempty (v : bytes) (p : Z) :
  0 <= p <= len v -> slice v p (p + 1) <> [] -> p + 1 <= len v.
Proof.
  intros Hp Hs. destruct (Z.eq_dec p (len v)) as [->|]; [|lia].
  exfalso. apply Hs. unfold slice.
  rewrite (clip_inside (len v) (len v)), (clip_beyond (len v) (len v + 1)) by lia.
  rewrite Z.sub_diag. reflexivity.
Qed.

(** [readone] keeps the cursor inside the buffer; when it suspends, it
    waits for at least one byte. *)
Lemma readone_cursor (resume : option Z) (s : parser) :
  cursor_ok s ->
  match resume with Some w => 1 <= w | None => True end ->
  match readone resume s with
  | Yield w s' => cursor_ok s' /\ 1 <= w
  | Done _ s' | Raise _ s' | Spin s' => cursor_ok s'
  end.
Proof.
  intros Hs Hw. unfold readone, waitany, waitsome.
  pose proof (len_nonneg (buf s)) as Hl. unfold cursor_ok in *.
  destruct resume as [w|].
  - destruct (Z.ltb_spec (len (buf s)) (pos s + w)); cbn [bind].
    + auto.
    + cbn [set_pos pos buf]. lia.
  - destruct (slice (buf s) (pos s) (pos s + 1)) eqn:E.
    + destruct (Z.ltb_spec (len (buf s)) (pos s + (len (buf s) + 1))); cbn [bind].
      * split; [auto|lia].
      * lia.
    + cbn [bind set_pos pos buf].
      assert (pos s + 1 <= len (buf s)).
      { apply slice_nonempty; [lia|]. rewrite E. discriminate. }
      lia.
Qed.

Lemma good_in_proto (p : proto) (r : res point (value + agg)) :
  holds cursor_ok cursor_ok r -> good (within (In_proto p) r).
Proof. destruct r; cbn; auto. Qed.

Lemma call_cursor (p : proto) (at_ : option point) (s : parser) :
  cursor_ok s -> holds cursor_ok cursor_ok (call p at_ s).
Proof.
  intros Hs.
  assert (He : forall s e, cursor_ok s -> cursor_ok (set_err s e)) by auto.
  assert (Hf : forall size s, cursor_ok s ->
                 holds cursor_ok cursor_ok (readline_size size None s))
    by (intros; now apply readline_size_cursor).
  assert (Ha : forall size w s, cursor_ok s ->
                 holds cursor_ok cursor_ok (readline_size size (Some w) s))
    by (intros; now apply readline_size_cursor).
  destruct at_ as [[w|length w]|].
  - apply (call_holds cursor_ok cursor_ok cursor_ok) with (h := Some w);
      auto using readline_cursor.
  - apply (call_holds_payload cursor_ok cursor_ok cursor_ok);
      auto using readline_cursor.
  - apply (call_holds cursor_ok cursor_ok cursor_ok) with (h := None);
      auto using readline_cursor.
Qed.

Lemma dispatch_good (ctl : bytes) (s : parser) :
  cursor_ok s -> good (dispatch ctl s).
Proof.
  intros Hs. unfold dispatch. destruct (lookup _ _).
  - apply good_in_proto, call_cursor, Hs.
  - cbn [raise_error error good]. exact Hs.
Qed.

Lemma parse_good (at_ : option frame) (s : parser) :
  cursor_ok s ->
  match at_ with Some (In_readone w) => 1 <= w | _ => True end ->
  good (parse at_ s).
Proof.
  intros Hs Hw. unfold parse.
  destruct at_ as [[w|p pt]|].
  - pose proof (readone_cursor (Some w) s Hs Hw) as Hr.
    destruct (readone (Some w) s); cbn [within bind good]; auto.
    apply dispatch_good, Hr.
  - apply good_in_proto, call_cursor, Hs.
  - destruct (err s); [exact Hs|].
    pose proof (readone_cursor None s Hs I) as Hr.
    destruct (readone None s); cbn [within bind good]; auto.
    apply dispatch_good, Hr.
Qed.

Lemma send_sound (fuel : nat) (r : res frame (value + agg)) (stk : list agg) :
  good r -> sound (snd (send fuel r stk)).
Proof.
  revert r stk. induction fuel as [|n IH]; intros r stk Hg;
    destruct r as [[v|a] s|f s|e s|s]; cbn [send good] in *;
    try (split; [exact Hg|exact I]).
  - destruct (deliver v stk); cbn [snd]; split; auto; exact I.
  - destruct Hg as [Hc Hw]. split; [exact Hc|]. cbn. destruct f; auto.
  - destruct (deliver v stk); cbn [snd]; try (split; [exact Hg|exact I]).
    apply IH, parse_good; auto.
  - apply IH, parse_good; auto.
  - destruct Hg as [Hc Hw]. split; [exact Hc|]. cbn. destruct f; auto.
Qed.

Lemma parse_one_sound (s : parser) : sound s -> sound (snd (parse_one s)).
Proof.
  intros [Hc Hw]. unfold parse_one.
  destruct (gen s) as [[f st]|]; apply send_sound, parse_good; auto.
Qed.

Lemma init_sound (enc errors : option string) : sound (init enc errors).
Proof. split; [apply cursor_zero; reflexivity|exact I]. Qed.

Lemma run_sound (ops : list op) (s : parser) :
  sound s -> sound (snd (run s ops)).
Proof.
  revert s. induction ops as [|o t IH]; intros s Hs; [exact Hs|].
  destruct o as [data|val|]; cbn [run].
  - apply IH. destruct Hs as [Hc Hw]. split; [|exact Hw].
    unfold cursor_ok in *. cbn [feed set_buf buf pos]. rewrite len_app.
    pose proof (len_nonneg data). lia.
  - apply IH. exact Hs.
  - pose proof (parse_one_sound s Hs) as Hp.
    destruct (parse_one s) as [o s1]. cbn [snd] in Hp.
    specialize (IH s1 Hp). destruct (run s1 t). exact IH.
Qed.

End Cursor.

(** ** [parse_one] returns *)

Section Returns.

Context {H : Host}.

Lemma quiet_bind {K A B : Type} (r : res K A) (f : A -> parser -> res K B) :
  quiet r -> (forall a s, quiet (f a s)) -> quiet (bind r f).
Proof. destruct r; cbn; auto. Qed.

Lemma quiet_within {K K' A : Type} (f : K -> K') (r : res K A) :
  quiet r -> quiet (within f r).
Proof. destruct r; cbn; auto. Qed.

Lemma quiet_waitsome (size : Z) (s : parser) : quiet (waitsome size s).
Proof. unfold waitsome. destruct (_ <? _); exact I. Qed.

Lemma quiet_readone (resume : option Z) (s : parser) :
  quiet (readone resume s).
Proof.
  unfold readone, waitany.
  apply quiet_bind; [|intros; exact I].
  destruct resume; [apply quiet_waitsome|].
  destruct (slice _ _ _); [apply quiet_waitsome|exact I].
Qed.

Lemma quiet_readline_size (size : Z) (resume : option Z) (s : parser) :
  quiet (readline_size size resume s).
Proof.
  unfold readline_size, take_line.
  apply quiet_bind.
  - destruct resume; [apply quiet_waitsome|].
    destruct (_ <? _); [apply quiet_waitsome|exact I].
  - intros _ s0. destruct (bytes_eqb _ _); exact I.
Qed.

(** With the cursor inside the buffer, a failed search always waits. *)
Lemma quiet_readline (resume : option Z) (s : parser) :
  cursor_ok s -> quiet (readline resume s).
Proof.
  intros [Hp _].
  assert (Hs : quiet (readline_scan s)).
  { unfold readline_scan, waitany, waitsome, take_line.
    destruct (_ <? 0); [|exact I].
    destruct (Z.ltb_spec (len (buf s)) (pos s + (len (buf s) + 1)));
      [exact I|lia]. }
  unfold readline. destruct resume as [w|]; [|exact Hs].
  unfold waitsome. destruct (_ <? _); [exact I|exact Hs].
Qed.

Lemma quiet_call (p : proto) (at_ : option point) (s : parser) :
  cursor_ok s -> quiet (call p at_ s).
Proof.
  intros Hs. pose proof (fun r => quiet_readline r s Hs) as Hl.
  destruct at_ as [[w|length w]|];
  destruct p; cbn [call header_of];
    unfold returning, _parse_error, _parse_single_decode,
    _parse_single, _parse_int, _parse_float, readfloat, _parse_bool, readbool,
    _parse_null, _parse_bulk_decode, _parse_bulk, _parse_verbatim_decode,
    _parse_verbatim, _parse_vector, _parse_mutibulk, _parse_set, _parse_dict,
    _maybe_decode, readint; cbn [header_of];
    repeat lazymatch goal with
    | |- quiet (bind _ _) => apply quiet_bind; [|intros]
    | |- quiet (within _ _) => apply quiet_within
    | |- quiet (readline _ s) => apply Hl
    | |- quiet (readline_size _ _ _) => apply quiet_readline_size
    | |- quiet (raise_error _ _) => exact I
    | |- quiet (Done _ _) => exact I
    | |- quiet (Raise _ _) => exact I
    | |- quiet (match ?x with _ => _ end) => destruct x
    end.
Qed.

Lemma quiet_parse (at_ : option frame) (s : parser) :
  cursor_ok s ->
  match at_ with Some (In_readone w) => 1 <= w | _ => True end ->
  quiet (parse at_ s).
Proof.
  intros Hs Hw.
  assert (Hd : forall ctl s, cursor_ok s -> quiet (dispatch ctl s)).
  { intros ctl s0 H0. unfold dispatch. destruct (lookup _ _); [|exact I].
    apply quiet_within, quiet_call, H0. }
  unfold parse. destruct at_ as [[w|p pt]|].
  - pose proof (readone_cursor (Some w) s Hs Hw) as Hr.
    pose proof (quiet_readone (Some w) s) as Hq.
    destruct (readone (Some w) s); cbn [within bind quiet] in *; auto.
  - apply quiet_within, quiet_call, Hs.
  - destruct (err s); [exact I|].
    pose proof (readone_cursor None s Hs I) as Hr.
    pose proof (quiet_readone None s) as Hq.
    destruct (readone None s); cbn [within bind quiet] in *; auto.
Qed.

(** *** A finished frame has removed its first line from the buffer *)

Lemma index_crlf_bound (v : bytes) (k : nat) :
  index_crlf v = Some k -> (k + 2 <= List.length v)%nat.
Proof.
  revert k. induction v as [|c t IH]; intros k Hk; [discriminate|].
  destruct t as [|d t']; [discriminate|].
  rewrite index_crlf_cons2 in Hk.
  destruct (Byte.eqb c CR && Byte.eqb d LF)%bool.
  - injection Hk as <-. cbn. lia.
  - destruct (index_crlf (d :: t')) as [j|] eqn:E; [|discriminate].
    injection Hk as <-. specialize (IH j eq_refl). cbn in *. lia.
Qed.

Lemma find_crlf_bound (v : bytes) (start : Z) :
  0 <= find_crlf v start -> 0 <= find_crlf v start /\ find_crlf v start + 2 <= len v.
Proof.
  unfold find_crlf. pose proof (clip_range (len v) start (len_nonneg v)) as Hc.
  destruct (index_crlf (skipn _ v)) as [k|] eqn:E; [|lia].
  intros _. apply index_crlf_bound in E. rewrite length_skipn in E.
  unfold len in *. lia.
Qed.

Lemma take_line_length (offset : Z) (s : parser) (n : nat) :
  within_bytes n s -> 0 <= offset -> offset + 2 <= len (buf s) ->
  holds (line_removed n) (fun _ => True) (take_line offset s).
Proof.
  intros Hn H0 H1. unfold take_line, holds, line_removed, within_bytes in *.
  cbn [set_buf set_pos buf]. unfold del_prefix.
  rewrite length_skipn, clip_inside by lia. unfold len in *. lia.
Qed.

Lemma readline_removes (n : nat) (resume : option Z) (s : parser) :
  within_bytes n s ->
  holds (line_removed n) (fun _ => True) (readline resume s).
Proof.
  intros Hn.
  assert (Hs : holds (line_removed n) (fun _ => True) (readline_scan s)).
  { unfold readline_scan, waitany, waitsome.
    destruct (Z.ltb_spec (find_crlf (buf s) (pos s)) 0).
    - destruct (_ <? _); exact I.
    - destruct (find_crlf_bound (buf s) (pos s)); auto.
      apply take_line_length; auto. }
  unfold readline. destruct resume as [w|]; [|exact Hs].
  unfold waitsome. destruct (_ <? _); [exact I|exact Hs].
Qed.

Lemma readline_size_keeps (P : nat -> parser -> Prop) (n : nat)
      (size : Z) (resume : option Z) (s : parser) :
  (forall s', (List.length (buf s') <= List.length (buf s))%nat -> P n s') ->
  holds (P n) (fun _ => True) (readline_size size resume s).
Proof.
  intros HP. unfold readline_size, waitsome, take_line.
  destruct resume as [w|];
    repeat (destruct (_ <? _); cbn [bind holds]); auto;
    destruct (bytes_eqb _ _); cbn [holds raise_error error]; auto;
    apply HP; cbn [set_buf set_pos buf]; apply del_prefix_length.
Qed.

Lemma call_removes (n : nat) (p : proto) (s : parser) :
  within_bytes n s ->
  holds (line_removed n) (fun _ => True) (call p None s).
Proof.
  intros Hs.
  apply (call_holds (within_bytes n) (line_removed n) (fun _ => True))
    with (h := None); auto.
  - intros; now apply readline_removes.
  - intros size s0 H0. apply (readline_size_keeps line_removed).
    intros s' Hl. unfold line_removed in *. lia.
Qed.

Lemma call_keeps (n : nat) (p : proto) (at_ : option point) (s : parser) :
  within_bytes n s ->
  holds (within_bytes n) (fun _ => True) (call p at_ s).
Proof.
  intros Hs.
  assert (Hl : forall resume s0, within_bytes n s0 ->
            holds (within_bytes n) (fun _ => True) (readline resume s0)).
  { intros resume s0 H0. pose proof (readline_removes n resume s0 H0) as Hr.
    destruct (readline resume s0); cbn [holds] in *; auto.
    unfold line_removed, within_bytes in *. lia. }
  assert (Hz : forall size resume s0, within_bytes n s0 ->
            holds (within_bytes n) (fun _ => True) (readline_size size resume s0)).
  { intros size resume s0 H0. apply (readline_size_keeps within_bytes).
    intros s' Hl'. unfold within_bytes in *. lia. }
  destruct at_ as [[w|length w]|].
  - apply (call_holds (within_bytes n) (within_bytes n) (fun _ => True))
      with (h := Some w); auto.
  - apply (call_holds_payload (within_bytes n) (within_bytes n) (fun _ => True));
      auto.
  - apply (call_holds (within_bytes n) (within_bytes n) (fun _ => True))
      with (h := None); auto.
Qed.

Lemma readone_buf (resume : option Z) (s : parser) :
  holds (fun s' => buf s' = buf s) (fun _ => True) (readone resume s).
Proof.
  unfold readone, waitany, waitsome.
  destruct resume; [|destruct (slice _ _ _)];
    try destruct (_ <? _); cbn [bind holds set_pos buf]; auto.
Qed.

Lemma holds_in_proto (PD PO : parser -> Prop) (p : proto)
      (r : res point (value + agg)) :
  holds PD PO r -> holds PD PO (within (In_proto p) r).
Proof. apply holds_within. Qed.

(** A fresh [parse] that finishes has shortened the buffer. *)
Lemma parse_removes (s : parser) :
  holds (line_removed (List.length (buf s))) (fun _ => True) (parse None s).
Proof.
  unfold parse. destruct (err s); [exact I|].
  pose proof (readone_buf None s) as Hr.
  destruct (readone None s) as [ctl s1| | |]; cbn [within bind holds] in *; auto.
  unfold dispatch. destruct (lookup _ _); [|exact I].
  apply holds_within, call_removes. unfold within_bytes. rewrite Hr. lia.
Qed.

Lemma parse_keeps (at_ : option frame) (s : parser) :
  holds (within_bytes (List.length (buf s))) (fun _ => True) (parse at_ s).
Proof.
  destruct at_ as [[w|p pt]|].
  - unfold parse.
    pose proof (readone_buf (Some w) s) as Hr.
    destruct (readone (Some w) s) as [ctl s1| | |]; cbn [within bind holds] in *; auto.
    unfold dispatch. destruct (lookup _ _); [|exact I].
    apply holds_within, call_keeps. unfold within_bytes. rewrite Hr. lia.
  - unfold parse. apply holds_within, call_keeps. unfold within_bytes. lia.
  - pose proof (parse_removes s) as Hr.
    destruct (parse None s); cbn [holds] in *; auto.
    unfold line_removed, within_bytes in *. lia.
Qed.

Lemma send_returns (fuel : nat) (r : res frame (value + agg)) (stk : list agg) :
  good r -> quiet r -> done_below fuel r ->
  fst (send fuel r stk) <> Hang.
Proof.
  revert r stk. induction fuel as [|n IH]; intros r stk Hg Hq Hb;
    destruct r as [[v|a] s|f s|e s|s];
    cbn [send good quiet done_below holds] in *;
    try discriminate; try contradiction; try lia.
  - destruct (deliver v stk); cbn [fst]; try discriminate.
    apply IH.
    + apply parse_good; auto.
    + apply quiet_parse; auto.
    + pose proof (parse_removes s) as Hr. unfold done_below.
      destruct (parse None s); cbn [holds] in *; auto.
      unfold line_removed in Hr. lia.
  - apply IH.
    + apply parse_good; auto.
    + apply quiet_parse; auto.
    + pose proof (parse_removes s) as Hr. unfold done_below.
      destruct (parse None s); cbn [holds] in *; auto.
      unfold line_removed in Hr. lia.
Qed.

(** On every state the owner can reach, a call of [parse_one] returns
    or raises: the fuel of [send] is enough and no reader spins. *)
Lemma parse_one_returns (s : parser) :
  sound s -> fst (parse_one s) <> Hang.
Proof.
  intros [Hc Hw]. unfold parse_one.
  assert (Hk : forall at_, done_below (S (List.length (buf s))) (parse at_ s)).
  { intros at_. pose proof (parse_keeps at_ s) as Hr. unfold done_below.
    destruct (parse at_ s); cbn [holds] in *; auto.
    unfold within_bytes in Hr. lia. }
  destruct (gen s) as [[f st]|]; cbn [fr stack].
  - apply send_returns; auto.
    + apply parse_good; auto.
    + apply quiet_parse; auto.
  - apply send_returns; auto.
    + apply parse_good; auto.
    + apply quiet_parse; auto.
Qed.

End Returns.

(** ** A bulk payload arriving in pieces *)

Section Chunks.

Context {H : Host}.

Lemma parse_one_bulk_header (s : parser) (tok a : bytes) (n : Z) :
  idle s -> index_crlf tok = None -> py_int tok = Some n -> n <> -1 ->
  len a < n + 2 ->
  buf s = x24 :: tok ++ crlf ++ a ->
  parse_one s = (NotEnoughData, set_gen (set_buf s a) (Some (bulk_waiting s n))).
Proof.
  intros Hi Hn Hz Hm Hl Hb. unfold bulk_waiting, bulk_entry.
  assert (Hne : (n =? -1) = false) by (destruct (Z.eqb_spec n (-1)); congruence).
  assert (Hw : forall K (f : Z -> K),
             within f (readline_size n None (set_buf s a)) =
             Yield (f (n + 2)) (set_buf s a)).
  { intros K f.
    destruct (readline_size_short (set_buf s a) n (proj2 (proj2 Hi)) Hl) as [-> _].
    reflexivity. }
  destruct (protocols s) eqn:Et.
  - assert (Hk : lookup (protocols s) [x24] = Some P_bulk)
      by (rewrite Et; reflexivity).
    rewrite (parse_one_tag s _ _ _ Hi Hb Hk). destruct Hi as (Hg & He & Hp).
    cbn [call header_of]. unfold _parse_bulk, readint. cbn [header_of].
    rewrite (header_line s _ _ _ Hp Hb Hn). cbn [bind within]. rewrite Hz.
    cbn [bind within]. rewrite Hne, Hw.
    cbn [bind within returning send]. reflexivity.
  - assert (Hk : lookup (protocols s) [x24] = Some P_bulk_decode)
      by (rewrite Et; reflexivity).
    rewrite (parse_one_tag s _ _ _ Hi Hb Hk). destruct Hi as (Hg & He & Hp).
    cbn [call header_of]. unfold _parse_bulk_decode, _parse_bulk, readint.
    cbn [header_of].
    rewrite (header_line s _ _ _ Hp Hb Hn). cbn [bind within]. rewrite Hz.
    cbn [bind within]. rewrite Hne, Hw.
    cbn [bind within returning send]. reflexivity.
Qed.

Lemma parse_one_bulk_wait (s : parser) (n : Z) :
  gen s = Some (bulk_waiting s n) -> pos s = 0 -> len (buf s) < n + 2 ->
  parse_one s = (NotEnoughData, s).
Proof.
  intros Hg Hp Hl. unfold parse_one. rewrite Hg.
  unfold bulk_waiting, bulk_entry in *. cbn [fr stack parse].
  destruct (readline_size_short s n Hp Hl) as [_ Hr].
  destruct (protocols s); cbn [call header_of];
    unfold _parse_bulk_decode, _parse_bulk; rewrite Hr;
    cbn [bind within returning send]; f_equal;
    destruct s; cbn in *; subst; reflexivity.
Qed.

Lemma parse_one_bulk_rest (s : parser) (payload rest : bytes) :
  gen s = Some (bulk_waiting s (len payload)) -> pos s = 0 ->
  buf s = payload ++ crlf ++ rest ->
  parse_one s = (bulk_outcome s payload, set_gen (set_buf s rest) None).
Proof.
  intros Hg Hp Hb. unfold parse_one. rewrite Hg.
  unfold bulk_waiting, bulk_entry, bulk_outcome, decoded in *.
  cbn [fr stack parse].
  assert (Hr := readline_size_payload s payload rest (Some (len payload + 2))
                  Hb Hp (Z.le_refl _)).
  destruct (protocols s); cbn [call header_of];
    unfold _parse_bulk_decode, _parse_bulk; rewrite Hr;
    cbn [bind within returning opt_value send deliver].
  - f_equal. destruct s; cbn in *; subst; reflexivity.
  - unfold _maybe_decode.
    change (encoding (set_buf (set_pos s 0) rest)) with (encoding s).
    change (encoding_errors (set_buf (set_pos s 0) rest)) with (encoding_errors s).
    destruct (encoding s) as [enc|].
    + destruct (decode enc (encoding_errors s) payload);
        cbn [bind within returning opt_value send deliver]; f_equal;
        destruct s; cbn in *; subst; reflexivity.
    + cbn [bind within returning opt_value send deliver]. f_equal.
      destruct s; cbn in *; subst; reflexivity.
Qed.

(** A suspended bulk frame fed the rest of its payload in any number of
    pieces: every call before the last piece asks for more, the call
    after the last piece returns the reply. *)
Lemma feed_each_bulk (mid : list bytes) (s : parser)
      (payload last rest : bytes) :
  gen s = Some (bulk_waiting s (len payload)) -> pos s = 0 ->
  buf s ++ List.concat mid ++ last = payload ++ crlf ++ rest ->
  len (buf s ++ List.concat mid) < len payload + 2 ->
  feed_each s (mid ++ [last]) =
  (repeat NotEnoughData (List.length mid) ++ [bulk_outcome s payload],
   set_gen (set_buf s rest) None).
Proof.
  revert s. induction mid as [|c t IH]; intros s Hg Hp Hb Hl.
  - cbn [app List.concat] in *. cbn [feed_each List.length repeat app].
    rewrite (parse_one_bulk_rest (feed s last) payload rest Hg Hp Hb).
    reflexivity.
  - cbn [app List.concat List.length repeat feed_each] in *.
    rewrite (parse_one_bulk_wait (feed s c) (len payload) Hg Hp).
    + rewrite (IH (feed s c) Hg Hp).
      * reflexivity.
      * cbn [feed set_buf buf]. rewrite <- Hb, <- !app_assoc. reflexivity.
      * cbn [feed set_buf buf]. rewrite <- app_assoc. exact Hl.
    + cbn [feed set_buf buf]. rewrite app_assoc, len_app in Hl.
      pose proof (len_nonneg (List.concat t)). lia.
Qed.

End Chunks.

(** ** Changing the encoding while a frame is suspended *)

Section Encoding.

Context {H : Host}.

Ltac split_cases :=
  repeat (cbn [bind on_state buf pos set_encoding raise_error error];
          match goal with
          | |- context [if ?c then _ else _] => destruct c
          end);
  cbn [bind on_state buf pos set_encoding raise_error error].

Lemma readline_set_encoding (resume : option Z) (s : parser) (val : option string) :
  readline resume (set_encoding s val) =
  on_state (fun x => set_encoding x val) (readline resume s).
Proof.
  unfold readline, readline_scan, waitany, waitsome, take_line.
  cbn [set_encoding buf pos]. destruct resume; split_cases; reflexivity.
Qed.

Lemma readline_size_set_encoding (size : Z) (resume : option Z) (s : parser)
      (val : option string) :
  readline_size size resume (set_encoding s val) =
  on_state (fun x => set_encoding x val) (readline_size size resume s).
Proof.
  unfold readline_size, waitsome, take_line.
  cbn [set_encoding buf pos]. destruct resume; split_cases; reflexivity.
Qed.

Lemma on_state_bind {K A B : Type} (g : parser -> parser)
      (r : res K A) (f : A -> parser -> res K B) :
  (forall a s, f a (g s) = on_state g (f a s)) ->
  bind (on_state g r) f = on_state g (bind r f).
Proof. intros Hf. destruct r; cbn; auto. Qed.

Lemma on_state_within {K K' A : Type} (g : parser -> parser)
      (k : K -> K') (r : res K A) :
  within k (on_state g r) = on_state g (within k r).
Proof. destruct r; reflexivity. Qed.

(** A raw scalar frame parser runs the same with the new encoding. *)
Lemma call_set_encoding (p : proto) (at_ : option point) (s : parser)
      (val : option string) :
  raw_scalar p = true ->
  call p at_ (set_encoding s val) =
  on_state (fun x => set_encoding x val) (call p at_ s).
Proof.
  intros Hp.
  destruct p; try discriminate; cbn [call];
    unfold returning, _parse_single, _parse_int, _parse_float,
      _parse_bool, _parse_null, _parse_bulk, _parse_verbatim;
    unfold readint, readfloat, readbool;
    destruct at_ as [[w|length w]|]; cbn [header_of];
    rewrite ?readline_set_encoding, ?readline_size_set_encoding,
      ?on_state_within;
    repeat (rewrite on_state_bind; [|intros]);
    try reflexivity;
    repeat first
      [ reflexivity
      | rewrite readline_size_set_encoding
      | rewrite on_state_within
      | rewrite on_state_bind; [|intros]
      | match goal with
        | |- context [match ?x with _ => _ end] => destruct x
        end ].
Qed.

Lemma call_scalar_value (p : proto) (at_ : option point) (s s' : parser)
      (a : agg) :
  raw_scalar p = true -> call p at_ s <> Done (inr a) s'.
Proof.
  intros Hp.
  assert (Hr : forall (A : Type) (f : A -> value) (r : res point A),
             returning f r <> Done (inr a) s').
  { intros A f r. destruct r; cbn; discriminate. }
  destruct p; try discriminate; cbn [call]; apply Hr.
Qed.

(** A suspended top-level raw scalar frame is finished as it would have
    been without the change of encoding. *)
Lemma parse_one_set_encoding (s : parser) (p : proto) (pt : point)
      (val : option string) :
  gen s = Some {| fr := In_proto p pt; stack := [] |} ->
  raw_scalar p = true ->
  parse_one (set_encoding s val) =
  (fst (parse_one s), set_encoding (snd (parse_one s)) val).
Proof.
  intros Hg Hp. unfold parse_one.
  change (gen (set_encoding s val)) with (gen s).
  change (buf (set_encoding s val)) with (buf s).
  rewrite Hg. cbn [fr stack parse].
  rewrite (call_set_encoding p (Some pt) s val Hp).
  pose proof (call_scalar_value p (Some pt) s) as Hv.
  destruct (call p (Some pt) s) as [[v|a] s'|k s'|e s'|s'];
    cbn [on_state within send deliver fst snd]; try reflexivity.
  exfalso. exact (Hv s' a Hp eq_refl).
Qed.

(** The next child of a suspended array, read after the change, goes
    through the table of decoding parsers. *)
Lemma parse_one_child_after_set_encoding (s : parser) (enc : string)
      (acc : list value) (tok rest : bytes) (t : text) :
  gen s = Some {| fr := In_readone 1; stack := [A_list 0 acc] |} ->
  buf s = [] -> pos s = 0 ->
  index_crlf tok = None ->
  decode enc (encoding_errors s) tok = inl t ->
  parse_one (feed (set_encoding s (Some enc)) (x2b :: tok ++ crlf ++ rest)) =
  (Returned (VList (acc ++ [VStr t])),
   set_gen (set_buf (set_encoding s (Some enc)) rest) None).
Proof.
  intros Hg Hb Hp Hn Hd. unfold parse_one.
  change (gen (feed (set_encoding s (Some enc)) (x2b :: tok ++ crlf ++ rest)))
    with (gen s).
  rewrite Hg. cbn [fr stack parse].
  set (s2 := feed (set_encoding s (Some enc)) (x2b :: tok ++ crlf ++ rest)).
  assert (Hb2 : buf s2 = x2b :: tok ++ crlf ++ rest)
    by (unfold s2; cbn [feed set_buf buf set_encoding]; rewrite Hb; reflexivity).
  assert (Hp2 : pos s2 = 0) by exact Hp.
  assert (Hr : readone (Some 1) s2 = Done [x2b] (set_pos s2 1)).
  { unfold readone, waitsome. rewrite Hb2, Hp2, len_cons.
    pose proof (len_nonneg (tok ++ crlf ++ rest)).
    destruct (Z.ltb_spec (1 + len (tok ++ crlf ++ rest)) (0 + 1)); [lia|].
    cbn [bind]. rewrite Hb2, Hp2, slice_first. reflexivity. }
  rewrite Hr. cbn [within bind]. unfold dispatch.
  change (protocols (set_pos s2 1)) with PROTOCOLS_DECODE.
  change (lookup PROTOCOLS_DECODE [x2b]) with (Some P_single_decode).
  cbn [call header_of]. unfold _parse_single_decode, _parse_single.
  rewrite (header_line s2 _ _ _ Hp2 Hb2 Hn). cbn [bind within].
  unfold _maybe_decode.
  change (encoding (set_buf s2 rest)) with (Some enc).
  change (encoding_errors (set_buf s2 rest)) with (encoding_errors s).
  cbv beta iota. rewrite Hd. cbn [bind within returning opt_value send deliver].
  change (0 <? 0) with false. cbn [deliver]. reflexivity.
Qed.

(** A frame parser that does not read the encoding runs the same with
    the new encoding, wherever it is entered. *)
Lemma call_set_encoding_free (p : proto) (at_ : option point) (s : parser)
      (val : option string) :
  encoding_free p = true ->
  call p at_ (set_encoding s val) =
  on_state (fun x => set_encoding x val) (call p at_ s).
Proof.
  intros Hp. destruct (raw_scalar p) eqn:Hr; [now apply call_set_encoding|].
  destruct p; try discriminate; cbn [call];
    unfold _parse_vector, _parse_mutibulk, _parse_set, _parse_dict, readint;
    rewrite readline_set_encoding;
    repeat first
      [ reflexivity
      | rewrite on_state_within
      | rewrite on_state_bind; [|intros]
      | match goal with
        | |- context [match ?x with _ => _ end] => destruct x
        end ].
Qed.

Lemma parse_set_encoding_free (p : proto) (pt : point) (s : parser)
      (val : option string) :
  encoding_free p = true ->
  parse (Some (In_proto p pt)) (set_encoding s val) =
  on_state (fun x => set_encoding x val) (parse (Some (In_proto p pt)) s).
Proof.
  intros Hp. cbn [parse].
  now rewrite (call_set_encoding_free p (Some pt) s val Hp), on_state_within.
Qed.

Lemma readone_pending (x : parser) (c : byte) (r : bytes) (w : Z) :
  pos x = 0 -> buf x = c :: r -> w <= len (buf x) ->
  readone (Some w) x = Done [c] (set_pos x 1).
Proof.
  intros Hp Hb Hw. unfold readone, waitsome. rewrite Hp.
  destruct (Z.ltb_spec (len (buf x)) (0 + w)); [lia|].
  cbn [bind]. rewrite Hb, Hp, slice_first. reflexivity.
Qed.

(** With the tag of a frame next, [parse_one] reads it and goes to the
    table. *)
Lemma parse_one_pending (x : parser) (stk : list agg) (c : byte) (r : bytes) :
  tag_pending x stk -> buf x = c :: r ->
  parse_one x =
  send (S (List.length (buf x))) (dispatch [c] (set_pos x 1)) stk.
Proof.
  intros (Hp & He & Hg) Hb. unfold parse_one.
  destruct (gen x) as [g|].
  - destruct Hg as (Hs & w & Hf & Hw). rewrite Hf, Hs. cbn [parse].
    rewrite (readone_pending x c r w Hp Hb Hw). reflexivity.
  - subst stk. unfold parse. rewrite He, (readone_first x c r Hb Hp).
    reflexivity.
Qed.

(** The three string types under the table of decoding parsers. *)
Lemma dispatch_decoding (y : parser) (tok rest : bytes) :
  pos y = 0 -> protocols y = PROTOCOLS_DECODE -> index_crlf tok = None ->
  (buf y = x2b :: tok ++ crlf ++ rest ->
   dispatch [x2b] (set_pos y 1) = decoding (set_buf y rest) tok) /\
  (forall payload : bytes,
      py_int tok = Some (len payload) ->
      buf y = x24 :: tok ++ crlf ++ payload ++ crlf ++ rest ->
      dispatch [x24] (set_pos y 1) = decoding (set_buf y rest) payload) /\
  (forall typ v : bytes,
      Forall (fun c => c <> x3a) typ ->
      py_int tok = Some (len (typ ++ x3a :: v)) ->
      buf y = x3d :: tok ++ crlf ++ (typ ++ x3a :: v) ++ crlf ++ rest ->
      dispatch [x3d] (set_pos y 1) = decoding (set_buf y rest) v).
Proof.
  intros Hp Ht Hn.
  assert (Hs : forall v0,
             set_buf (set_pos (set_buf y v0) 0) rest = set_buf y rest)
    by (intros v0; destruct y; cbn in *; subst; reflexivity).
  split; [|split].
  - intros Hb. unfold dispatch.
    change (protocols (set_pos y 1)) with (protocols y). rewrite Ht.
    change (lookup PROTOCOLS_DECODE [x2b]) with (Some P_single_decode).
    cbn [call header_of]. unfold _parse_single_decode, _parse_single.
    rewrite (header_line y _ _ _ Hp Hb Hn). cbn [bind within].
    unfold _maybe_decode, decoding.
    destruct (encoding (set_buf y rest)) as [enc|]; [|reflexivity].
    destruct (decode enc _ tok); reflexivity.
  - intros payload Hz Hb. unfold dispatch.
    change (protocols (set_pos y 1)) with (protocols y). rewrite Ht.
    change (lookup PROTOCOLS_DECODE [x24]) with (Some P_bulk_decode).
    cbn [call header_of]. unfold _parse_bulk_decode, _parse_bulk, readint.
    cbn [header_of].
    rewrite (header_line y _ _ _ Hp Hb Hn). cbn [bind within]. rewrite Hz.
    cbn [bind within]. rewrite len_not_minus_one.
    rewrite (readline_size_payload (set_buf y (payload ++ crlf ++ rest))
               payload rest None eq_refl Hp I).
    cbn [bind within]. rewrite Hs. unfold _maybe_decode, decoding.
    destruct (encoding (set_buf y rest)) as [enc|]; [|reflexivity].
    destruct (decode enc _ payload); reflexivity.
  - intros typ v Hc Hz Hb. unfold dispatch.
    change (protocols (set_pos y 1)) with (protocols y). rewrite Ht.
    change (lookup PROTOCOLS_DECODE [x3d]) with (Some P_verbatim_decode).
    cbn [call header_of].
    unfold _parse_verbatim_decode, _parse_verbatim, readint. cbn [header_of].
    rewrite (header_line y _ _ _ Hp Hb Hn). cbn [bind within]. rewrite Hz.
    cbn [bind within]. rewrite len_not_minus_one.
    rewrite (readline_size_payload
               (set_buf y ((typ ++ x3a :: v) ++ crlf ++ rest))
               (typ ++ x3a :: v) rest None eq_refl Hp I).
    cbn [bind within]. rewrite (split_colon_first typ v Hc).
    cbn [bind within]. rewrite Hs. unfold _maybe_decode, decoding.
    destruct (encoding (set_buf y rest)) as [enc|]; [|reflexivity].
    destruct (decode enc _ v); reflexivity.
Qed.

(** Outside the three string types the two tables have the same
    entries. *)
Lemma tables_agree (c : byte) :
  c <> x2b -> c <> x24 -> c <> x3d ->
  lookup PROTOCOLS_DECODE [c] = lookup PROTOCOLS [c].
Proof.
  intros H1 H2 H3. destruct c; try reflexivity; congruence.
Qed.

End Encoding.

(** ** The claims *)

Section Claims.

Context {H : Host}.

Lemma parse_one_set (s : parser) (tok rest : bytes) (n : Z) :
  idle s -> index_crlf tok = None -> py_int tok = Some n ->
  buf s = x7e :: tok ++ crlf ++ rest ->
  parse_one s =
  (if n =? -1 then Returned VNone
   else if 0 <? n then Raised (Bare TypeError_not_iterable)
   else Returned (VSet []),
   set_buf s rest).
Proof.
  intros Hi Hn Hz Hb.
  assert (Hl : lookup (protocols s) [x7e] = Some P_set)
    by (destruct (protocols s); reflexivity).
  rewrite (parse_one_tag s _ _ _ Hi Hb Hl). destruct Hi as (Hg & He & Hp).
  cbn [call header_of]. unfold _parse_set, readint.
  rewrite (header_line s _ _ _ Hp Hb Hn). cbn [bind within]. rewrite Hz.
  cbn [bind within].
  destruct (n =? -1); [|destruct (0 <? n)];
    cbn [bind within send deliver]; f_equal; same_state s.
Qed.

(** C2, on the code.  A set reply [~N\r\n] with [N >= 1] raises the
    host's [TypeError] as soon as its length is read, whatever children
    follow: [_parse_set] iterates over the method [parse] instead of
    calling it.  Only the empty set and the null set are returned. *)
Theorem set_reply_with_children_raises (s : parser) (tok rest : bytes) (n : Z) :
  idle s -> index_crlf tok = None -> py_int tok = Some n ->
  buf s = x7e :: tok ++ crlf ++ rest ->
  (0 < n -> parse_one s =
            (Raised (Bare TypeError_not_iterable), set_buf s rest)) /\
  (n = 0 -> parse_one s = (Returned (VSet []), set_buf s rest)) /\
  (n = -1 -> parse_one s = (Returned VNone, set_buf s rest)).
Proof.
  intros Hi Hn Hz Hb. rewrite (parse_one_set s tok rest n Hi Hn Hz Hb).
  repeat split; intros Hc.
  - destruct (Z.eqb_spec n (-1)); [lia|].
    destruct (Z.ltb_spec 0 n); [reflexivity|lia].
  - subst n. reflexivity.
  - subst n. reflexivity.
Qed.

(** C3.  Once [parse_one] has raised a protocol error, the error is
    stored; whatever the owner does next, every [parse_one] raises the
    same error, the stored error stays, the cursor does not move and the
    buffer only grows by what is appended: a further call changes
    nothing at all. *)
Theorem protocol_error_is_sticky (s s1 : parser) (e : perr) (ops : list op) :
  parse_one s = (Raised (Protocol e), s1) ->
  err s1 = Some e /\
  Forall (fun o => o = Raised (Protocol e)) (fst (run s1 ops)) /\
  err (snd (run s1 ops)) = Some e /\
  pos (snd (run s1 ops)) = pos s1 /\
  buf (snd (run s1 ops)) = buf s1 ++ appended ops /\
  parse_one (snd (run s1 ops)) = (Raised (Protocol e), snd (run s1 ops)).
Proof.
  intros Hr. destruct (parse_one_latches s s1 e Hr) as [He Hg].
  destruct (run_poisoned ops s1 e He Hg) as (A & B & C & D & E).
  repeat split; auto. apply parse_one_reraises; assumption.
Qed.

(** C4.  On an idle parser each wire violation makes [parse_one] raise
    the value [protocolError] builds, after storing that same value in
    [_err]: an unknown tag byte; a length token [int] rejects, for the
    six length-prefixed tags; a token [int] rejects after [:] or [(] and
    a token [float] rejects after [,]; a bulk or verbatim payload whose
    next two bytes are not the terminator.  And whenever [parse_one]
    raises a protocol error, from any state, that error is the stored
    one. *)
Theorem wire_violations_raise_protocol_error (s : parser) (rest : bytes) :
  idle s ->
  (forall c : byte,
      lookup (protocols s) [c] = None -> buf s = c :: rest ->
      let e := protocolError (Msg_protocol_error [c]) in
      parse_one s = (Raised (Protocol e), set_err (set_pos s 1) (Some e))) /\
  (forall (tag : byte) (tok : bytes),
      In tag (bs "$=*~%>") -> index_crlf tok = None -> py_int tok = None ->
      buf s = tag :: tok ++ crlf ++ rest ->
      let e := protocolError (Msg_exception (ValueError_int tok)) in
      parse_one s = (Raised (Protocol e), set_err (set_buf s rest) (Some e))) /\
  (forall (tag : byte) (tok : bytes),
      In tag (bs ":(") -> index_crlf tok = None -> py_int tok = None ->
      buf s = tag :: tok ++ crlf ++ rest ->
      let e := protocolError (Msg_exception (ValueError_int tok)) in
      parse_one s = (Raised (Protocol e), set_err (set_buf s rest) (Some e))) /\
  (forall tok : bytes,
      index_crlf tok = None -> float_of_bytes tok = None ->
      buf s = x2c :: tok ++ crlf ++ rest ->
      let e := protocolError (Msg_exception (ValueError_float tok)) in
      parse_one s = (Raised (Protocol e), set_err (set_buf s rest) (Some e))) /\
  (forall (tag : byte) (tok payload junk tail : bytes),
      tag = x24 \/ tag = x3d ->
      index_crlf tok = None -> py_int tok = Some (len payload) ->
      List.length junk = 2%nat -> junk <> crlf ->
      rest = payload ++ junk ++ tail ->
      buf s = tag :: tok ++ crlf ++ rest ->
      let e := protocolError Msg_expected_crlf in
      parse_one s = (Raised (Protocol e), set_err (set_buf s rest) (Some e))) /\
  (forall (s0 s1 : parser) (e : perr),
      parse_one s0 = (Raised (Protocol e), s1) -> err s1 = Some e).
Proof.
  intros Hi. repeat split.
  - intros c Hl Hb. exact (parse_one_unknown_tag s c rest Hi Hl Hb).
  - intros tag tok Ht Hn Hz Hb.
    assert (Hin : In tag (bs "$=*~%>:(")) by (cbn in Ht |- *; intuition).
    exact (parse_one_bad_int s tag tok rest Hi Hin Hn Hz Hb).
  - intros tag tok Ht Hn Hz Hb.
    assert (Hin : In tag (bs "$=*~%>:(")) by (cbn in Ht |- *; intuition).
    exact (parse_one_bad_int s tag tok rest Hi Hin Hn Hz Hb).
  - intros tok Hn Hz Hb. exact (parse_one_bad_float s tok rest Hi Hn Hz Hb).
  - intros tag tok payload junk tail Ht Hn Hz Hj Hne -> Hb.
    exact (parse_one_missing_crlf s tag tok payload junk tail Hi Ht Hn Hz Hj Hne Hb).
  - intros s0 s1 e Hr. apply (parse_one_latches s0 s1 e Hr).
Qed.


(** C6, as amended.  [set_encoding] replaces the table at once, and the
    table is consulted by every [parse] when it has read its tag byte.
    A frame of a parser that does not read the encoding, suspended
    after its tag was read, at top level or under any stack of
    suspended aggregates, does what it would have done without the
    change; at top level a raw scalar frame makes the whole call come
    out the same.  Every frame whose tag is read after the change, at
    top level or as a child still to come of suspended aggregates of
    any depth, goes through the table of decoding parsers: a simple
    string, a bulk string and a verbatim string end with the text the
    codec gives under the new encoding, or with the codec's exception,
    or with [TypeError] when the encoding is [None]; for every other
    tag the two tables have the same entry. *)
Theorem set_encoding_acts_at_dispatch (s : parser) :
  (forall val : option string,
      protocols (set_encoding s val) = PROTOCOLS_DECODE) /\
  (forall (p : proto) (pt : point) (stk : list agg) (val : option string),
      gen s = Some {| fr := In_proto p pt; stack := stk |} ->
      encoding_free p = true ->
      parse (Some (In_proto p pt)) (set_encoding s val) =
        on_state (fun x => set_encoding x val)
                 (parse (Some (In_proto p pt)) s) /\
      parse_one s =
        send (S (List.length (buf s))) (parse (Some (In_proto p pt)) s) stk /\
      parse_one (set_encoding s val) =
        send (S (List.length (buf s)))
             (on_state (fun x => set_encoding x val)
                       (parse (Some (In_proto p pt)) s))
             stk) /\
  (forall (p : proto) (pt : point) (val : option string),
      gen s = Some {| fr := In_proto p pt; stack := [] |} ->
      raw_scalar p = true ->
      parse_one (set_encoding s val) =
      (fst (parse_one s), set_encoding (snd (parse_one s)) val)) /\
  (forall (stk : list agg) (val : option string) (tok rest : bytes),
      tag_pending s stk -> index_crlf tok = None ->
      (buf s = x2b :: tok ++ crlf ++ rest ->
       parse_one (set_encoding s val) =
       send (S (List.length (buf s)))
            (decoding (set_buf (set_encoding s val) rest) tok) stk) /\
      (forall payload : bytes,
          py_int tok = Some (len payload) ->
          buf s = x24 :: tok ++ crlf ++ payload ++ crlf ++ rest ->
          parse_one (set_encoding s val) =
          send (S (List.length (buf s)))
               (decoding (set_buf (set_encoding s val) rest) payload) stk) /\
      (forall typ v : bytes,
          Forall (fun c => c <> x3a) typ ->
          py_int tok = Some (len (typ ++ x3a :: v)) ->
          buf s = x3d :: tok ++ crlf ++ (typ ++ x3a :: v) ++ crlf ++ rest ->
          parse_one (set_encoding s val) =
          send (S (List.length (buf s)))
               (decoding (set_buf (set_encoding s val) rest) v) stk)) /\
  (forall c : byte,
      c <> x2b -> c <> x24 -> c <> x3d ->
      lookup PROTOCOLS_DECODE [c] = lookup PROTOCOLS [c]) /\
  (forall (enc : string) (acc : list value) (tok rest : bytes) (t : text),
      gen s = Some {| fr := In_readone 1; stack := [A_list 0 acc] |} ->
      buf s = [] -> pos s = 0 ->
      index_crlf tok = None ->
      decode enc (encoding_errors s) tok = inl t ->
      parse_one (feed (set_encoding s (Some enc)) (x2b :: tok ++ crlf ++ rest)) =
      (Returned (VList (acc ++ [VStr t])),
       set_gen (set_buf (set_encoding s (Some enc)) rest) None)).
Proof.
  split; [reflexivity|].
  split; [|split; [|split; [|split]]].
  - intros p pt stk val Hg Hp. split; [|split].
    + apply parse_set_encoding_free, Hp.
    + unfold parse_one. now rewrite Hg.
    + unfold parse_one.
      change (gen (set_encoding s val)) with (gen s).
      change (buf (set_encoding s val)) with (buf s).
      rewrite Hg. cbn [fr stack].
      now rewrite (parse_set_encoding_free p pt s val Hp).
  - intros p pt val Hg Hp.
    apply parse_one_set_encoding with (p := p) (pt := pt); assumption.
  - intros stk val tok rest Hpend Hn.
    assert (Hpend' : tag_pending (set_encoding s val) stk) by exact Hpend.
    destruct (dispatch_decoding (set_encoding s val) tok rest
                (proj1 Hpend) eq_refl Hn) as (A & B & C).
    split; [|split].
    + intros Hb.
      rewrite (parse_one_pending _ stk x2b _ Hpend' Hb). now rewrite (A Hb).
    + intros payload Hz Hb.
      rewrite (parse_one_pending _ stk x24 _ Hpend' Hb).
      now rewrite (B payload Hz Hb).
    + intros typ v Hc Hz Hb.
      rewrite (parse_one_pending _ stk x3d _ Hpend' Hb).
      now rewrite (C typ v Hc Hz Hb).
  - apply tables_agree.
  - intros enc acc tok rest t Hg Hb Hp Hn Hd.
    apply parse_one_child_after_set_encoding; assumption.
Qed.

(** C7, as amended.  A bulk reply [$N\r\n], [N >= 0], with [N] payload
    bytes and the terminator: under the raw table [parse_one] returns
    those bytes; under the decoding table it returns the text the codec
    makes of them under the error policy, and raises the codec's
    exception when the codec refuses them, or the host's [TypeError]
    when the encoding is [None], with the frame consumed and nothing
    latched.  [$-1\r\n] returns null.  When the payload and its
    terminator arrive in pieces, cut anywhere, every call made before
    the last piece asks for more and the call after it gives that one
    outcome. *)
Theorem bulk_string_reply (s : parser) (tok payload rest : bytes) :
  idle s -> index_crlf tok = None ->
  (py_int tok = Some (len payload) ->
   buf s = x24 :: tok ++ crlf ++ payload ++ crlf ++ rest ->
   parse_one s = (bulk_outcome s payload, set_buf s rest)) /\
  (py_int tok = Some (-1) ->
   buf s = x24 :: tok ++ crlf ++ rest ->
   parse_one s = (Returned VNone, set_buf s rest)) /\
  (py_int tok = Some (len payload) -> buf s = [] ->
   forall (first last : bytes) (mid : list bytes),
     first ++ List.concat mid ++ last = payload ++ crlf ++ rest ->
     len (first ++ List.concat mid) < len payload + 2 ->
     feed_each s ((x24 :: tok ++ crlf ++ first) :: mid ++ [last]) =
     (NotEnoughData :: repeat NotEnoughData (List.length mid)
        ++ [bulk_outcome s payload],
      set_buf s rest)).
Proof.
  intros Hi Hn. repeat split.
  - intros Hz Hb. apply parse_one_bulk with (tok := tok); assumption.
  - intros Hz Hb. apply parse_one_bulk_null with (tok := tok); assumption.
  - intros Hz Hb first last mid Hcat Hlen.
    cbn [feed_each].
    assert (Hi1 : idle (feed s (x24 :: tok ++ crlf ++ first)))
      by exact Hi.
    assert (Hb1 : buf (feed s (x24 :: tok ++ crlf ++ first)) =
                  x24 :: tok ++ crlf ++ first)
      by (cbn [feed set_buf buf]; rewrite Hb; reflexivity).
    assert (Hf : len first < len payload + 2).
    { rewrite len_app in Hlen. pose proof (len_nonneg (List.concat mid)). lia. }
    assert (Hm : len payload <> -1) by (pose proof (len_nonneg payload); lia).
    rewrite (parse_one_bulk_header _ tok first (len payload) Hi1 Hn Hz Hm Hf Hb1).
    rewrite (feed_each_bulk mid _ payload last rest); try reflexivity; auto.
    + f_equal. destruct Hi as (Hg & He & Hp).
      destruct s; cbn in *; subst; reflexivity.
    + exact (proj2 (proj2 Hi)).
Qed.

(** C8.  From a new parser, whatever is appended and whatever calls are
    made, the cursor stays between 0 and the length of the buffer.  The
    buffer is cut only where [readline] returns a line, and there the
    cursor is 0; a reader that waits or raises leaves buffer and cursor
    as they are, and [readone] moves the cursor by one over an unchanged
    buffer. *)
Theorem cursor_stays_in_buffer :
  (forall (enc errors : option string) (ops : list op),
      0 <= pos (snd (run (init enc errors) ops))
        <= len (buf (snd (run (init enc errors) ops)))) /\
  (forall (resume : option Z) (s : parser),
      match readline resume s with
      | Done _ s' => pos s' = 0 /\ exists k, buf s' = del_prefix (buf s) k
      | Yield _ s' | Raise _ s' | Spin s' => buf s' = buf s /\ pos s' = pos s
      end) /\
  (forall (size : Z) (resume : option Z) (s : parser),
      match readline_size size resume s with
      | Done _ s' => pos s' = 0 /\ exists k, buf s' = del_prefix (buf s) k
      | Yield _ s' | Raise _ s' | Spin s' => buf s' = buf s /\ pos s' = pos s
      end) /\
  (forall (resume : option Z) (s : parser),
      match readone resume s with
      | Done _ s' => buf s' = buf s /\ pos s' = pos s + 1
      | Yield _ s' | Raise _ s' | Spin s' => buf s' = buf s /\ pos s' = pos s
      end).
Proof.
  repeat split.
  - apply (run_sound ops (init enc errors) (init_sound enc errors)).
  - apply (run_sound ops (init enc errors) (init_sound enc errors)).
  - intros resume s.
    unfold readline, readline_scan, waitany, waitsome, take_line.
    destruct resume as [w|];
      repeat (destruct (_ <? _); cbn [bind]); auto;
      (split; [reflexivity|eexists; reflexivity]).
  - intros size resume s.
    unfold readline_size, waitsome, take_line.
    destruct resume as [w|];
      repeat (destruct (_ <? _); cbn [bind]); auto;
      destruct (bytes_eqb _ _); cbn [raise_error error]; auto;
      (split; [reflexivity|eexists; reflexivity]).
  - intros resume s. unfold readone, waitany, waitsome.
    destruct resume as [w|]; [|destruct (slice _ _ _)];
      try destruct (_ <? _); cbn [bind]; auto.
Qed.

(** C9.  A verbatim frame whose payload has no colon makes [parse_one]
    raise the host's [ValueError] of the failed unpacking, which
    [protocolError] did not build.  No error is stored, the frame has
    been consumed, and the parser is idle on the bytes that follow: the
    next call starts a new [parse] there. *)
Theorem verbatim_without_colon_raises_bare
        (s : parser) (tok payload rest : bytes) :
  idle s -> index_crlf tok = None -> py_int tok = Some (len payload) ->
  split_colon payload = None ->
  buf s = x3d :: tok ++ crlf ++ payload ++ crlf ++ rest ->
  parse_one s = (Raised (Bare ValueError_unpack), set_buf s rest) /\
  err (set_buf s rest) = None /\
  idle (set_buf s rest) /\
  parse_one (set_buf s rest) =
  send (S (List.length rest)) (parse None (set_buf s rest)) [].
Proof.
  intros Hi Hn Hz Hc Hb.
  assert (Hi' : idle (set_buf s rest))
    by (destruct Hi as (Hg & He & Hp); repeat split; assumption).
  repeat split; try apply Hi'.
  - apply parse_one_verbatim_no_colon with (tok := tok) (payload := payload);
      assumption.
  - apply (parse_one_idle (set_buf s rest) Hi').
Qed.

(** C10, as amended.  After [:] and [(] every token the host's [int]
    accepts is returned as that integer, not refused: so a leading [+],
    surrounding whitespace and underscores between digits pass.  An
    integer written in decimal is read back exactly, with no truncation
    to 64 bits, when it has at most [int_max_str_digits] digits; with
    more digits [int] raises [ValueError], and [readint] turns it into
    the protocol error, which is latched. *)
Theorem integer_parser_takes_host_literals :
  (forall (s : parser) (tag : byte) (tok rest : bytes) (z : Z),
      idle s -> tag = x3a \/ tag = x28 ->
      index_crlf tok = None -> py_int tok = Some z ->
      buf s = tag :: tok ++ crlf ++ rest ->
      parse_one s = (Returned (VInt z), set_buf s rest)) /\
  py_int (bs "+5") = Some 5 /\
  py_int (bs "1_0") = Some 10 /\
  py_int (bs " 5 ") = Some 5 /\
  (forall (s : parser) (tag : byte) (rest : bytes) (z : Z),
      idle s -> tag = x3a \/ tag = x28 -> fits z = true ->
      buf s = tag :: render_int z ++ crlf ++ rest ->
      parse_one s = (Returned (VInt z), set_buf s rest)) /\
  (forall (s : parser) (tag : byte) (rest : bytes) (z : Z),
      idle s -> tag = x3a \/ tag = x28 -> fits z = false ->
      buf s = tag :: render_int z ++ crlf ++ rest ->
      parse_one s =
      (Raised (Protocol (protocolError
                           (Msg_exception (ValueError_int (render_int z))))),
       set_err (set_buf s rest)
               (Some (protocolError
                        (Msg_exception (ValueError_int (render_int z))))))).
Proof.
  split; [|split; [|split; [|split; [|split]]]]; try reflexivity.
  - intros s tag tok rest z Hi Ht Hn Hz Hb.
    apply parse_one_int with (tag := tag) (tok := tok); assumption.
  - intros s tag rest z Hi Ht Hf Hb.
    destruct (py_int_render z) as [Hz Hn].
    apply parse_one_int with (tag := tag) (tok := render_int z); auto.
  - intros s tag rest z Hi Ht Hf Hb.
    assert (Hz : py_int (render_int z) = None)
      by (now rewrite py_int_rendered, Hf).
    apply (parse_one_bad_int s tag (render_int z) rest Hi); auto.
    + destruct Ht as [->| ->]; cbn; auto 10.
    + apply py_int_render.
Qed.

End Claims.

(** ** The claims on concrete replies *)

Section Examples.

Import Demo.

Lemma idle_fed (data : bytes) : idle (feed fresh data).
Proof. repeat split. Qed.

(** C1, on the code.  The reply [+OK\r\n] fed whole is returned.  Fed
    as [+OK\r] and then [\n], it is not: after the second piece all five
    bytes are buffered and [parse_one] still returns the sentinel, and
    goes on doing so, the state being unchanged by the call.  [waitany],
    called by [readline] with the cursor behind the tag, waits for the
    buffer to grow by two bytes, not one
    ([readline_sleeps_through_one_byte]). *)
Theorem split_terminator_withholds_reply :
  fst (feed_each fresh [bs "+OK" ++ crlf]) = [Returned (VBytes (bs "OK"))] /\
  fst (feed_each fresh [bs "+OK" ++ [CR]; [LF]]) =
    [NotEnoughData; NotEnoughData] /\
  buf (snd (feed_each fresh [bs "+OK" ++ [CR]; [LF]])) = bs "+OK" ++ crlf /\
  parse_one (snd (feed_each fresh [bs "+OK" ++ [CR]; [LF]])) =
    (NotEnoughData, snd (feed_each fresh [bs "+OK" ++ [CR]; [LF]])) /\
  fst (feed_each fresh [bs "+OK" ++ [CR]; [LF]; bs "+"]) =
    [NotEnoughData; NotEnoughData; Returned (VBytes (bs "OK"))].
Proof. repeat split; vm_compute; reflexivity. Qed.

(** The array parser on the same children, for comparison. *)
Example array_of_one_integer :
  parse_one (feed fresh (bs "*1" ++ crlf ++ bs ":1" ++ crlf)) =
  (Returned (VList [VInt 1]), fresh).
Proof. reflexivity. Qed.

Lemma set_reply_with_children_raises_witness :
  parse_one (feed fresh (bs "~1" ++ crlf ++ bs ":1" ++ crlf)) =
  (Raised (Bare TypeError_not_iterable),
   set_buf (feed fresh (bs "~1" ++ crlf ++ bs ":1" ++ crlf)) (bs ":1" ++ crlf)).
Proof.
  destruct (set_reply_with_children_raises
              (feed fresh (bs "~1" ++ crlf ++ bs ":1" ++ crlf))
              (bs "1") (bs ":1" ++ crlf) 1
              (idle_fed _) eq_refl eq_refl eq_refl) as (A & _).
  exact (A eq_refl).
Defined.

Lemma protocol_error_is_sticky_witness :
  parse_one (feed fresh (bs "!bad" ++ crlf)) =
    (Raised (Protocol (Msg_protocol_error (bs "!"))),
     snd (parse_one (feed fresh (bs "!bad" ++ crlf)))) /\
  Forall (fun o => o = Raised (Protocol (Msg_protocol_error (bs "!"))))
    (fst (run (snd (parse_one (feed fresh (bs "!bad" ++ crlf))))
              [Parse_one; Feed (bs "+OK" ++ crlf); Parse_one])) /\
  buf (snd (run (snd (parse_one (feed fresh (bs "!bad" ++ crlf))))
                [Parse_one; Feed (bs "+OK" ++ crlf); Parse_one])) =
    buf (snd (parse_one (feed fresh (bs "!bad" ++ crlf)))) ++ bs "+OK" ++ crlf.
Proof.
  assert (Hr : parse_one (feed fresh (bs "!bad" ++ crlf)) =
               (Raised (Protocol (Msg_protocol_error (bs "!"))),
                snd (parse_one (feed fresh (bs "!bad" ++ crlf)))))
    by reflexivity.
  split; [exact Hr|].
  destruct (protocol_error_is_sticky _ _ _
              [Parse_one; Feed (bs "+OK" ++ crlf); Parse_one] Hr)
    as (_ & A & _ & _ & B & _).
  split; [exact A|exact B].
Defined.

Lemma wire_violations_raise_protocol_error_witness :
  fst (parse_one (feed fresh (bs "!bad" ++ crlf))) =
    Raised (Protocol (Msg_protocol_error (bs "!"))) /\
  fst (parse_one (feed fresh (bs "$abc" ++ crlf))) =
    Raised (Protocol (Msg_exception (ValueError_int (bs "abc")))) /\
  fst (parse_one (feed fresh (bs ":1x" ++ crlf))) =
    Raised (Protocol (Msg_exception (ValueError_int (bs "1x")))) /\
  fst (parse_one (feed fresh (bs ",abc" ++ crlf))) =
    Raised (Protocol (Msg_exception (ValueError_float (bs "abc")))) /\
  fst (parse_one (feed fresh (bs "$3" ++ crlf ++ bs "fooXY"))) =
    Raised (Protocol Msg_expected_crlf).
Proof.
  split; [|split; [|split; [|split]]].
  - destruct (wire_violations_raise_protocol_error
                (feed fresh (bs "!bad" ++ crlf)) (bs "bad" ++ crlf)
                (idle_fed _)) as (A & _).
    rewrite (A "!"%byte eq_refl eq_refl). reflexivity.
  - destruct (wire_violations_raise_protocol_error
                (feed fresh (bs "$abc" ++ crlf)) []
                (idle_fed _)) as (_ & A & _).
    rewrite (A "$"%byte (bs "abc") (or_introl eq_refl) eq_refl eq_refl eq_refl).
    reflexivity.
  - destruct (wire_violations_raise_protocol_error
                (feed fresh (bs ":1x" ++ crlf)) []
                (idle_fed _)) as (_ & _ & A & _).
    rewrite (A ":"%byte (bs "1x") (or_introl eq_refl) eq_refl eq_refl eq_refl).
    reflexivity.
  - destruct (wire_violations_raise_protocol_error
                (feed fresh (bs ",abc" ++ crlf)) []
                (idle_fed _)) as (_ & _ & _ & A & _).
    rewrite (A (bs "abc") eq_refl eq_refl eq_refl). reflexivity.
  - destruct (wire_violations_raise_protocol_error
                (feed fresh (bs "$3" ++ crlf ++ bs "fooXY")) (bs "fooXY")
                (idle_fed _)) as (_ & _ & _ & _ & A & _).
    rewrite (A "$"%byte (bs "3") (bs "foo") (bs "XY") []
               (or_introl eq_refl) eq_refl eq_refl eq_refl
               ltac:(discriminate) eq_refl eq_refl).
    reflexivity.
Defined.



(** C6 as stated fails for an aggregate with a child still to come: the
    array [*2\r\n+a\r\n] is suspended before its second child, the
    encoding is set, and the child [+b\r\n] comes out as text where the
    table in effect when the array started gives bytes. *)
Lemma set_encoding_reaches_pending_children :
  ~ (forall (ops : list op) (val : option string) (data : bytes),
        gen (snd (run fresh ops)) <> None ->
        fst (parse_one (feed (set_encoding (snd (run fresh ops)) val) data)) =
        fst (parse_one (feed (snd (run fresh ops)) data))).
Proof.
  intros Hc.
  specialize (Hc [Feed (bs "*2" ++ crlf ++ bs "+a" ++ crlf); Parse_one]
                 (Some "utf8"%string) (bs "+b" ++ crlf)).
  assert (Hg : gen (snd (run fresh [Feed (bs "*2" ++ crlf ++ bs "+a" ++ crlf);
                                     Parse_one])) <> None)
    by (vm_compute; discriminate).
  specialize (Hc Hg). vm_compute in Hc. discriminate Hc.
Qed.

Lemma set_encoding_acts_at_dispatch_witness :
  parse_one (set_encoding (snd (parse_one (feed fresh (bs "+O")))) (Some "utf8"%string)) =
    (NotEnoughData,
     set_encoding (snd (parse_one (feed fresh (bs "+O")))) (Some "utf8"%string)) /\
  fst (parse_one
         (feed (set_encoding
                  (snd (parse_one (feed fresh (bs "*2" ++ crlf ++ bs "+a" ++ crlf))))
                  (Some "utf8"%string))
               (bs "+b" ++ crlf))) =
    Returned (VList [VBytes (bs "a"); VStr (map Byte.to_N (bs "b"))]) /\
  fst (parse_one
         (set_encoding
            (feed (snd (parse_one
                          (feed fresh (bs "*1" ++ crlf ++ bs "*2" ++ crlf
                                         ++ bs "+a" ++ crlf))))
                  (bs "$1" ++ crlf ++ bs "b" ++ crlf))
            (Some "utf8"%string))) =
    Returned (VList [VList [VBytes (bs "a"); VStr (map Byte.to_N (bs "b"))]]) /\
  fst (parse_one
         (set_encoding
            (feed (snd (parse_one
                          (feed fresh (bs "*1" ++ crlf ++ bs "*2" ++ crlf
                                         ++ bs "$3" ++ crlf ++ bs "a"))))
                  (bs "bc" ++ crlf ++ bs "+d" ++ crlf))
            (Some "utf8"%string))) =
    Returned (VList [VList [VBytes (bs "abc"); VStr (map Byte.to_N (bs "d"))]]).
Proof.
  split; [|split; [|split]].
  - destruct (set_encoding_acts_at_dispatch
                (snd (parse_one (feed fresh (bs "+O")))))
      as (_ & _ & A & _).
    rewrite (A P_single (Header 3) (Some "utf8"%string) eq_refl eq_refl).
    reflexivity.
  - destruct (set_encoding_acts_at_dispatch
                (snd (parse_one (feed fresh (bs "*2" ++ crlf ++ bs "+a" ++ crlf)))))
      as (_ & _ & _ & _ & _ & A).
    exact (f_equal fst
             (A "utf8"%string [VBytes (bs "a")] (bs "b") [] (map Byte.to_N (bs "b"))
                eq_refl eq_refl eq_refl eq_refl eq_refl)).
  - destruct (set_encoding_acts_at_dispatch
                (feed (snd (parse_one
                              (feed fresh (bs "*1" ++ crlf ++ bs "*2" ++ crlf
                                             ++ bs "+a" ++ crlf))))
                      (bs "$1" ++ crlf ++ bs "b" ++ crlf)))
      as (_ & _ & _ & A & _).
    assert (Hp : tag_pending
                   (feed (snd (parse_one
                                 (feed fresh (bs "*1" ++ crlf ++ bs "*2" ++ crlf
                                                ++ bs "+a" ++ crlf))))
                         (bs "$1" ++ crlf ++ bs "b" ++ crlf))
                   [A_list 0 [VBytes (bs "a")]; A_list 0 []]).
    { vm_compute. split; [reflexivity|]. split; [reflexivity|].
      split; [reflexivity|]. exists 1. split; [reflexivity|].
      vm_compute. discriminate. }
    destruct (A [A_list 0 [VBytes (bs "a")]; A_list 0 []]
                (Some "utf8"%string) (bs "1") [] Hp eq_refl) as (_ & B & _).
    etransitivity;
      [exact (f_equal fst (B (bs "b") eq_refl ltac:(vm_compute; reflexivity)))|].
    vm_compute. reflexivity.
  - destruct (set_encoding_acts_at_dispatch
                (feed (snd (parse_one
                              (feed fresh (bs "*1" ++ crlf ++ bs "*2" ++ crlf
                                             ++ bs "$3" ++ crlf ++ bs "a"))))
                      (bs "bc" ++ crlf ++ bs "+d" ++ crlf)))
      as (_ & A & _).
    destruct (A P_bulk (Payload 3 5) [A_list 1 []; A_list 0 []]
                (Some "utf8"%string) ltac:(vm_compute; reflexivity) eq_refl)
      as (_ & _ & B).
    etransitivity; [exact (f_equal fst B)|]. vm_compute. reflexivity.
Defined.

(** C7 as stated fails under an encoding when the codec refuses the
    payload: the one byte [ff] is not UTF-8, the policy is [strict] by
    default, and [parse_one] raises the codec's exception where the
    claim has it return the decoded text. *)
Lemma undecodable_bulk_string_raises :
  ~ (forall payload : bytes, exists t : text,
        fst (parse_one
               (feed (init (Some "utf8"%string) None)
                     (x24 :: render_int (len payload) ++ crlf
                          ++ payload ++ crlf))) =
        Returned (VStr t)).
Proof.
  intros Hc. destruct (Hc [xff]) as [t Ht].
  vm_compute in Ht. discriminate Ht.
Qed.

Lemma bulk_string_reply_witness :
  parse_one (feed fresh (bs "$5" ++ crlf ++ bs "hello" ++ crlf)) =
    (Returned (VBytes (bs "hello")), fresh) /\
  parse_one (feed fresh (bs "$-1" ++ crlf)) = (Returned VNone, fresh) /\
  feed_each fresh [bs "$5" ++ crlf ++ bs "hel"; bs "lo" ++ crlf] =
    ([NotEnoughData; Returned (VBytes (bs "hello"))], fresh) /\
  feed_each fresh [bs "$5" ++ crlf; bs "he"; bs "llo" ++ [CR]; [LF]] =
    ([NotEnoughData; NotEnoughData; NotEnoughData; Returned (VBytes (bs "hello"))],
     fresh).
Proof.
  split; [|split; [|split]].
  - destruct (bulk_string_reply
                (feed fresh (bs "$5" ++ crlf ++ bs "hello" ++ crlf))
                (bs "5") (bs "hello") [] (idle_fed _) eq_refl) as (A & _).
    exact (A eq_refl eq_refl).
  - destruct (bulk_string_reply
                (feed fresh (bs "$-1" ++ crlf))
                (bs "-1") [] [] (idle_fed _) eq_refl) as (_ & A & _).
    exact (A eq_refl eq_refl).
  - destruct (bulk_string_reply fresh (bs "5") (bs "hello") []
                (idle_fed []) eq_refl) as (_ & _ & A).
    exact (A eq_refl eq_refl (bs "hel") (bs "lo" ++ crlf) [] eq_refl eq_refl).
  - destruct (bulk_string_reply fresh (bs "5") (bs "hello") []
                (idle_fed []) eq_refl) as (_ & _ & A).
    exact (A eq_refl eq_refl [] [LF] [bs "he"; bs "llo" ++ [CR]] eq_refl eq_refl).
Defined.

Lemma cursor_stays_in_buffer_witness :
  0 <= pos (snd (run (init None None)
                   [Feed (bs "*2" ++ crlf ++ bs ":1"); Parse_one;
                    Feed (crlf ++ bs "!"); Parse_one; Parse_one]))
    <= len (buf (snd (run (init None None)
                   [Feed (bs "*2" ++ crlf ++ bs ":1"); Parse_one;
                    Feed (crlf ++ bs "!"); Parse_one; Parse_one]))).
Proof.
  destruct (@cursor_stays_in_buffer host) as (A & _).
  exact (A None None
           [Feed (bs "*2" ++ crlf ++ bs ":1"); Parse_one;
            Feed (crlf ++ bs "!"); Parse_one; Parse_one]).
Defined.

Lemma verbatim_without_colon_raises_bare_witness :
  parse_one (feed fresh (bs "=5" ++ crlf ++ bs "abcde" ++ crlf ++ bs ":1" ++ crlf)) =
    (Raised (Bare ValueError_unpack), feed fresh (bs ":1" ++ crlf)) /\
  parse_one (feed fresh (bs ":1" ++ crlf)) = (Returned (VInt 1), fresh).
Proof.
  destruct (verbatim_without_colon_raises_bare
              (feed fresh (bs "=5" ++ crlf ++ bs "abcde" ++ crlf ++ bs ":1" ++ crlf))
              (bs "5") (bs "abcde") (bs ":1" ++ crlf)
              (idle_fed _) eq_refl eq_refl eq_refl eq_refl) as (A & _ & _ & B).
  split.
  - exact A.
  - etransitivity; [exact B|]. reflexivity.
Defined.

(** C10 as stated fails at the interpreter's limit on the digits of one
    conversion: for [1] followed by 4300 zeros [int] raises
    [ValueError], and the reply is the protocol error, not the
    integer. *)
Lemma integer_beyond_digit_limit_is_refused :
  ~ (forall n : nat,
        fst (parse_one (feed fresh (x3a :: x31 :: repeat x30 n ++ crlf))) =
        Returned (VInt (10 ^ Z.of_nat n))).
Proof.
  intros Hc. specialize (Hc (Z.to_nat 4300)).
  assert (E : match fst (parse_one
                           (feed fresh (x3a :: x31 :: repeat x30 (Z.to_nat 4300)
                                          ++ crlf))) with
              | Returned _ => False
              | _ => True
              end) by (vm_compute; exact I).
  rewrite Hc in E. exact E.
Qed.

Lemma integer_parser_takes_host_literals_witness :
  parse_one (feed fresh (bs ":+5" ++ crlf)) = (Returned (VInt 5), fresh) /\
  parse_one (feed fresh (bs ":1_0" ++ crlf)) = (Returned (VInt 10), fresh) /\
  parse_one (feed fresh (bs "(" ++ render_int (2 ^ 70) ++ crlf)) =
    (Returned (VInt (2 ^ 70)), fresh).
Proof.
  destruct (@integer_parser_takes_host_literals host) as (A & _ & _ & _ & B & _).
  split; [|split].
  - exact (A (feed fresh (bs ":+5" ++ crlf)) ":"%byte (bs "+5") [] 5
             (idle_fed _) (or_introl eq_refl) eq_refl eq_refl eq_refl).
  - exact (A (feed fresh (bs ":1_0" ++ crlf)) ":"%byte (bs "1_0") [] 10
             (idle_fed _) (or_introl eq_refl) eq_refl eq_refl eq_refl).
  - exact (B (feed fresh (bs "(" ++ render_int (2 ^ 70) ++ crlf)) "("%byte [] (2 ^ 70)
             (idle_fed _) (or_intror eq_refl) eq_refl eq_refl).
Defined.

End Examples.

(** * Further properties of the parser *)

(** ** Scalar replies *)

Section Scalars.

Context {H : Host}.

(** X1: [readbool].  A boolean reply is true exactly when its line is
    [t]; every other line, [f] or not, is false, and nothing is
    raised. *)
Theorem boolean_reply_is_permissive (s : parser) (tok rest : bytes) :
  idle s -> index_crlf tok = None ->
  buf s = x23 :: tok ++ crlf ++ rest ->
  (tok = bs "t" -> parse_one s = (Returned (VBool true), set_buf s rest)) /\
  (tok <> bs "t" -> parse_one s = (Returned (VBool false), set_buf s rest)).
Proof.
  intros Hi Hn Hb.
  assert (Hr : parse_one s =
               (Returned (VBool (bytes_eqb tok (bs "t"))), set_buf s rest)).
  { assert (Hl : lookup (protocols s) [x23] = Some P_bool)
      by (destruct (protocols s); reflexivity).
    rewrite (parse_one_tag s _ _ _ Hi Hb Hl). destruct Hi as (Hg & He & Hp).
    cbn [call header_of]. unfold _parse_bool, readbool.
    rewrite (header_line s _ _ _ Hp Hb Hn).
    cbn [bind within returning send deliver]. f_equal. same_state s. }
  split; intros Ht; rewrite Hr.
  - subst tok. reflexivity.
  - rewrite (bytes_eqb_neq _ _ Ht). reflexivity.
Qed.

(** X2: [_parse_null].  After [_] the line is read and thrown away: the
    reply is null whatever the line holds. *)
Theorem null_reply_discards_its_line (s : parser) (tok rest : bytes) :
  idle s -> index_crlf tok = None ->
  buf s = x5f :: tok ++ crlf ++ rest ->
  parse_one s = (Returned VNone, set_buf s rest).
Proof.
  intros Hi Hn Hb.
  assert (Hl : lookup (protocols s) [x5f] = Some P_null)
    by (destruct (protocols s); reflexivity).
  rewrite (parse_one_tag s _ _ _ Hi Hb Hl). destruct Hi as (Hg & He & Hp).
  cbn [call header_of]. unfold _parse_null.
  rewrite (header_line s _ _ _ Hp Hb Hn).
  cbn [bind within returning send deliver]. f_equal. same_state s.
Qed.

Lemma parse_one_simple (s : parser) (tok rest : bytes) :
  idle s -> index_crlf tok = None ->
  buf s = x2b :: tok ++ crlf ++ rest ->
  parse_one s = (bulk_outcome s tok, set_buf s rest).
Proof.
  intros Hi Hn Hb. unfold bulk_outcome, decoded.
  destruct (protocols s) eqn:Ht.
  - assert (Hl : lookup (protocols s) [x2b] = Some P_single)
      by (rewrite Ht; reflexivity).
    rewrite (parse_one_tag s _ _ _ Hi Hb Hl). destruct Hi as (Hg & He & Hp).
    cbn [call header_of]. unfold _parse_single.
    rewrite (header_line s _ _ _ Hp Hb Hn).
    cbn [bind within returning send deliver]. f_equal. same_state s.
  - assert (Hl : lookup (protocols s) [x2b] = Some P_single_decode)
      by (rewrite Ht; reflexivity).
    rewrite (parse_one_tag s _ _ _ Hi Hb Hl). destruct Hi as (Hg & He & Hp).
    cbn [call header_of]. unfold _parse_single_decode, _parse_single.
    rewrite (header_line s _ _ _ Hp Hb Hn). cbn [bind within].
    unfold _maybe_decode.
    change (encoding (set_buf s rest)) with (encoding s).
    change (encoding_errors (set_buf s rest)) with (encoding_errors s).
    destruct (encoding s) as [enc|].
    + destruct (decode enc (encoding_errors s) tok);
        cbn [bind within returning opt_value send deliver]; f_equal;
        same_state s.
    + cbn [bind within returning opt_value send deliver]. f_equal.
      same_state s.
Qed.

(** X3: [__init__], [_parse_single], [_parse_single_decode].  A parser
    made without an encoding, or with the empty string for one, returns
    a simple string as the bytes of its line.  Made with a non-empty
    encoding it returns what the codec gives for the line under the
    error policy, [strict] when none or an empty one was passed; the
    codec's exception comes out as it is, with the line consumed. *)
Theorem simple_string_reply (enc errors : option string) (tok rest : bytes) :
  index_crlf tok = None ->
  parse_one (feed (init enc errors) (x2b :: tok ++ crlf ++ rest)) =
  (match truthy enc with
   | None => Returned (VBytes tok)
   | Some e =>
       match decode e (match truthy errors with
                       | Some p => p
                       | None => "strict"%string
                       end) tok with
       | inl t => Returned (VStr t)
       | inr x => Raised (Bare x)
       end
   end,
   set_buf (init enc errors) rest).
Proof.
  intros Hn.
  assert (Hi : idle (feed (init enc errors) (x2b :: tok ++ crlf ++ rest)))
    by (repeat split).
  rewrite (parse_one_simple _ tok rest Hi Hn eq_refl).
  unfold bulk_outcome, decoded. cbn [feed set_buf init protocols encoding
    encoding_errors buf pos err gen].
  destruct enc as [[|c e]|]; reflexivity.
Qed.

(** X4: [readfloat], [_parse_float].  After [,] a line the host's
    [float] converts is returned as that float. *)
Theorem double_reply (s : parser) (tok rest : bytes) (f : pyfloat) :
  idle s -> index_crlf tok = None -> float_of_bytes tok = Some f ->
  buf s = x2c :: tok ++ crlf ++ rest ->
  parse_one s = (Returned (VFloat f), set_buf s rest).
Proof.
  intros Hi Hn Hf Hb.
  assert (Hl : lookup (protocols s) [x2c] = Some P_float)
    by (destruct (protocols s); reflexivity).
  rewrite (parse_one_tag s _ _ _ Hi Hb Hl). destruct Hi as (Hg & He & Hp).
  cbn [call header_of]. unfold _parse_float, readfloat.
  rewrite (header_line s _ _ _ Hp Hb Hn). cbn [bind]. rewrite Hf.
  cbn [bind within returning send deliver]. f_equal. same_state s.
Qed.

End Scalars.

(** ** Verbatim strings and declared lengths *)

Section Lengths.

Context {H : Host}.

Lemma parse_one_verbatim (s : parser) (tok payload typ val rest : bytes) :
  idle s -> index_crlf tok = None -> py_int tok = Some (len payload) ->
  split_colon payload = Some (typ, val) ->
  buf s = x3d :: tok ++ crlf ++ payload ++ crlf ++ rest ->
  parse_one s = (bulk_outcome s val, set_buf s rest).
Proof.
  intros Hi Hn Hz Hc Hb. unfold bulk_outcome, decoded.
  destruct (protocols s) eqn:Ht.
  - assert (Hl : lookup (protocols s) [x3d] = Some P_verbatim)
      by (rewrite Ht; reflexivity).
    rewrite (parse_one_tag s _ _ _ Hi Hb Hl). destruct Hi as (Hg & He & Hp).
    cbn [call header_of]. unfold _parse_verbatim, readint. cbn [header_of].
    rewrite (header_line s _ _ _ Hp Hb Hn). cbn [bind within]. rewrite Hz.
    cbn [bind within]. rewrite len_not_minus_one.
    rewrite (readline_size_payload (set_buf s (payload ++ crlf ++ rest))
               payload rest None eq_refl Hp I).
    cbn [bind within]. rewrite Hc.
    cbn [bind within returning opt_value send deliver]. f_equal. same_state s.
  - assert (Hl : lookup (protocols s) [x3d] = Some P_verbatim_decode)
      by (rewrite Ht; reflexivity).
    rewrite (parse_one_tag s _ _ _ Hi Hb Hl). destruct Hi as (Hg & He & Hp).
    cbn [call header_of]. unfold _parse_verbatim_decode, _parse_verbatim, readint.
    cbn [header_of].
    rewrite (header_line s _ _ _ Hp Hb Hn). cbn [bind within]. rewrite Hz.
    cbn [bind within]. rewrite len_not_minus_one.
    rewrite (readline_size_payload (set_buf s (payload ++ crlf ++ rest))
               payload rest None eq_refl Hp I).
    cbn [bind within]. rewrite Hc. cbn [bind within]. unfold _maybe_decode.
    change (encoding (set_buf (set_pos (set_buf s (payload ++ crlf ++ rest)) 0) rest))
      with (encoding s).
    change (encoding_errors (set_buf (set_pos (set_buf s (payload ++ crlf ++ rest)) 0) rest))
      with (encoding_errors s).
    destruct (encoding s) as [enc|].
    + destruct (decode enc (encoding_errors s) val);
        cbn [bind within returning opt_value send deliver]; f_equal;
        same_state s.
    + cbn [bind within returning opt_value send deliver]. f_equal.
      same_state s.
Qed.

(** X5: [_parse_verbatim], [_parse_verbatim_decode].  A verbatim string
    is cut at its first colon and what follows the colon is returned, as
    bytes or decoded: the part before the colon may have any length, not
    only the three bytes of a format, and later colons stay in the
    value. *)
Theorem verbatim_reply_drops_prefix
        (s : parser) (tok typ val rest : bytes) :
  idle s -> index_crlf tok = None ->
  Forall (fun c => c <> x3a) typ ->
  py_int tok = Some (len (typ ++ x3a :: val)) ->
  buf s = x3d :: tok ++ crlf ++ (typ ++ x3a :: val) ++ crlf ++ rest ->
  parse_one s = (bulk_outcome s val, set_buf s rest).
Proof.
  intros Hi Hn Hc Hz Hb.
  apply parse_one_verbatim
    with (tok := tok) (payload := typ ++ x3a :: val) (typ := typ); auto.
  apply split_colon_first, Hc.
Qed.

(** X6: [_parse_mutibulk], [_parse_vector], [_parse_dict], [_parse_set].
    A declared length that is zero or negative, other than [-1], is not
    an error and is not null: [range] of it is empty, and the reply is
    the empty list, dict or set, with nothing read after the length. *)
Theorem aggregate_with_nonpositive_length
        (s : parser) (tok rest : bytes) (n : Z) :
  idle s -> index_crlf tok = None -> py_int tok = Some n ->
  n <= 0 -> n <> -1 ->
  (buf s = x2a :: tok ++ crlf ++ rest ->
   parse_one s = (Returned (VList []), set_buf s rest)) /\
  (buf s = x3e :: tok ++ crlf ++ rest ->
   parse_one s = (Returned (VList []), set_buf s rest)) /\
  (buf s = x25 :: tok ++ crlf ++ rest ->
   parse_one s = (Returned (VDict []), set_buf s rest)) /\
  (buf s = x7e :: tok ++ crlf ++ rest ->
   parse_one s = (Returned (VSet []), set_buf s rest)).
Proof.
  intros Hi Hn Hz Hle Hne.
  assert (E1 : (n =? -1) = false) by (destruct (Z.eqb_spec n (-1)); congruence).
  assert (E2 : (0 <? n) = false) by (destruct (Z.ltb_spec 0 n); lia).
  split; [|split; [|split]]; intros Hb.
  - assert (Hl : lookup (protocols s) [x2a] = Some P_mutibulk)
      by (destruct (protocols s); reflexivity).
    rewrite (parse_one_tag s _ _ _ Hi Hb Hl). destruct Hi as (Hg & He & Hp).
    cbn [call header_of]. unfold _parse_mutibulk, readint.
    rewrite (header_line s _ _ _ Hp Hb Hn). cbn [bind within]. rewrite Hz.
    cbn [bind within]. rewrite E1, E2.
    cbn [bind within send deliver]. f_equal. same_state s.
  - assert (Hl : lookup (protocols s) [x3e] = Some P_vector)
      by (destruct (protocols s); reflexivity).
    rewrite (parse_one_tag s _ _ _ Hi Hb Hl). destruct Hi as (Hg & He & Hp).
    cbn [call header_of]. unfold _parse_vector, _parse_mutibulk, readint.
    rewrite (header_line s _ _ _ Hp Hb Hn). cbn [bind within]. rewrite Hz.
    cbn [bind within]. rewrite E1, E2.
    cbn [bind within send deliver]. f_equal. same_state s.
  - assert (Hl : lookup (protocols s) [x25] = Some P_dict)
      by (destruct (protocols s); reflexivity).
    rewrite (parse_one_tag s _ _ _ Hi Hb Hl). destruct Hi as (Hg & He & Hp).
    cbn [call header_of]. unfold _parse_dict, readint.
    rewrite (header_line s _ _ _ Hp Hb Hn). cbn [bind within]. rewrite Hz.
    cbn [bind within]. rewrite E1, E2.
    cbn [bind within send deliver]. f_equal. same_state s.
  - rewrite (parse_one_set s tok rest n Hi Hn Hz Hb), E1, E2. reflexivity.
Qed.

Lemma slice_minus_two (v : bytes) : slice v (-2) (-2 + 2) = [].
Proof.
  unfold slice. pose proof (len_nonneg v).
  replace (clip (len v) (-2 + 2)) with 0
    by (unfold clip; cbn; lia).
  pose proof (clip_range (len v) (-2) H0).
  replace (Z.to_nat (0 - clip (len v) (-2))) with 0%nat by lia.
  reflexivity.
Qed.

(** X7: [_parse_bulk], [_parse_bulk_decode], [readline].  A bulk length
    of [-2] or less never waits for a payload, under either table.
    [readline(size)] then slices with negative bounds, which Python
    counts from the end of the buffer: the reply is taken when the two
    bytes at [size] from the end are the terminator, its payload being
    what comes before them, returned as bytes or decoded as any bulk
    payload is; it is a latched protocol error otherwise, with what
    followed the length line left in the buffer.  For [-2] the slice is
    empty and the protocol error is certain. *)
Theorem bulk_with_negative_length (s : parser) (tok rest : bytes) (n : Z) :
  idle s ->
  index_crlf tok = None -> py_int tok = Some n -> n <= -2 ->
  buf s = x24 :: tok ++ crlf ++ rest ->
  let e := protocolError Msg_expected_crlf in
  parse_one s =
  (if bytes_eqb (slice rest n (n + 2)) crlf
   then (bulk_outcome s (slice rest 0 n),
         set_buf s (del_prefix rest (n + 2)))
   else (Raised (Protocol e), set_err (set_buf s rest) (Some e))) /\
  (n = -2 ->
   parse_one s = (Raised (Protocol e), set_err (set_buf s rest) (Some e))).
Proof.
  intros Hi Hn Hz Hle Hb e.
  assert (Hm : parse_one s =
    (if bytes_eqb (slice rest n (n + 2)) crlf
     then (bulk_outcome s (slice rest 0 n),
           set_buf s (del_prefix rest (n + 2)))
     else (Raised (Protocol e), set_err (set_buf s rest) (Some e)))).
  { assert (Hl : lookup (protocols s) [x24] = Some (bulk_entry s))
      by (unfold bulk_entry; destruct (protocols s); reflexivity).
    rewrite (parse_one_tag s _ _ _ Hi Hb Hl). destruct Hi as (Hg & He & Hp).
    unfold bulk_outcome, bulk_entry, decoded in *.
    destruct (protocols s) eqn:Ht; cbn [call header_of];
      unfold _parse_bulk_decode, _parse_bulk, readint; cbn [header_of];
      rewrite (header_line s _ _ _ Hp Hb Hn); cbn [bind within]; rewrite Hz;
      cbn [bind within];
      (destruct (Z.eqb_spec n (-1)); [lia|]);
      unfold readline_size; cbn [set_buf buf pos]; rewrite Hp;
      pose proof (len_nonneg rest);
      (destruct (Z.ltb_spec (len rest) (n + 2 + 0)); [lia|]);
      cbn [bind set_buf buf pos]; rewrite Hp;
      change (0 + n) with n;
      destruct (bytes_eqb (slice rest n (n + 2)) crlf).
    - unfold take_line. cbn [set_buf set_pos buf pos]. rewrite Hp.
      cbn [bind within returning opt_value send deliver]. f_equal.
      same_state s.
    - cbn [raise_error error bind within returning send]. f_equal.
      same_state s.
    - unfold take_line. cbn [set_buf set_pos buf pos]. rewrite Hp.
      cbn [bind within]. unfold _maybe_decode.
      cbn [encoding encoding_errors set_buf set_pos].
      destruct (encoding s) as [enc|];
        [destruct (decode enc (encoding_errors s) (slice rest 0 n))|];
        cbn [bind within returning opt_value send deliver]; f_equal;
        same_state s.
    - cbn [raise_error error bind within returning send]. f_equal.
      same_state s. }
  split; [exact Hm|].
  intros ->. rewrite Hm, slice_minus_two. reflexivity.
Qed.

(** X8: the [encoding] setter, [_maybe_decode].  Assigning [None] to the
    encoding still switches to the decoding parsers, which then call
    [decode(None, ...)]: every simple string and every bulk string with
    a payload raises the host's [TypeError], with the frame consumed and
    no error stored, while the null bulk string is still returned. *)
Theorem encoding_set_to_none_raises (s : parser) (tok payload rest : bytes) :
  idle s -> index_crlf tok = None ->
  (buf s = x2b :: tok ++ crlf ++ rest ->
   parse_one (set_encoding s None) =
   (Raised (Bare TypeError_encoding_none),
    set_encoding (set_buf s rest) None)) /\
  (py_int tok = Some (len payload) ->
   buf s = x24 :: tok ++ crlf ++ payload ++ crlf ++ rest ->
   parse_one (set_encoding s None) =
   (Raised (Bare TypeError_encoding_none),
    set_encoding (set_buf s rest) None)) /\
  (py_int tok = Some (-1) ->
   buf s = x24 :: tok ++ crlf ++ rest ->
   parse_one (set_encoding s None) =
   (Returned VNone, set_encoding (set_buf s rest) None)).
Proof.
  intros Hi Hn.
  assert (Hi' : idle (set_encoding s None)) by exact Hi.
  split; [|split].
  - intros Hb.
    rewrite (parse_one_simple (set_encoding s None) tok rest Hi' Hn Hb).
    reflexivity.
  - intros Hz Hb.
    rewrite (parse_one_bulk (set_encoding s None) tok payload rest Hi' Hn Hz Hb).
    reflexivity.
  - intros Hz Hb.
    rewrite (parse_one_bulk_null (set_encoding s None) tok rest Hi' Hn Hz Hb).
    reflexivity.
Qed.

End Lengths.

(** ** What a call of [parse_one] leaves behind *)

Section Calls.

Context {H : Host}.

(** *** The stored generator is not read by the generator chain *)

Ltac gen_cases :=
  repeat (cbn [bind on_state buf pos err set_gen raise_error error];
          match goal with
          | |- context [if ?c then _ else _] => destruct c
          end);
  cbn [bind on_state buf pos err set_gen raise_error error].

Lemma readone_set_gen (resume : option Z) (s : parser) (g : option generator) :
  readone resume (set_gen s g) =
  on_state (fun x => set_gen x g) (readone resume s).
Proof.
  unfold readone, waitany, waitsome. cbn [set_gen buf pos].
  destruct resume; [|destruct (slice _ _ _)]; gen_cases; reflexivity.
Qed.

Lemma readline_set_gen (resume : option Z) (s : parser) (g : option generator) :
  readline resume (set_gen s g) =
  on_state (fun x => set_gen x g) (readline resume s).
Proof.
  unfold readline, readline_scan, waitany, waitsome, take_line.
  cbn [set_gen buf pos]. destruct resume; gen_cases; reflexivity.
Qed.

Lemma readline_size_set_gen (size : Z) (resume : option Z) (s : parser)
      (g : option generator) :
  readline_size size resume (set_gen s g) =
  on_state (fun x => set_gen x g) (readline_size size resume s).
Proof.
  unfold readline_size, waitsome, take_line.
  cbn [set_gen buf pos]. destruct resume; gen_cases; reflexivity.
Qed.

Lemma call_set_gen (p : proto) (at_ : option point) (s : parser)
      (g : option generator) :
  call p at_ (set_gen s g) = on_state (fun x => set_gen x g) (call p at_ s).
Proof.
  destruct p; cbn [call];
    unfold returning, _parse_error, _parse_single_decode, _parse_single,
      _parse_int, _parse_float, _parse_bool, _parse_null,
      _parse_bulk_decode, _parse_bulk, _parse_verbatim_decode,
      _parse_verbatim, _parse_vector, _parse_mutibulk, _parse_set,
      _parse_dict;
    unfold readint, readfloat, readbool, _maybe_decode;
    destruct at_ as [[w|length w]|]; cbn [header_of];
    rewrite ?readline_set_gen, ?readline_size_set_gen, ?on_state_within;
    repeat (rewrite on_state_bind; [|intros]);
    try reflexivity;
    repeat first
      [ reflexivity
      | rewrite readline_size_set_gen
      | rewrite on_state_within
      | rewrite on_state_bind; [|intros]
      | progress cbn [set_gen encoding encoding_errors]
      | match goal with
        | |- context [match ?x with _ => _ end] => destruct x
        end ].
Qed.

Lemma parse_set_gen (at_ : option frame) (s : parser) (g : option generator) :
  parse at_ (set_gen s g) = on_state (fun x => set_gen x g) (parse at_ s).
Proof.
  assert (Hd : forall ctl s, dispatch ctl (set_gen s g) =
                             on_state (fun x => set_gen x g) (dispatch ctl s)).
  { intros ctl s0. unfold dispatch. cbn [set_gen protocols].
    destruct (lookup _ _); [|reflexivity].
    rewrite call_set_gen, on_state_within. reflexivity. }
  unfold parse. destruct at_ as [[w|p pt]|].
  - rewrite readone_set_gen, on_state_within. apply on_state_bind, Hd.
  - rewrite call_set_gen, on_state_within. reflexivity.
  - cbn [set_gen err]. destruct (err s); [reflexivity|].
    rewrite readone_set_gen, on_state_within. apply on_state_bind, Hd.
Qed.

Lemma send_set_gen (n : nat) (r : res frame (value + agg)) (stk : list agg)
      (g : option generator) :
  send n (on_state (fun x => set_gen x g) r) stk = send n r stk.
Proof.
  revert r stk. induction n as [|n IH]; intros r stk;
    destruct r as [[v|a] s|f s|e s|s]; cbn [on_state send]; try reflexivity.
  - destruct (deliver v stk); try reflexivity.
    rewrite parse_set_gen. apply IH.
  - rewrite parse_set_gen. apply IH.
Qed.

(** What [parse_one] does depends on the stored generator only through
    the point it resumes at. *)
Lemma parse_one_resumes (s : parser) (g : generator) :
  parse_one (set_gen s (Some g)) =
  send (S (List.length (buf s))) (parse (Some (fr g)) s) (stack g).
Proof.
  unfold parse_one. cbn [set_gen gen buf].
  rewrite parse_set_gen. apply send_set_gen.
Qed.

(** *** Fuel *)

Lemma send_value (n : nat) (v : value) (s : parser) (stk : list agg) :
  send n (Done (inl v) s) stk =
  match deliver v stk with
  | Finished v' => (Returned v', set_gen s None)
  | Failed e => (Raised e, set_gen s None)
  | Next stk' =>
      match n with
      | O => (Hang, set_gen s None)
      | S k => send k (parse None s) stk'
      end
  end.
Proof. destruct n; reflexivity. Qed.

(** More fuel changes nothing once [send] has come to an end. *)
Lemma send_more_fuel (n : nat) (r : res frame (value + agg)) (stk : list agg) :
  fst (send n r stk) <> Hang -> forall k, send (k + n) r stk = send n r stk.
Proof.
  revert r stk. induction n as [|n IH]; intros r stk Hh k.
  - destruct r as [[v|a] s|f s|e s|s]; cbn [send] in Hh.
    + rewrite !send_value in *. destruct (deliver v stk); auto.
      exfalso. apply Hh. reflexivity.
    + exfalso. apply Hh. reflexivity.
    + destruct (k + 0)%nat; reflexivity.
    + destruct (k + 0)%nat; reflexivity.
    + exfalso. apply Hh. reflexivity.
  - replace (k + S n)%nat with (S (k + n)) by lia.
    destruct r as [[v|a] s|f s|e s|s]; cbn [send] in *; try reflexivity.
    + destruct (deliver v stk); auto.
    + auto.
Qed.

(** On a state the owner can reach, [parse_one] is [send] with any
    larger amount of fuel. *)
Lemma parse_one_with_fuel (s : parser) (k : nat) :
  sound s ->
  parse_one s =
  match gen s with
  | None => send (k + S (List.length (buf s))) (parse None s) []
  | Some g => send (k + S (List.length (buf s))) (parse (Some (fr g)) s) (stack g)
  end.
Proof.
  intros Hs. pose proof (parse_one_returns s Hs) as Hr.
  unfold parse_one in *.
  destruct (gen s); symmetry; apply send_more_fuel; exact Hr.
Qed.

End Calls.

Section Outcomes.

Context {H : Host}.

Lemma readone_resume_one (s : parser) :
  pos s = 0 -> readone (Some 1) s = readone None s.
Proof.
  intros Hp. unfold readone, waitany, waitsome. rewrite Hp.
  destruct (buf s) as [|c r] eqn:Hb.
  - reflexivity.
  - rewrite slice_first, len_cons. pose proof (len_nonneg r).
    destruct (Z.ltb_spec (1 + len r) (0 + 1)); [lia|reflexivity].
Qed.

(** X9: [readone], [waitany], [parse_one].  Calling [parse_one] on an
    idle parser with an empty buffer only stores a generator waiting in
    [readone]; whatever is appended afterwards, the next call does what
    it would have done had the empty call never been made. *)
Theorem call_on_empty_buffer_is_harmless (s : parser) :
  idle s -> buf s = [] ->
  parse_one s =
    (NotEnoughData, set_gen s (Some {| fr := In_readone 1; stack := [] |})) /\
  forall data : bytes,
    parse_one (feed (set_gen s (Some {| fr := In_readone 1; stack := [] |})) data) =
    parse_one (feed s data).
Proof.
  intros (Hg & He & Hp) Hb. split.
  - unfold parse_one, parse, readone, waitany, waitsome.
    rewrite Hg, He, Hb, Hp. reflexivity.
  - intros data.
    change (feed (set_gen s (Some {| fr := In_readone 1; stack := [] |})) data)
      with (set_gen (feed s data) (Some {| fr := In_readone 1; stack := [] |})).
    rewrite parse_one_resumes. cbn [fr stack].
    unfold parse_one. change (gen (feed s data)) with (gen s). rewrite Hg.
    unfold parse. change (err (feed s data)) with (err s). rewrite He.
    rewrite readone_resume_one by exact Hp. reflexivity.
Qed.

(** *** Where the parser stands after a call *)

Lemma boundary_bind {K A B : Type} (s0 : parser) (r : res K A)
      (f : A -> parser -> res K B) :
  boundary s0 r ->
  (forall a s, pos s = 0 /\ err s = err s0 -> boundary s0 (f a s)) ->
  boundary s0 (bind r f).
Proof. destruct r as [a s|k s|[e|e] s|s]; cbn; auto. Qed.

Lemma boundary_within {K K' A : Type} (s0 : parser) (f : K -> K')
      (r : res K A) :
  boundary s0 r -> boundary s0 (within f r).
Proof. destruct r as [a s|k s|[e|e] s|s]; cbn; auto. Qed.

Lemma boundary_readline (s0 : parser) (resume : option Z) (s : parser) :
  err s = err s0 -> boundary s0 (readline resume s).
Proof.
  intros He. unfold readline, readline_scan, waitany, waitsome, take_line.
  destruct resume as [w|]; repeat (destruct (_ <? _); cbn [bind boundary]);
    auto.
Qed.

Lemma boundary_readline_size (s0 : parser) (size : Z) (resume : option Z)
      (s : parser) :
  err s = err s0 -> boundary s0 (readline_size size resume s).
Proof.
  intros He. unfold readline_size, waitsome, take_line.
  destruct resume as [w|]; repeat (destruct (_ <? _); cbn [bind boundary]);
    auto; destruct (bytes_eqb _ _); cbn [boundary raise_error error]; auto.
Qed.

Lemma boundary_call (s0 : parser) (p : proto) (at_ : option point) (s : parser) :
  err s = err s0 -> boundary s0 (call p at_ s).
Proof.
  intros He.
  destruct p; cbn [call];
    unfold returning, _parse_error, _parse_single_decode, _parse_single,
      _parse_int, _parse_float, _parse_bool, _parse_null,
      _parse_bulk_decode, _parse_bulk, _parse_verbatim_decode,
      _parse_verbatim, _parse_vector, _parse_mutibulk, _parse_set,
      _parse_dict;
    unfold readint, readfloat, readbool, _maybe_decode;
    destruct at_ as [[w|length w]|]; cbn [header_of];
    repeat lazymatch goal with
    | |- boundary _ (bind _ _) =>
        apply boundary_bind; [|intros ? ? [? ?]]
    | |- boundary _ (within _ _) => apply boundary_within
    | |- boundary _ (readline _ _) => apply boundary_readline; assumption
    | |- boundary _ (readline_size _ _ _) =>
        apply boundary_readline_size; assumption
    | |- boundary _ (raise_error _ _) => exact I
    | |- boundary _ (Done _ _) => split; assumption
    | |- boundary _ (Raise _ _) => split; assumption
    | |- boundary _ (match ?x with _ => _ end) => destruct x
    end.
Qed.

Lemma boundary_parse (s0 : parser) (at_ : option frame) (s : parser) :
  err s = err s0 -> boundary s0 (parse at_ s).
Proof.
  intros He.
  assert (Hd : forall ctl s, err s = err s0 -> boundary s0 (dispatch ctl s)).
  { intros ctl s1 H1. unfold dispatch. destruct (lookup _ _); [|exact I].
    apply boundary_within, boundary_call, H1. }
  assert (Hr : forall resume,
             boundary s0 (bind (within In_readone (readone resume s)) dispatch)).
  { intros resume. unfold readone, waitany, waitsome.
    destruct resume as [w|]; [|destruct (slice _ _ _)];
      try destruct (_ <? _); cbn [bind within boundary]; auto;
      apply Hd; exact He. }
  unfold parse. destruct at_ as [[w|p pt]|].
  - apply Hr.
  - apply boundary_within, boundary_call, He.
  - destruct (err s); [exact I|]. apply Hr.
Qed.

Lemma send_boundary (s0 : parser) (n : nat) (r : res frame (value + agg))
      (stk : list agg) :
  boundary s0 r ->
  match fst (send n r stk) with
  | Returned _ | Raised (Bare _) =>
      pos (snd (send n r stk)) = 0 /\ gen (snd (send n r stk)) = None /\
      err (snd (send n r stk)) = err s0
  | NotEnoughData =>
      gen (snd (send n r stk)) <> None /\ err (snd (send n r stk)) = err s0
  | _ => True
  end.
Proof.
  revert r stk. induction n as [|n IH]; intros r stk Hb;
    destruct r as [[v|a] s|f s|[e|e] s|s]; cbn [send fst snd boundary] in *;
    try exact I;
    try (destruct Hb; repeat split; auto; discriminate);
    try (split; [discriminate|exact Hb]).
  - destruct (deliver v stk) eqn:D; cbn [fst snd]; try exact I.
    + destruct Hb; repeat split; auto.
    + apply deliver_failed in D. subst e. destruct Hb; repeat split; auto.
  - destruct (deliver v stk) eqn:D; cbn [fst snd].
    + destruct Hb; repeat split; auto.
    + apply IH, boundary_parse. apply Hb.
    + apply deliver_failed in D. subst e. destruct Hb; repeat split; auto.
  - apply IH, boundary_parse. apply Hb.
Qed.

(** X10: [parse_one], [parse], [error].  What each outcome of a call
    leaves, from any state.  A reply, and a host exception that is not a
    protocol error, leave the cursor at 0, no generator and the stored
    error as it was: the parser stands at the start of what follows.
    The sentinel leaves a generator and the stored error as it was.  A
    protocol error leaves itself stored and no generator. *)
Theorem outcome_and_state (s s' : parser) (o : outcome) :
  parse_one s = (o, s') ->
  match o with
  | Returned _ | Raised (Bare _) =>
      pos s' = 0 /\ gen s' = None /\ err s' = err s
  | NotEnoughData => gen s' <> None /\ err s' = err s
  | Raised (Protocol e) => err s' = Some e /\ gen s' = None
  | Hang => True
  end.
Proof.
  intros Hr.
  destruct o as [v| |[e|e]|]; try exact I;
    try (apply (parse_one_latches s s' e Hr)).
  - unfold parse_one in Hr.
    destruct (gen s) as [g|];
      match type of Hr with
      | send ?n ?r ?k = _ =>
          pose proof (send_boundary s n r k (boundary_parse s _ s eq_refl)) as Hs;
          rewrite Hr in Hs; exact Hs
      end.
  - unfold parse_one in Hr.
    destruct (gen s) as [g|];
      match type of Hr with
      | send ?n ?r ?k = _ =>
          pose proof (send_boundary s n r k (boundary_parse s _ s eq_refl)) as Hs;
          rewrite Hr in Hs; exact Hs
      end.
  - unfold parse_one in Hr.
    destruct (gen s) as [g|];
      match type of Hr with
      | send ?n ?r ?k = _ =>
          pose proof (send_boundary s n r k (boundary_parse s _ s eq_refl)) as Hs;
          rewrite Hr in Hs; exact Hs
      end.
Qed.

(** *** The buffer only loses bytes at its front *)

Lemma kept_refl (s : parser) : kept s s.
Proof. repeat split; auto. exists 0%nat. reflexivity. Qed.

Lemma kept_del_prefix (s0 x y : parser) (k : Z) :
  kept s0 x -> buf y = del_prefix (buf x) k ->
  encoding y = encoding x -> encoding_errors y = encoding_errors x ->
  protocols y = protocols x -> kept s0 y.
Proof.
  intros ([j Hj] & A & B & C) Hy Ha Hb Hc. repeat split; try congruence.
  exists (Z.to_nat (clip (len (buf x)) k) + j)%nat.
  rewrite Hy. unfold del_prefix. rewrite Hj. apply skipn_skipn.
Qed.

Lemma kept_same (s0 x y : parser) :
  kept s0 x -> buf y = buf x ->
  encoding y = encoding x -> encoding_errors y = encoding_errors x ->
  protocols y = protocols x -> kept s0 y.
Proof.
  intros ([j Hj] & A & B & C) Hy Ha Hb Hc. repeat split; try congruence.
  exists j. congruence.
Qed.

Lemma readline_kept (s0 : parser) (resume : option Z) (s : parser) :
  kept s0 s -> holds (kept s0) (kept s0) (readline resume s).
Proof.
  intros Hk. unfold readline, readline_scan, waitany, waitsome, take_line.
  destruct resume as [w|]; repeat (destruct (_ <? _); cbn [bind holds]);
    auto; eapply kept_del_prefix; eauto; reflexivity.
Qed.

Lemma readline_size_kept (s0 : parser) (size : Z) (resume : option Z)
      (s : parser) :
  kept s0 s -> holds (kept s0) (kept s0) (readline_size size resume s).
Proof.
  intros Hk. unfold readline_size, waitsome, take_line.
  destruct resume as [w|]; repeat (destruct (_ <? _); cbn [bind holds]);
    auto; destruct (bytes_eqb _ _); cbn [holds raise_error error];
    try (eapply kept_del_prefix; eauto; reflexivity);
    eapply kept_same; eauto; reflexivity.
Qed.

Lemma call_kept (s0 : parser) (p : proto) (at_ : option point) (s : parser) :
  kept s0 s -> holds (kept s0) (kept s0) (call p at_ s).
Proof.
  intros Hs.
  assert (He : forall s e, kept s0 s -> kept s0 (set_err s e))
    by (intros; eapply kept_same; eauto; reflexivity).
  assert (Hf : forall size s, kept s0 s ->
                 holds (kept s0) (kept s0) (readline_size size None s))
    by (intros; now apply readline_size_kept).
  assert (Ha : forall size w s, kept s0 s ->
                 holds (kept s0) (kept s0) (readline_size size (Some w) s))
    by (intros; now apply readline_size_kept).
  destruct at_ as [[w|length w]|].
  - apply (call_holds (kept s0) (kept s0) (kept s0)) with (h := Some w);
      auto using readline_kept.
  - apply (call_holds_payload (kept s0) (kept s0) (kept s0));
      auto using readline_kept.
  - apply (call_holds (kept s0) (kept s0) (kept s0)) with (h := None);
      auto using readline_kept.
Qed.

Lemma parse_kept (s0 : parser) (at_ : option frame) (s : parser) :
  kept s0 s -> holds (kept s0) (kept s0) (parse at_ s).
Proof.
  intros Hs.
  assert (Hd : forall ctl s, kept s0 s ->
                 holds (kept s0) (kept s0) (dispatch ctl s)).
  { intros ctl s1 H1. unfold dispatch. destruct (lookup _ _).
    - apply holds_within, call_kept, H1.
    - cbn [holds raise_error error]. eapply kept_same; eauto; reflexivity. }
  assert (Hr : forall resume,
             holds (kept s0) (kept s0)
                   (bind (within In_readone (readone resume s)) dispatch)).
  { intros resume. unfold readone, waitany, waitsome.
    destruct resume as [w|]; [|destruct (slice _ _ _)];
      try destruct (_ <? _); cbn [bind within holds]; auto;
      apply Hd; eapply kept_same; eauto; reflexivity. }
  unfold parse. destruct at_ as [[w|p pt]|].
  - apply Hr.
  - apply holds_within, call_kept, Hs.
  - destruct (err s); [exact Hs|]. apply Hr.
Qed.

Lemma send_kept (s0 : parser) (n : nat) (r : res frame (value + agg))
      (stk : list agg) :
  holds (kept s0) (kept s0) r -> kept s0 (snd (send n r stk)).
Proof.
  assert (Hg : forall x g, kept s0 x -> kept s0 (set_gen x g))
    by (intros; eapply kept_same; eauto; reflexivity).
  revert r stk. induction n as [|n IH]; intros r stk Hh;
    destruct r as [[v|a] s|f s|e s|s]; cbn [send holds snd] in *; auto.
  - destruct (deliver v stk); cbn [snd]; auto.
  - destruct (deliver v stk); cbn [snd]; auto.
    apply IH, parse_kept, Hh.
  - apply IH, parse_kept, Hh.
Qed.

(** X11: [readline], [parse_one].  A call only takes bytes away at the
    front of the buffer: what it leaves is a tail of what it found,
    whatever the outcome, and it does not touch the encoding, the error
    policy or the dispatch table. *)
Theorem parse_one_only_consumes (s : parser) :
  (exists k : nat, buf (snd (parse_one s)) = skipn k (buf s)) /\
  encoding (snd (parse_one s)) = encoding s /\
  encoding_errors (snd (parse_one s)) = encoding_errors s /\
  protocols (snd (parse_one s)) = protocols s.
Proof.
  unfold parse_one.
  destruct (gen s); apply send_kept, parse_kept, kept_refl.
Qed.

(** *** Calls return *)

Lemma run_returns (ops : list op) (s : parser) :
  sound s -> Forall (fun o => o <> Hang) (fst (run s ops)).
Proof.
  revert s. induction ops as [|o t IH]; intros s Hs; [constructor|].
  destruct o as [data|val|]; cbn [run].
  - apply IH. destruct Hs as [Hc Hw]. split; [|exact Hw].
    unfold cursor_ok in *. cbn [feed set_buf buf pos]. rewrite len_app.
    pose proof (len_nonneg data). lia.
  - apply IH. exact Hs.
  - pose proof (parse_one_returns s Hs) as Hr.
    pose proof (parse_one_sound s Hs) as Hp.
    destruct (parse_one s) as [o s1]. cbn [fst snd] in *.
    specialize (IH s1 Hp). destruct (run s1 t). cbn [fst] in *.
    constructor; assumption.
Qed.

(** X12: [waitsome], [readline], [parse_one].  From a new parser, whatever
    is appended and whatever calls are made, every call of [parse_one]
    comes back: the loop of [readline] yields each time it fails to find
    a terminator, because the cursor is never negative, and each frame a
    call goes through takes a line off the buffer. *)
Theorem parse_one_always_returns (enc errors : option string) (ops : list op) :
  Forall (fun o => o <> Hang) (fst (run (init enc errors) ops)).
Proof. apply run_returns, init_sound. Qed.

End Outcomes.

(** ** Replies of any depth *)

Section Wire.

Context {H : Host}.

Lemma ready_set_buf (s : parser) (v : bytes) : ready s -> ready (set_buf s v).
Proof. intros (A & B & C). repeat split; assumption. Qed.

Lemma header_ready (s : parser) (c : byte) (tok rest : bytes) (p : proto) :
  ready s -> buf s = c :: tok ++ crlf ++ rest -> index_crlf tok = None ->
  lookup PROTOCOLS [c] = Some p ->
  parse None s = within (In_proto p) (call p None (set_pos s 1)) /\
  readline None (set_pos s 1) = Done tok (set_buf s rest).
Proof.
  intros (Hp & He & Ht) Hb Hn Hl. split.
  - unfold parse. rewrite He, (readone_first s c _ Hb Hp).
    cbn [within bind]. unfold dispatch.
    change (protocols (set_pos s 1)) with (protocols s). rewrite Ht, Hl.
    reflexivity.
  - apply header_line with (c := c); assumption.
Qed.

Lemma scalar_token_no_crlf (c : scalar) :
  wf_scalar c = true -> index_crlf (scalar_token c) = None.
Proof.
  destruct c as [tok|z|[|]| |v| |]; cbn [wf_scalar scalar_token]; intros Hw;
    try reflexivity; try apply (proj2 (py_int_render _)).
  destruct (index_crlf tok); [discriminate|reflexivity].
Qed.

Lemma reply_token_no_crlf (w : reply) :
  wf w = true -> index_crlf (reply_token w) = None.
Proof.
  destruct w as [c|push l|l]; cbn [wf reply_token]; intros Hw.
  - apply scalar_token_no_crlf, Hw.
  - apply (proj2 (py_int_render _)).
  - apply (proj2 (py_int_render _)).
Qed.

Lemma lookup_reply (w : reply) :
  lookup PROTOCOLS [reply_tag w] = Some (reply_proto w).
Proof. destruct w as [[tok|z|v| |v| |]|[|] l|l]; reflexivity. Qed.

Lemma encode_shape (w : reply) :
  encode w = reply_tag w :: reply_token w ++ crlf ++ reply_body w.
Proof. destruct w; reflexivity. Qed.

Lemma encode_rest (w : reply) (rest : bytes) :
  encode w ++ rest =
  reply_tag w :: reply_token w ++ crlf ++ (reply_body w ++ rest).
Proof.
  rewrite encode_shape. cbn [app]. now rewrite <- !app_assoc.
Qed.

(** A reply without replies inside is parsed in one go. *)
Lemma parse_scalar (s : parser) (c : scalar) (rest : bytes) :
  ready s -> wf_scalar c = true ->
  buf s = encode_scalar c ++ rest ->
  parse None s = Done (inl (value_of_scalar c)) (set_buf s rest).
Proof.
  intros Hr Hw Hb.
  change (encode_scalar c) with (encode (R_scalar c)) in Hb.
  rewrite encode_rest in Hb.
  destruct (header_ready s _ _ _ _ Hr Hb
              (scalar_token_no_crlf c Hw) (lookup_reply (R_scalar c)))
    as [-> Hl].
  cbn [reply_tag reply_token reply_body reply_proto] in *.
  destruct Hr as (Hp & He & Ht).
  destruct c as [tok|z|v| |v| |];
    cbn [reply_proto scalar_token scalar_body value_of_scalar call header_of] in *.
  - unfold _parse_single. rewrite Hl.
    cbn [bind within returning]. f_equal.
  - unfold _parse_int, readint. rewrite Hl. cbn [bind].
    rewrite (proj1 (py_int_render z) Hw). cbn [bind within returning]. f_equal.
  - unfold _parse_bool, readbool. rewrite Hl.
    cbn [bind within returning]. destruct v; reflexivity.
  - unfold _parse_null. rewrite Hl. cbn [bind within returning]. f_equal.
  - unfold _parse_bulk, readint. cbn [header_of]. rewrite Hl. cbn [bind within].
    rewrite (proj1 (py_int_render (len v)) Hw). cbn [bind within].
    rewrite len_not_minus_one.
    assert (Hb2 : buf (set_buf s ((v ++ crlf) ++ rest)) = v ++ crlf ++ rest)
      by (cbn [set_buf buf]; now rewrite <- app_assoc).
    rewrite (readline_size_payload _ v rest None Hb2 Hp I).
    cbn [bind within returning opt_value]. f_equal.
    destruct s; cbn in *; subst; reflexivity.
  - unfold _parse_bulk, readint. cbn [header_of]. rewrite Hl. cbn [bind within].
    change (py_int (render_int (-1))) with (Some (-1)).
    cbn [bind within returning opt_value Z.eqb Pos.eqb]. f_equal.
  - unfold _parse_mutibulk, readint. rewrite Hl. cbn [bind within].
    change (py_int (render_int (-1))) with (Some (-1)).
    cbn [bind within returning opt_value Z.eqb Pos.eqb]. f_equal.
Qed.

Lemma parse_array_header (s : parser) (push : bool) (l : list reply)
      (rest : bytes) :
  ready s -> fits (Z.of_nat (List.length l)) = true ->
  buf s = encode (R_array push l) ++ rest ->
  parse None s =
  match l with
  | [] => Done (inl (VList [])) (set_buf s rest)
  | _ :: _ =>
      Done (inr (A_list (Z.of_nat (List.length l) - 1) []))
           (set_buf s (flat_map encode l ++ rest))
  end.
Proof.
  intros Hr Hf Hb. rewrite encode_rest in Hb.
  destruct (header_ready s _ _ _ _ Hr Hb
              (proj2 (py_int_render _))
              (lookup_reply (R_array push l)))
    as [-> Hl].
  cbn [reply_tag reply_token reply_body reply_proto] in *.
  assert (Hc : call (if push then P_vector else P_mutibulk) None (set_pos s 1) =
               within Header (_parse_mutibulk None (set_pos s 1)))
    by (destruct push; reflexivity).
  rewrite Hc. unfold _parse_mutibulk, readint. rewrite Hl. cbn [bind].
  rewrite (proj1 (py_int_render _) Hf). cbn [bind within].
  destruct l as [|x t].
  - reflexivity.
  - destruct (Z.eqb_spec (Z.of_nat (List.length (x :: t))) (-1)); [lia|].
    destruct (Z.ltb_spec 0 (Z.of_nat (List.length (x :: t))));
      [reflexivity|cbn [List.length] in *; lia].
Qed.

Lemma parse_map_header (s : parser) (l : list (scalar * reply)) (rest : bytes) :
  ready s -> fits (Z.of_nat (List.length l)) = true ->
  buf s = encode (R_map l) ++ rest ->
  parse None s =
  match l with
  | [] => Done (inl (VDict [])) (set_buf s rest)
  | _ :: _ =>
      Done (inr (A_dict_key (Z.of_nat (List.length l) - 1) []))
           (set_buf s (reply_body (R_map l) ++ rest))
  end.
Proof.
  intros Hr Hf Hb. rewrite encode_rest in Hb.
  destruct (header_ready s _ _ _ _ Hr Hb
              (proj2 (py_int_render _))
              (lookup_reply (R_map l)))
    as [-> Hl].
  cbn [reply_tag reply_token reply_proto call header_of] in *.
  unfold _parse_dict, readint. rewrite Hl. cbn [bind].
  rewrite (proj1 (py_int_render _) Hf). cbn [bind within].
  destruct l as [|x t].
  - reflexivity.
  - destruct (Z.eqb_spec (Z.of_nat (List.length (x :: t))) (-1)); [lia|].
    destruct (Z.ltb_spec 0 (Z.of_nat (List.length (x :: t))));
      [reflexivity|cbn [List.length] in *; lia].
Qed.

(** *** Steps of [send] at an aggregate *)

Lemma send_open (n : nat) (a : agg) (s : parser) (stk : list agg) :
  send (S n) (Done (inr a) s) stk = send n (parse None s) (a :: stk).
Proof. reflexivity. Qed.

Lemma send_child_more (n : nat) (v : value) (s : parser) (todo : Z)
      (acc : list value) (stk : list agg) :
  0 < todo ->
  send (S n) (Done (inl v) s) (A_list todo acc :: stk) =
  send n (parse None s) (A_list (todo - 1) (acc ++ [v]) :: stk).
Proof.
  intros Ht. cbn [send deliver].
  destruct (Z.ltb_spec 0 todo); [reflexivity|lia].
Qed.

Lemma send_child_last (n : nat) (v : value) (s : parser) (todo : Z)
      (acc : list value) (stk : list agg) :
  todo <= 0 ->
  send n (Done (inl v) s) (A_list todo acc :: stk) =
  send n (Done (inl (VList (acc ++ [v]))) s) stk.
Proof.
  intros Ht. rewrite !send_value. cbn [deliver].
  destruct (Z.ltb_spec 0 todo); [lia|reflexivity].
Qed.

Lemma send_key (n : nat) (k : value) (s : parser) (todo : Z)
      (val : list (value * value)) (stk : list agg) :
  send (S n) (Done (inl k) s) (A_dict_key todo val :: stk) =
  send n (parse None s) (A_dict_value todo k val :: stk).
Proof. reflexivity. Qed.

Lemma send_entry_more (n : nat) (v key : value) (s : parser) (todo : Z)
      (val : list (value * value)) (stk : list agg) :
  hashable key = true -> 0 < todo ->
  send (S n) (Done (inl v) s) (A_dict_value todo key val :: stk) =
  send n (parse None s) (A_dict_key (todo - 1) (val ++ [(key, v)]) :: stk).
Proof.
  intros Hk Ht. cbn [send deliver]. rewrite Hk.
  destruct (Z.ltb_spec 0 todo); [reflexivity|lia].
Qed.

Lemma send_entry_last (n : nat) (v key : value) (s : parser) (todo : Z)
      (val : list (value * value)) (stk : list agg) :
  hashable key = true -> todo <= 0 ->
  send n (Done (inl v) s) (A_dict_value todo key val :: stk) =
  send n (Done (inl (VDict (val ++ [(key, v)]))) s) stk.
Proof.
  intros Hk Ht. rewrite !send_value. cbn [deliver]. rewrite Hk.
  destruct (Z.ltb_spec 0 todo); [lia|reflexivity].
Qed.

Lemma hashable_scalar (c : scalar) : hashable (value_of_scalar c) = true.
Proof. destruct c; reflexivity. Qed.

(** *** The replies inside an aggregate, one after the other *)

Lemma parses_children (t : list reply) :
  Forall parses t ->
  forall (x : reply) (acc : list value) (m : nat) (stk : list agg)
         (s : parser) (rest : bytes),
    parses x -> ready s -> wf x = true -> forallb wf t = true ->
    buf s = flat_map encode (x :: t) ++ rest ->
    send (cost x + fold_right (fun x n => S (cost x + n)) 0%nat t + m)
         (parse None s) (A_list (Z.of_nat (List.length t)) acc :: stk) =
    send m (Done (inl (VList (acc ++ map value_of (x :: t)))) (set_buf s rest))
         stk.
Proof.
  induction 1 as [|y t' Hy Ht IH]; intros x acc m stk s rest Hx Hr Hwx Hwt Hb;
    cbn [flat_map] in Hb; rewrite <- app_assoc in Hb.
  - cbn [fold_right List.length map flat_map app] in *.
    rewrite <- Nat.add_assoc. rewrite (Hx _ _ _ _ Hr Hwx Hb).
    cbn [Nat.add]. apply send_child_last. cbn. lia.
  - cbn [fold_right]. rewrite <- Nat.add_assoc.
    rewrite (Hx _ _ _ _ Hr Hwx Hb).
    cbn [Nat.add]. rewrite send_child_more by (cbn [List.length]; lia).
    cbn [forallb] in Hwt. apply andb_prop in Hwt. destruct Hwt as [Hwy Hwt].
    replace (Z.of_nat (List.length (y :: t')) - 1)
      with (Z.of_nat (List.length t')) by (cbn [List.length]; lia).
    refine (eq_trans (IH y (acc ++ [value_of x]) m stk _ rest Hy
                         (ready_set_buf _ _ Hr) Hwy Hwt eq_refl) _).
    cbn [map]. rewrite <- app_assoc. reflexivity.
Qed.

Lemma parses_entries (t : list (scalar * reply)) :
  Forall (fun kv => parses (snd kv)) t ->
  forall (k : scalar) (x : reply) (val : list (value * value)) (m : nat)
         (stk : list agg) (s : parser) (rest : bytes),
    parses x -> ready s -> wf_scalar k = true -> wf x = true ->
    forallb (fun kv => wf_scalar (fst kv) && wf (snd kv)) t = true ->
    buf s = reply_body (R_map ((k, x) :: t)) ++ rest ->
    send (S (cost x + fold_right (fun kv n => S (S (cost (snd kv) + n))) 0%nat t)
          + m)
         (parse None s) (A_dict_key (Z.of_nat (List.length t)) val :: stk) =
    send m (Done (inl (VDict (val ++ map (fun kv => (value_of_scalar (fst kv),
                                                    value_of (snd kv)))
                                       ((k, x) :: t))))
                 (set_buf s rest))
         stk.
Proof.
  induction 1 as [|[k' y] t' Hy Ht IH];
    intros k x val m stk s rest Hx Hr Hwk Hwx Hwt Hb;
    cbn [reply_body flat_map fst snd] in Hb; rewrite <- !app_assoc in Hb;
    rewrite (parse_scalar s k _ Hr Hwk Hb); cbn [Nat.add]; rewrite send_key.
  - cbn [fold_right List.length map flat_map app fst snd] in *.
    rewrite <- Nat.add_assoc.
    rewrite (Hx _ _ _ _ (ready_set_buf _ _ Hr) Hwx eq_refl).
    cbn [Nat.add]. apply send_entry_last; [apply hashable_scalar|cbn; lia].
  - cbn [fold_right fst snd]. rewrite <- Nat.add_assoc.
    rewrite (Hx _ _ _ _ (ready_set_buf _ _ Hr) Hwx eq_refl).
    cbn [Nat.add].
    rewrite send_entry_more
      by (try apply hashable_scalar; cbn [List.length]; lia).
    cbn [forallb fst snd] in Hwt. apply andb_prop in Hwt.
    destruct Hwt as [Hwy Hwt]. apply andb_prop in Hwy.
    destruct Hwy as [Hwk' Hwy].
    replace (Z.of_nat (List.length ((k', y) :: t')) - 1)
      with (Z.of_nat (List.length t')) by (cbn [List.length]; lia).
    cbn [snd] in Hy.
    etransitivity.
    { apply (IH k' y) with (rest := rest); try assumption.
      cbn [reply_body flat_map fst snd set_buf buf].
      now rewrite <- !app_assoc. }
    cbn [map fst snd]. rewrite <- app_assoc. reflexivity.
Qed.

Lemma parses_all (w : reply) : parses w.
Proof.
  induction w as [c|push l IH|l IH] using reply_induction;
    intros m stk s rest Hr Hw Hb.
  - cbn [cost Nat.add value_of]. cbn [wf encode] in *.
    now rewrite (parse_scalar s c rest Hr Hw Hb).
  - cbn [wf] in Hw. apply andb_prop in Hw. destruct Hw as [Hf Hw].
    rewrite (parse_array_header s push l rest Hr Hf Hb).
    destruct IH as [|x t Hx Ht]; [reflexivity|].
    cbn [cost fold_right Nat.add]. rewrite send_open.
    cbn [forallb] in Hw. apply andb_prop in Hw. destruct Hw as [Hwx Hwt].
    replace (Z.of_nat (List.length (x :: t)) - 1)
      with (Z.of_nat (List.length t)) by (cbn [List.length]; lia).
    exact (parses_children t Ht x [] m stk _ rest Hx
             (ready_set_buf _ _ Hr) Hwx Hwt eq_refl).
  - cbn [wf] in Hw. apply andb_prop in Hw. destruct Hw as [Hf Hw].
    rewrite (parse_map_header s l rest Hr Hf Hb).
    destruct IH as [|[k x] t Hx Ht]; [reflexivity|].
    cbn [cost fold_right Nat.add snd]. rewrite send_open.
    cbn [forallb fst snd] in Hw. apply andb_prop in Hw.
    destruct Hw as [Hwx Hwt]. apply andb_prop in Hwx.
    destruct Hwx as [Hwk Hwx].
    replace (Z.of_nat (List.length ((k, x) :: t)) - 1)
      with (Z.of_nat (List.length t)) by (cbn [List.length]; lia).
    exact (parses_entries t Ht k x [] m stk _ rest Hx
             (ready_set_buf _ _ Hr) Hwk Hwx Hwt eq_refl).
Qed.

Lemma idle_sound (s : parser) : idle s -> sound s.
Proof.
  intros (Hg & He & Hp). split.
  - unfold cursor_ok. rewrite Hp. pose proof (len_nonneg (buf s)). lia.
  - now rewrite Hg.
Qed.

Lemma parse_one_reply (s : parser) (w : reply) (rest : bytes) :
  idle s -> protocols s = PROTOCOLS -> wf w = true ->
  buf s = encode w ++ rest ->
  parse_one s = (Returned (value_of w), set_buf s rest).
Proof.
  intros Hi Ht Hw Hb.
  rewrite (parse_one_with_fuel s (cost w) (idle_sound s Hi)).
  destruct Hi as (Hg & He & Hp). rewrite Hg.
  rewrite (parses_all w _ [] s rest (conj Hp (conj He Ht)) Hw Hb).
  rewrite send_value. cbn [deliver]. f_equal.
  destruct s; cbn in *; subst; reflexivity.
Qed.

(** X13: under the raw table, the bytes of a well-formed reply built
    from simple strings, integers, booleans, nulls, bulk strings,
    arrays, pushes and maps with scalar keys, nested to any depth, every
    number on the wire within the digits of one conversion, with
    anything after them, are parsed by one [parse_one] back into the
    value of the reply; the bytes after it stay in the buffer. *)
Theorem reply_round_trip (s : parser) (w : reply) (rest : bytes) :
  idle s -> protocols s = PROTOCOLS -> wf w = true ->
  buf s = encode w ++ rest ->
  parse_one s = (Returned (value_of w), set_buf s rest).
Proof. apply parse_one_reply. Qed.

End Wire.

(** ** Replies one after the other, and aggregates that go wrong *)

Section Aggregates.

Context {H : Host}.

Lemma set_buf_same (s : parser) (v : bytes) : buf s = v -> set_buf s v = s.
Proof. intros <-. destruct s; reflexivity. Qed.

Lemma idle_ready (s : parser) :
  idle s -> protocols s = PROTOCOLS -> ready s.
Proof. intros (Hg & He & Hp) Ht. repeat split; assumption. Qed.

(** X14: under the raw table, well-formed replies of the grammar of X13
    that arrive together are returned one per call of [parse_one], in
    the order they were sent, each with its own value; what follows the
    last of them stays in the buffer. *)
Theorem pipelined_replies (ws : list reply) (s : parser) (rest : bytes) :
  idle s -> protocols s = PROTOCOLS -> forallb wf ws = true ->
  buf s = flat_map encode ws ++ rest ->
  run s (repeat Parse_one (List.length ws)) =
  (map (fun w => Returned (value_of w)) ws, set_buf s rest).
Proof.
  revert s. induction ws as [|w t IH]; intros s Hi Ht Hw Hb.
  - cbn. now rewrite set_buf_same.
  - cbn [flat_map] in Hb. rewrite <- app_assoc in Hb.
    cbn [forallb] in Hw. apply andb_prop in Hw. destruct Hw as [Hw Hwt].
    cbn [List.length repeat run map].
    rewrite (parse_one_reply s w _ Hi Ht Hw Hb).
    rewrite (IH (set_buf s (flat_map encode t ++ rest))); try assumption;
      reflexivity.
Qed.

Lemma parse_array_opens (s : parser) (push : bool) (n : Z) (rest : bytes) :
  ready s -> 0 < n -> fits n = true ->
  buf s = (if push then x3e else x2a) :: render_int n ++ crlf ++ rest ->
  parse None s = Done (inr (A_list (n - 1) [])) (set_buf s rest).
Proof.
  intros Hr Hn Hf Hb.
  assert (Hl : lookup PROTOCOLS [if push then x3e else x2a] =
               Some (if push then P_vector else P_mutibulk))
    by (destruct push; reflexivity).
  destruct (header_ready s _ _ _ _ Hr Hb (proj2 (py_int_render n)) Hl)
    as [-> Hline].
  assert (Hc : call (if push then P_vector else P_mutibulk) None (set_pos s 1) =
               within Header (_parse_mutibulk None (set_pos s 1)))
    by (destruct push; reflexivity).
  rewrite Hc. unfold _parse_mutibulk, readint. rewrite Hline. cbn [bind].
  rewrite (proj1 (py_int_render n) Hf). cbn [bind within].
  destruct (Z.eqb_spec n (-1)); [lia|].
  destruct (Z.ltb_spec 0 n); [reflexivity|lia].
Qed.

Lemma parse_map_opens (s : parser) (n : Z) (rest : bytes) :
  ready s -> 0 < n -> fits n = true ->
  buf s = x25 :: render_int n ++ crlf ++ rest ->
  parse None s = Done (inr (A_dict_key (n - 1) [])) (set_buf s rest).
Proof.
  intros Hr Hn Hf Hb.
  destruct (header_ready s _ _ _ P_dict Hr Hb (proj2 (py_int_render n)) eq_refl)
    as [-> Hline].
  cbn [call header_of]. unfold _parse_dict, readint. rewrite Hline. cbn [bind].
  rewrite (proj1 (py_int_render n) Hf). cbn [bind within].
  destruct (Z.eqb_spec n (-1)); [lia|].
  destruct (Z.ltb_spec 0 n); [reflexivity|lia].
Qed.

Lemma parse_unknown (s : parser) (c : byte) (r : bytes) :
  ready s -> buf s = c :: r -> lookup PROTOCOLS [c] = None ->
  parse None s =
  Raise (Protocol (protocolError (Msg_protocol_error [c])))
        (set_err (set_pos s 1) (Some (protocolError (Msg_protocol_error [c])))).
Proof.
  intros (Hp & He & Ht) Hb Hl. unfold parse.
  rewrite He, (readone_first s c r Hb Hp). cbn [within bind]. unfold dispatch.
  change (protocols (set_pos s 1)) with (protocols s). rewrite Ht, Hl.
  reflexivity.
Qed.

(** The first replies inside an array, with more to come. *)
Lemma parses_some (l : list reply) :
  forall (acc : list value) (m : nat) (stk : list agg) (s : parser)
         (rest : bytes) (todo : Z),
    ready s -> forallb wf l = true -> Z.of_nat (List.length l) <= todo ->
    buf s = flat_map encode l ++ rest ->
    send (fold_right (fun x n => S (cost x + n)) 0%nat l + m)
         (parse None s) (A_list todo acc :: stk) =
    send m (parse None (set_buf s rest))
         (A_list (todo - Z.of_nat (List.length l)) (acc ++ map value_of l)
            :: stk).
Proof.
  induction l as [|x t IH]; intros acc m stk s rest todo Hr Hw Hn Hb.
  - cbn [fold_right Nat.add List.length map]. rewrite app_nil_r.
    rewrite (set_buf_same s rest Hb). repeat f_equal. cbn. lia.
  - cbn [flat_map] in Hb. rewrite <- app_assoc in Hb.
    cbn [forallb] in Hw. apply andb_prop in Hw. destruct Hw as [Hwx Hwt].
    cbn [fold_right].
    replace (S (cost x + fold_right (fun x n => S (cost x + n)) 0%nat t) + m)%nat
      with (cost x + S (fold_right (fun x n => S (cost x + n)) 0%nat t + m))%nat
      by lia.
    rewrite (parses_all x _ _ s _ Hr Hwx Hb).
    rewrite send_child_more by (cbn [List.length] in Hn; lia).
    etransitivity.
    { apply IH with (rest := rest); try assumption.
      - cbn [List.length] in Hn. lia.
      - reflexivity. }
    cbn [map List.length]. rewrite <- app_assoc.
    replace (todo - 1 - Z.of_nat (List.length t))
      with (todo - Z.of_nat (S (List.length t))) by lia.
    reflexivity.
Qed.

(** X15: under the raw table, after an array or push header that
    announces [n] replies, [n] within the digits of one conversion, and
    fewer than [n] well-formed replies of the grammar of X13, a byte
    that is no reply type raises the protocol error and latches it; the
    replies of the array that were read before it are dropped, and the
    byte stays in the buffer under the cursor. *)
Theorem unknown_type_inside_array
        (s : parser) (push : bool) (n : Z) (l : list reply) (c : byte)
        (rest : bytes) :
  idle s -> protocols s = PROTOCOLS -> forallb wf l = true ->
  Z.of_nat (List.length l) < n -> fits n = true ->
  lookup PROTOCOLS [c] = None ->
  buf s = (if push then x3e else x2a) :: render_int n ++ crlf
            ++ flat_map encode l ++ c :: rest ->
  let e := protocolError (Msg_protocol_error [c]) in
  parse_one s =
  (Raised (Protocol e), set_err (set_pos (set_buf s (c :: rest)) 1) (Some e)).
Proof.
  intros Hi Ht Hw Hn Hf Hl Hb e.
  pose proof (idle_ready s Hi Ht) as Hr.
  rewrite (parse_one_with_fuel s
             (S (fold_right (fun x n => S (cost x + n)) 0%nat l))
             (idle_sound s Hi)).
  destruct Hi as (Hg & He & Hp). rewrite Hg.
  rewrite (parse_array_opens s push n _ Hr ltac:(lia) Hf Hb).
  cbn [Nat.add]. rewrite send_open.
  rewrite (parses_some l [] _ [] _ (c :: rest) (n - 1)
             (ready_set_buf _ _ Hr) Hw ltac:(lia) eq_refl).
  rewrite (parse_unknown _ c rest
             (ready_set_buf _ _ (ready_set_buf _ _ Hr)) eq_refl Hl).
  cbn [send]. f_equal. destruct s; cbn in *; subst; reflexivity.
Qed.

(** X16: under the raw table, a map announcing [n >= 1] entries, [n]
    within the digits of one conversion, whose first key is a
    well-formed reply of the grammar of X13 with a list or a dict for
    value, and whose first value is any well-formed reply of that
    grammar, raises the host's [TypeError] for an unhashable key, once
    the key and its value have both been read; nothing is latched, and
    what follows that value stays in the buffer to be taken for the
    next reply. *)
Theorem map_with_aggregate_key_raises
        (s : parser) (n : Z) (key x : reply) (rest : bytes) :
  idle s -> protocols s = PROTOCOLS -> 0 < n -> fits n = true ->
  wf key = true -> wf x = true -> hashable (value_of key) = false ->
  buf s = x25 :: render_int n ++ crlf ++ encode key ++ encode x ++ rest ->
  parse_one s = (Raised (Bare TypeError_unhashable), set_buf s rest).
Proof.
  intros Hi Ht Hn Hf Hwk Hwx Hk Hb.
  pose proof (idle_ready s Hi Ht) as Hr.
  rewrite (parse_one_with_fuel s (S (cost key + S (cost x + 0)))
             (idle_sound s Hi)).
  destruct Hi as (Hg & He & Hp). rewrite Hg.
  rewrite (parse_map_opens s n _ Hr Hn Hf Hb).
  cbn [Nat.add]. rewrite send_open. rewrite <- Nat.add_assoc.
  rewrite (parses_all key _ _ _ (encode x ++ rest)
             (ready_set_buf _ _ Hr) Hwk eq_refl).
  cbn [Nat.add]. rewrite send_key. rewrite <- Nat.add_assoc.
  rewrite (parses_all x _ _ _ rest
             (ready_set_buf _ _ (ready_set_buf _ _ Hr)) Hwx eq_refl).
  rewrite send_value. cbn [deliver]. rewrite Hk. f_equal.
  destruct s; cbn in *; subst; reflexivity.
Qed.

End Aggregates.

(** ** A reply that arrives in pieces *)

Section Streams.

Context {H : Host}.

(** *** Bytes appended behind what a reader looks at *)

Lemma index_crlf_app (a c : bytes) (k : nat) :
  index_crlf a = Some k -> index_crlf (a ++ c) = Some k.
Proof.
  revert k. induction a as [|x t IH]; intros k Hk; [discriminate|].
  destruct t as [|d t']; [discriminate|].
  rewrite index_crlf_cons2 in Hk.
  change ((x :: d :: t') ++ c) with (x :: d :: (t' ++ c)).
  rewrite index_crlf_cons2.
  destruct (Byte.eqb x CR && Byte.eqb d LF)%bool; [exact Hk|].
  destruct (index_crlf (d :: t')) as [j|] eqn:E; [|discriminate].
  change (d :: t' ++ c) with ((d :: t') ++ c).
  now rewrite (IH j eq_refl).
Qed.

Lemma skipn_app_inside (a c : bytes) (n : nat) :
  (n <= List.length a)%nat -> skipn n (a ++ c) = skipn n a ++ c.
Proof.
  intros Hn. rewrite skipn_app.
  replace (n - List.length a)%nat with 0%nat by lia. reflexivity.
Qed.

Lemma firstn_app_inside (a c : bytes) (n : nat) :
  (n <= List.length a)%nat -> firstn n (a ++ c) = firstn n a.
Proof.
  intros Hn. rewrite firstn_app.
  replace (n - List.length a)%nat with 0%nat by lia.
  cbn [firstn]. apply app_nil_r.
Qed.

Lemma find_crlf_app (a c : bytes) (p : Z) :
  0 <= p <= len a -> 0 <= find_crlf a p ->
  find_crlf (a ++ c) p = find_crlf a p.
Proof.
  intros Hp Ho. unfold find_crlf in *. pose proof (len_nonneg c).
  rewrite (clip_inside (len a) p) in * by lia.
  rewrite (clip_inside (len (a ++ c)) p) by (rewrite len_app; lia).
  rewrite skipn_app_inside by (unfold len in *; lia). revert Ho.
  destruct (index_crlf (skipn (Z.to_nat p) a)) as [k|] eqn:E; [|lia].
  now rewrite (index_crlf_app _ c k E).
Qed.

Lemma slice_app_inside (a c : bytes) (i j : Z) :
  0 <= i <= len a -> 0 <= j <= len a ->
  slice (a ++ c) i j = slice a i j.
Proof.
  intros Hi Hj. unfold slice. pose proof (len_nonneg c).
  rewrite !clip_inside by (rewrite ?len_app; lia).
  rewrite skipn_app_inside by (unfold len in *; lia).
  apply firstn_app_inside. rewrite length_skipn. unfold len in *. lia.
Qed.

Lemma del_prefix_app_inside (a c : bytes) (k : Z) :
  0 <= k <= len a -> del_prefix (a ++ c) k = del_prefix a k ++ c.
Proof.
  intros Hk. unfold del_prefix. pose proof (len_nonneg c).
  rewrite !clip_inside by (rewrite ?len_app; lia).
  apply skipn_app_inside. unfold len in *. lia.
Qed.

Lemma feed_nil (s : parser) : feed s [] = s.
Proof. unfold feed. rewrite app_nil_r. destruct s; reflexivity. Qed.

Lemma take_line_feed (o : Z) (s : parser) (c : bytes) :
  cursor_ok s -> 0 <= o -> o + 2 <= len (buf s) ->
  take_line o (feed s c) = on_state (fun x => feed x c) (take_line o s).
Proof.
  intros Hc H0 H2. unfold take_line, feed, cursor_ok in *.
  cbn [on_state set_buf set_pos buf pos].
  rewrite slice_app_inside, del_prefix_app_inside by lia. reflexivity.
Qed.

Lemma readline_scan_feed (s : parser) (c line : bytes) (s' : parser) :
  cursor_ok s -> readline_scan s = Done line s' ->
  readline_scan (feed s c) = Done line (feed s' c).
Proof.
  intros Hc Hd. unfold readline_scan in *.
  destruct (Z.ltb_spec (find_crlf (buf s) (pos s)) 0) as [Hn|Hn].
  - unfold waitany, waitsome in Hd. destruct (_ <? _); discriminate.
  - destruct (find_crlf_bound (buf s) (pos s) Hn) as [_ Hb].
    change (buf (feed s c)) with (buf s ++ c).
    change (pos (feed s c)) with (pos s).
    rewrite (find_crlf_app (buf s) c (pos s) Hc Hn).
    destruct (Z.ltb_spec (find_crlf (buf s) (pos s)) 0); [lia|].
    rewrite (take_line_feed _ s c Hc Hn Hb), Hd. reflexivity.
Qed.

Lemma readline_scan_yield (s : parser) (w : Z) (s' : parser) :
  readline_scan s = Yield w s' -> s' = s /\ w = len (buf s) + 1.
Proof.
  unfold readline_scan, waitany, waitsome, take_line.
  destruct (_ <? _); [|discriminate].
  destruct (_ <? _); cbn [bind]; [|discriminate].
  intros E. injection E as <- <-. split; reflexivity.
Qed.

(** A [readline()] that went to sleep and is woken behind a chunk does
    what a fresh call does on the longer buffer, unless the chunk is
    shorter than the cursor is far from the start. *)
Lemma readline_resumes (s : parser) (c : bytes) (w : Z) (s' : parser) :
  cursor_ok s -> c = [] \/ pos s < len c ->
  readline None s = Yield w s' ->
  readline (Some w) (feed s' c) = readline None (feed s c).
Proof.
  intros Hc Hok Hy. cbn [readline] in *.
  destruct (readline_scan_yield s w s' Hy) as [-> ->].
  unfold waitsome. destruct Hok as [->|Hl].
  - rewrite feed_nil. unfold cursor_ok in Hc.
    destruct (Z.ltb_spec (len (buf s)) (pos s + (len (buf s) + 1))); [|lia].
    cbn [bind]. now rewrite Hy.
  - change (buf (feed s c)) with (buf s ++ c).
    change (pos (feed s c)) with (pos s). rewrite len_app.
    destruct (Z.ltb_spec (len (buf s) + len c) (pos s + (len (buf s) + 1)));
      [lia|reflexivity].
Qed.

Lemma readline_size_resumes (n : Z) (s : parser) (c : bytes) (w : Z)
      (s' : parser) :
  readline_size n None s = Yield w s' ->
  readline_size n (Some w) (feed s' c) = readline_size n None (feed s c).
Proof.
  unfold readline_size, waitsome.
  destruct (Z.ltb_spec (len (buf s)) (n + 2 + pos s)) as [Hs|Hs].
  - destruct (Z.ltb_spec (len (buf s)) (pos s + (n + 2))); [|lia].
    cbn [bind]. intros E. injection E as <- <-.
    change (buf (feed s c)) with (buf s ++ c).
    change (pos (feed s c)) with (pos s).
    destruct (Z.ltb_spec (len (buf s ++ c)) (n + 2 + pos s));
      destruct (Z.ltb_spec (len (buf s ++ c)) (pos s + (n + 2)));
      try lia; reflexivity.
  - cbn [bind]. unfold take_line, raise_error, error.
    destruct (bytes_eqb _ _); discriminate.
Qed.

(** *** One frame *)

Ltac handlers :=
  unfold returning, _parse_error, _parse_single_decode, _parse_single,
    _parse_int, _parse_float, _parse_bool, _parse_null,
    _parse_bulk_decode, _parse_bulk, _parse_verbatim_decode,
    _parse_verbatim, _parse_vector, _parse_mutibulk, _parse_set,
    _parse_dict, readint, readfloat, readbool, _maybe_decode in *.

Lemma call_header_yield (p : proto) (s : parser) (w : Z) (s' : parser) :
  readline None s = Yield w s' -> call p None s = Yield (Header w) s'.
Proof.
  intros E. destruct p; cbn [call header_of]; handlers; cbn [header_of];
    rewrite E; reflexivity.
Qed.

Lemma call_resume_header (p : proto) (w : Z) (x y : parser) :
  readline (Some w) x = readline None y ->
  call p (Some (Header w)) x = call p None y.
Proof.
  intros E. destruct p; cbn [call header_of]; handlers; cbn [header_of];
    rewrite E; reflexivity.
Qed.

Lemma call_not_header (p : proto) (s : parser) (pt : point) (s1 : parser) :
  match readline None s with Raise _ _ | Spin _ => True | _ => False end ->
  call p None s <> Yield pt s1.
Proof.
  intros E. destruct (readline None s) eqn:El; try contradiction;
    destruct p; cbn [call header_of]; handlers; cbn [header_of];
    rewrite El; discriminate.
Qed.

(** A frame parser that went to sleep and is woken behind a chunk does
    what a fresh call does on the longer buffer. *)
Lemma call_resumes (p : proto) (s : parser) (pt : point) (s1 : parser)
      (c : bytes) :
  cursor_ok s -> c = [] \/ pos s < len c ->
  call p None s = Yield pt s1 ->
  call p (Some pt) (feed s1 c) = call p None (feed s c).
Proof.
  intros Hc Hok Hy.
  destruct (readline None s) as [line s3|w s'|e s'|s'] eqn:E.
  - pose proof (readline_scan_feed s c line s3 Hc E) as E'.
    change (readline_scan (feed s c)) with (readline None (feed s c)) in E'.
    destruct p; cbn [call header_of] in *; handlers; cbn [header_of] in *;
      rewrite E in Hy; rewrite E'; cbn [bind within] in *;
      repeat match type of Hy with
             | context [match ?x with _ => _ end] =>
                 destruct x eqn:?; cbn [bind within] in Hy
             | context [readline_size ?n None ?x] =>
                 destruct (readline_size n None x) eqn:?;
                 cbn [bind within] in Hy
             end;
      try discriminate;
      injection Hy as <- <-;
      cbn [bind within];
      match goal with
      | E1 : (_ =? -1) = false |- _ => rewrite E1
      end;
      match goal with
      | E2 : readline_size _ None _ = Yield _ _ |- _ =>
          rewrite (readline_size_resumes _ _ c _ _ E2)
      end;
      reflexivity.
  - rewrite (call_header_yield p s w s' E) in Hy. injection Hy as <- <-.
    apply call_resume_header, readline_resumes; assumption.
  - exfalso. apply (call_not_header p s pt s1); [now rewrite E|exact Hy].
  - exfalso. apply (call_not_header p s pt s1); [now rewrite E|exact Hy].
Qed.

Lemma readone_resumes (s : parser) (c : bytes) :
  pos s = 0 -> buf s = [] ->
  readone None s = Yield 1 s /\
  readone (Some 1) (feed s c) = readone None (feed s c).
Proof.
  intros Hp Hb. unfold readone, waitany, waitsome, feed.
  cbn [set_buf buf pos]. rewrite Hb, Hp. cbn [app]. split; [reflexivity|].
  destruct c as [|x t]; [reflexivity|].
  rewrite slice_first, len_cons. pose proof (len_nonneg t).
  destruct (Z.ltb_spec (1 + len t) (0 + 1)); [lia|reflexivity].
Qed.

(** A [parse] that went to sleep in its first frame and is woken behind
    a chunk does what a fresh [parse] does on the longer buffer, unless
    the chunk is a single byte. *)
Lemma parse_resumes (s : parser) (f : frame) (s1 : parser) (c : bytes) :
  pos s = 0 -> err s = None -> List.length c <> 1%nat ->
  parse None s = Yield f s1 ->
  parse (Some f) (feed s1 c) = parse None (feed s c).
Proof.
  intros Hp He Hc Hy. unfold parse in Hy. rewrite He in Hy.
  assert (He' : err (feed s c) = None) by exact He.
  destruct (buf s) as [|b0 r] eqn:Eb.
  - destruct (readone_resumes s c Hp Eb) as [E1 E2].
    rewrite E1 in Hy. cbn [within bind] in Hy. injection Hy as <- <-.
    unfold parse. rewrite He', E2. reflexivity.
  - rewrite (readone_first s b0 r Eb Hp) in Hy. cbn [within bind] in Hy.
    unfold dispatch in Hy. change (protocols (set_pos s 1)) with (protocols s) in Hy.
    destruct (lookup (protocols s) [b0]) as [p|] eqn:El; [|discriminate].
    destruct (call p None (set_pos s 1)) as [x s'|pt s'|e s'|s'] eqn:Ec;
      try discriminate.
    cbn [within] in Hy. injection Hy as <- <-.
    unfold parse at 2. rewrite He'.
    rewrite (readone_first (feed s c) b0 (r ++ c)); [|unfold feed; cbn [set_buf buf]; now rewrite Eb|exact Hp].
    cbn [within bind]. unfold dispatch.
    change (protocols (set_pos (feed s c) 1)) with (protocols s). rewrite El.
    cbn [parse]. f_equal.
    apply (call_resumes p (set_pos s 1) pt s' c).
    + unfold cursor_ok. cbn [set_pos pos buf]. rewrite Eb, len_cons.
      pose proof (len_nonneg r). lia.
    + cbn [set_pos pos]. destruct c as [|x [|y t]]; auto.
      * now contradiction Hc.
      * right. rewrite !len_cons. pose proof (len_nonneg t). lia.
    + exact Ec.
Qed.

(** *** The whole call *)

Lemma deliver_next (v : value) (stk stk' : list agg) :
  deliver v stk = Next stk' -> stk' <> [].
Proof.
  revert v. induction stk as [|[todo val|todo val|todo key val] up IH];
    intros v; cbn [deliver]; try discriminate.
  - destruct (0 <? todo); [intros E; injection E as <-; discriminate|apply IH].
  - intros E. injection E as <-. discriminate.
  - destruct (hashable key); [|discriminate].
    destruct (0 <? todo); [intros E; injection E as <-; discriminate|apply IH].
Qed.

(** A generator suspended outside every aggregate never left its first
    frame. *)
Lemma send_yield_stack (n : nat) (r : res frame (value + agg)) (stk : list agg)
      (s1 : parser) (g : generator) :
  send n r stk = (NotEnoughData, s1) -> gen s1 = Some g ->
  (exists s', r = Yield (fr g) s' /\ stack g = stk /\ s1 = set_gen s' (Some g))
  \/ stack g <> [].
Proof.
  revert r stk. induction n as [|n IH]; intros r stk Hs Hg;
    destruct r as [[v|a] s|f s|e s|s]; cbn [send] in Hs; try discriminate.
  - destruct (deliver v stk); discriminate.
  - injection Hs as <-. cbn [set_gen gen] in Hg. injection Hg as <-.
    left. exists s. repeat split.
  - destruct (deliver v stk) as [v'|stk'|e] eqn:Ed; try discriminate.
    right. destruct (IH _ _ Hs Hg) as [(s' & _ & E & _)|N]; [|exact N].
    rewrite E. apply (deliver_next v stk stk' Ed).
  - right. destruct (IH _ _ Hs Hg) as [(s' & _ & E & _)|N]; [|exact N].
    rewrite E. discriminate.
  - injection Hs as <-. cbn [set_gen gen] in Hg. injection Hg as <-.
    left. exists s. repeat split.
Qed.

Lemma send_any_fuel (n m : nat) (r : res frame (value + agg)) (stk : list agg) :
  fst (send n r stk) <> Hang -> fst (send m r stk) <> Hang ->
  send n r stk = send m r stk.
Proof.
  intros Hn Hm. rewrite <- (send_more_fuel n r stk Hn m).
  rewrite <- (send_more_fuel m r stk Hm n). f_equal. lia.
Qed.

Lemma sound_feed (s : parser) (c : bytes) : sound s -> sound (feed s c).
Proof.
  intros [Hc Hw]. split; [|exact Hw].
  unfold cursor_ok in *. cbn [feed set_buf buf pos]. rewrite len_app.
  pose proof (len_nonneg c). lia.
Qed.

Lemma idle_feed (s : parser) (c : bytes) : idle s -> idle (feed s c).
Proof. intros Hi. exact Hi. Qed.

(** X17: a reply that is not inside an array or a map may arrive in two
    pieces cut anywhere: when the first call returned the sentinel and
    left the generator outside every aggregate, the call after the second
    piece does what one call on both pieces together does, and leaves
    the same state, unless the second piece is a single byte. *)
Theorem first_frame_in_two_pieces
        (s s1 : parser) (g : generator) (c : bytes) :
  idle s -> parse_one s = (NotEnoughData, s1) -> gen s1 = Some g ->
  stack g = [] -> List.length c <> 1%nat ->
  parse_one (feed s1 c) = parse_one (feed s c).
Proof.
  intros Hi H1 Hg Hst Hc.
  pose proof (parse_one_returns (feed s1 c)) as R1.
  pose proof (parse_one_returns (feed s c)
                (sound_feed s c (idle_sound s Hi))) as R2.
  assert (S1 : sound s1).
  { pose proof (parse_one_sound s (idle_sound s Hi)) as X.
    now rewrite H1 in X. }
  specialize (R1 (sound_feed s1 c S1)).
  rewrite (parse_one_idle s Hi) in H1.
  destruct (send_yield_stack _ _ _ _ _ H1 Hg) as [(s' & Hy & _ & ->)|N];
    [|contradiction].
  destruct Hi as (Hgen & He & Hp).
  change (feed (set_gen s' (Some g)) c) with (set_gen (feed s' c) (Some g)) in *.
  rewrite parse_one_resumes in *.
  rewrite (parse_resumes s (fr g) s' c Hp He Hc Hy) in *.
  rewrite Hst in *.
  rewrite (parse_one_idle (feed s c)) in * by (repeat split; assumption).
  apply send_any_fuel; assumption.
Qed.

(** *** Where a cut can fall in the bytes of a reply *)

Lemma index_crlf_prefix (tok a m : bytes) :
  index_crlf tok = None -> a ++ m = tok ++ crlf -> m <> [] ->
  index_crlf a = None.
Proof.
  intros Hn Ha Hm. destruct (index_crlf a) as [k|] eqn:E; [exfalso|reflexivity].
  pose proof (index_crlf_app a m k E) as E1. rewrite Ha in E1.
  pose proof (index_crlf_token tok [] Hn) as E2. rewrite app_nil_r in E2.
  rewrite E2 in E1. injection E1 as <-.
  apply index_crlf_bound in E. apply (f_equal (@List.length byte)) in Ha.
  rewrite !length_app in Ha. cbn [List.length crlf] in Ha.
  destruct m; [contradiction|]. cbn [List.length] in Ha. lia.
Qed.

Lemma cut_flat_map {A : Type} (f : A -> bytes) (l : list A) (a d : bytes) :
  a ++ d = flat_map f l -> d <> [] ->
  exists (l1 : list A) (x : A) (l2 : list A) (a' d' : bytes),
    l = l1 ++ x :: l2 /\ a = flat_map f l1 ++ a' /\ a' ++ d' = f x /\ d' <> [].
Proof.
  revert a. induction l as [|x t IH]; intros a Ha Hd.
  - cbn in Ha. apply app_eq_nil in Ha. destruct Ha as [_ ->]. contradiction.
  - cbn [flat_map] in Ha. apply app_eq_app in Ha.
    destruct Ha as (m & [[-> Ht]|[Hx ->]]).
    + destruct (IH m (eq_sym Ht) Hd) as (l1 & y & l2 & a' & d' & -> & -> & E & N).
      exists (x :: l1), y, l2, a', d'. cbn [flat_map app].
      rewrite <- app_assoc. repeat split; assumption.
    + destruct m as [|b m].
      * cbn [app] in *. rewrite app_nil_r in Hx. subst a.
        destruct (IH [] eq_refl Hd) as (l1 & y & l2 & a' & d' & -> & E0 & E & N).
        exists (x :: l1), y, l2, a', d'. cbn [flat_map app].
        rewrite <- app_assoc, <- E0, app_nil_r. repeat split; assumption.
      * exists [], x, t, a, (b :: m). repeat split; auto. discriminate.
Qed.

Lemma proper_prefix (x y u v : bytes) :
  x ++ y = u ++ v -> (List.length x < List.length u)%nat ->
  exists d, x ++ d = u /\ d <> [].
Proof.
  intros E Hl. apply app_eq_app in E. destruct E as (m & [[-> _]|[-> _]]).
  - rewrite length_app in Hl. lia.
  - exists m. split; [reflexivity|]. intros ->. rewrite app_nil_r in Hl. lia.
Qed.

Lemma set_buf_set_buf (s : parser) (x y : bytes) :
  set_buf (set_buf s x) y = set_buf s y.
Proof. reflexivity. Qed.

Lemma feed_set_buf (s : parser) (a c : bytes) :
  feed (set_buf s a) c = set_buf s (a ++ c).
Proof. reflexivity. Qed.

Lemma header_app (t0 : byte) (tok body c : bytes) :
  (t0 :: tok ++ crlf ++ body) ++ c = t0 :: tok ++ crlf ++ body ++ c.
Proof. cbn [app]. now rewrite <- !app_assoc. Qed.

Lemma send_yield (n : nat) (f : frame) (s : parser) (stk : list agg) :
  send n (Yield f s) stk =
  (NotEnoughData, set_gen s (Some {| fr := f; stack := stk |})).
Proof. destruct n; reflexivity. Qed.

Lemma suspends_first (s : parser) (stk : list agg) (c : bytes) :
  pos s = 0 -> err s = None -> List.length c <> 1%nat ->
  (exists f s1, parse None s = Yield f s1) -> suspends s stk c.
Proof.
  intros Hp He Hc (f & s1 & Hy).
  exists 0%nat, {| fr := f; stack := stk |}, s1. split; intros n; cbn [Nat.add].
  - rewrite Hy. apply send_yield.
  - cbn [fr stack]. now rewrite (parse_resumes s f s1 c Hp He Hc Hy).
Qed.

(** The tag arrived, the end of the first line did not. *)
Lemma header_cut_yields (s : parser) (tag : byte) (a1 m tok : bytes) (p : proto) :
  ready s -> buf s = tag :: a1 -> a1 ++ m = tok ++ crlf -> m <> [] ->
  index_crlf tok = None -> lookup PROTOCOLS [tag] = Some p ->
  exists f s1, parse None s = Yield f s1.
Proof.
  intros (Hp & He & Ht) Hb Ha Hm Hn Hl.
  exists (In_proto p (Header (len (buf s) + 1))), (set_pos s 1).
  unfold parse. rewrite He, (readone_first s tag a1 Hb Hp).
  cbn [within bind]. unfold dispatch.
  change (protocols (set_pos s 1)) with (protocols s). rewrite Ht, Hl.
  rewrite (call_header_yield p (set_pos s 1) (len (buf s) + 1) (set_pos s 1));
    [reflexivity|].
  cbn [readline]. unfold readline_scan, waitany, waitsome.
  cbn [set_pos buf pos]. rewrite Hb.
  assert (Hf : find_crlf (tag :: a1) 1 = -1).
  { unfold find_crlf. pose proof (len_nonneg a1).
    rewrite clip_inside by (rewrite len_cons; lia).
    change (skipn (Z.to_nat 1) (tag :: a1)) with a1.
    now rewrite (index_crlf_prefix tok a1 m Hn Ha Hm). }
  rewrite Hf. cbn [Z.ltb Z.compare bind].
  pose proof (len_nonneg (tag :: a1)).
  destruct (Z.ltb_spec (len (tag :: a1)) (1 + (len (tag :: a1) + 1)));
    [reflexivity|lia].
Qed.

(** A cut before the end of the first line of a reply puts the parser to
    sleep; any other cut is in what follows the first line. *)
Lemma header_cut (w : reply) (a d : bytes) (s : parser) :
  a ++ d = encode w -> d <> [] -> ready s -> wf w = true ->
  (exists f s1, parse None (set_buf s a) = Yield f s1) \/
  (exists m, a = reply_tag w :: reply_token w ++ crlf ++ m /\
             m ++ d = reply_body w).
Proof.
  intros Ha Hd Hr Hw. rewrite encode_shape in Ha.
  destruct a as [|t0 a1].
  - left. exists (In_readone 1), (set_buf s []).
    destruct Hr as (Hp & He & Ht). unfold parse.
    change (err (set_buf s [])) with (err s). rewrite He.
    destruct (readone_resumes (set_buf s []) [] Hp eq_refl) as [-> _].
    reflexivity.
  - change ((t0 :: a1) ++ d) with (t0 :: (a1 ++ d)) in Ha.
    injection Ha as -> Ha.
    change (a1 ++ d = reply_token w ++ crlf ++ reply_body w) in Ha.
    rewrite app_assoc in Ha.
    apply app_eq_app in Ha. destruct Ha as (m & [[-> Hb]|[Hx ->]]).
    + right. exists m. rewrite <- app_assoc. split; [reflexivity|now symmetry].
    + destruct m as [|b m].
      * right. exists []. rewrite app_nil_r in Hx. rewrite <- Hx.
        rewrite app_nil_r. split; reflexivity.
      * left. apply (header_cut_yields (set_buf s (reply_tag w :: a1))
                       (reply_tag w) a1 (b :: m) (reply_token w)
                       (reply_proto w) (ready_set_buf _ _ Hr) eq_refl
                       (eq_sym Hx) ltac:(discriminate)
                       (reply_token_no_crlf w Hw) (lookup_reply w)).
Qed.

Lemma scalar_cut (c0 : scalar) (a d : bytes) (s : parser) :
  a ++ d = encode_scalar c0 -> d <> [] -> ready s -> wf_scalar c0 = true ->
  exists f s1, parse None (set_buf s a) = Yield f s1.
Proof.
  intros Ha Hd Hr Hw.
  destruct (header_cut (R_scalar c0) a d s Ha Hd Hr Hw) as [Hy|(m & -> & Hb)];
    [exact Hy|].
  cbn [reply_tag reply_token reply_body] in *.
  destruct c0 as [tok|z|v| |v| |]; cbn [scalar_body] in Hb;
    try (apply app_eq_nil in Hb; destruct Hb as [_ ->]; contradiction).
  assert (Hlen : len m < len v + 2).
  { apply (f_equal len) in Hb. rewrite !len_app in Hb.
    change (len crlf) with 2 in Hb.
    destruct d; [contradiction|]. rewrite len_cons in Hb.
    pose proof (len_nonneg d). lia. }
  pose proof (ready_set_buf s (scalar_tag (S_bulk v)
                 :: scalar_token (S_bulk v) ++ crlf ++ m) Hr) as Hr'.
  destruct (header_ready _ _ _ _ P_bulk Hr' eq_refl
              (scalar_token_no_crlf (S_bulk v) Hw) eq_refl) as [-> Hl].
  exists (In_proto P_bulk (Payload (len v) (len v + 2))), (set_buf s m).
  cbn [call]. unfold returning, _parse_bulk, readint. cbn [header_of].
  rewrite Hl. cbn [scalar_token bind within].
  rewrite (proj1 (py_int_render (len v)) Hw). cbn [bind within].
  rewrite len_not_minus_one. rewrite set_buf_set_buf.
  destruct Hr as (Hp & _).
  destruct (readline_size_short (set_buf s m) (len v) Hp Hlen) as [-> _].
  reflexivity.
Qed.

(** The first entries of a map, with more to come. *)
Lemma parses_some_entries (l : list (scalar * reply)) :
  forall (val : list (value * value)) (m : nat) (stk : list agg) (s : parser)
         (rest : bytes) (todo : Z),
    ready s ->
    forallb (fun kv => wf_scalar (fst kv) && wf (snd kv)) l = true ->
    Z.of_nat (List.length l) <= todo ->
    buf s = reply_body (R_map l) ++ rest ->
    send (fold_right (fun kv n => S (S (cost (snd kv) + n))) 0%nat l + m)
         (parse None s) (A_dict_key todo val :: stk) =
    send m (parse None (set_buf s rest))
         (A_dict_key (todo - Z.of_nat (List.length l))
            (val ++ map (fun kv => (value_of_scalar (fst kv),
                                    value_of (snd kv))) l)
            :: stk).
Proof.
  induction l as [|[k0 x] t IH]; intros val m stk s rest todo Hr Hw Hn Hb.
  - cbn [fold_right Nat.add List.length map]. rewrite app_nil_r.
    rewrite (set_buf_same s rest Hb). repeat f_equal. cbn. lia.
  - cbn [reply_body flat_map fst snd] in Hb. rewrite <- !app_assoc in Hb.
    cbn [forallb fst snd] in Hw. apply andb_prop in Hw.
    destruct Hw as [Hwe Hwt]. apply andb_prop in Hwe. destruct Hwe as [Hwk Hwx].
    cbn [fold_right snd Nat.add].
    rewrite (parse_scalar s k0 _ Hr Hwk Hb), send_key.
    replace (S (cost x + fold_right (fun kv n => S (S (cost (snd kv) + n)))
                                      0%nat t + m))%nat
      with (cost x + S (fold_right (fun kv n => S (S (cost (snd kv) + n)))
                                     0%nat t + m))%nat by lia.
    rewrite (parses_all x _ _ _ _ (ready_set_buf _ _ Hr) Hwx eq_refl).
    rewrite send_entry_more
      by (try apply hashable_scalar; cbn [List.length] in Hn; lia).
    rewrite !set_buf_set_buf.
    etransitivity.
    { apply IH with (rest := rest); try assumption.
      - cbn [List.length] in Hn. lia.
      - reflexivity. }
    cbn [map List.length fst snd]. rewrite <- app_assoc.
    replace (todo - 1 - Z.of_nat (List.length t))
      with (todo - Z.of_nat (S (List.length t))) by lia.
    reflexivity.
Qed.

Lemma cuts_scalar (c0 : scalar) : cuts (R_scalar c0).
Proof.
  intros a d stk s c Ha Hd Hr Hw Hc.
  apply suspends_first; try assumption; try apply Hr.
  exact (scalar_cut c0 a d s Ha Hd Hr Hw).
Qed.

Lemma cuts_array (push : bool) (l : list reply) :
  Forall cuts l -> cuts (R_array push l).
Proof.
  intros IH a d stk s c Ha Hd Hr Hw Hc.
  destruct (header_cut (R_array push l) a d s Ha Hd Hr Hw)
    as [Hy|(m & -> & Hb)].
  { apply suspends_first; try assumption; apply Hr. }
  cbn [reply_tag reply_token reply_body wf] in *.
  destruct (cut_flat_map encode l m d Hb Hd)
    as (l1 & x & l2 & a' & d' & -> & -> & Hx & Hd').
  apply Forall_elt in IH. apply andb_prop in Hw. destruct Hw as [Hf Hw].
  rewrite forallb_app in Hw.
  apply andb_prop in Hw. destruct Hw as [Hw1 Hw2].
  cbn [forallb] in Hw2. apply andb_prop in Hw2. destruct Hw2 as [Hwx _].
  set (N := Z.of_nat (List.length (l1 ++ x :: l2))) in *.
  assert (HN : Z.of_nat (List.length l1) <= N - 1)
    by (unfold N; rewrite length_app; cbn [List.length]; lia).
  destruct (IH a' d'
              (A_list (N - 1 - Z.of_nat (List.length l1))
                      ([] ++ map value_of l1) :: stk)
              s c Hx Hd' Hr Hwx Hc) as (k & g & s1 & E1 & E2).
  exists (S (fold_right (fun x n => S (cost x + n)) 0%nat l1 + k)), g, s1.
  split; intros n.
  - rewrite (parse_array_opens _ push N (flat_map encode l1 ++ a')
               (ready_set_buf _ _ Hr) ltac:(lia) Hf eq_refl).
    cbn [Nat.add]. rewrite send_open, set_buf_set_buf, <- Nat.add_assoc.
    rewrite (parses_some l1 [] _ stk _ a' (N - 1)
               (ready_set_buf _ _ Hr) Hw1 HN eq_refl).
    exact (E1 n).
  - rewrite feed_set_buf, header_app, <- !app_assoc.
    rewrite (parse_array_opens _ push N (flat_map encode l1 ++ a' ++ c)
               (ready_set_buf _ _ Hr) ltac:(lia) Hf eq_refl).
    cbn [Nat.add]. rewrite send_open, set_buf_set_buf, <- Nat.add_assoc.
    rewrite (parses_some l1 [] _ stk _ (a' ++ c) (N - 1)
               (ready_set_buf _ _ Hr) Hw1 HN eq_refl).
    exact (E2 n).
Qed.

Lemma cuts_map (l : list (scalar * reply)) :
  Forall (fun kv => cuts (snd kv)) l -> cuts (R_map l).
Proof.
  intros IH a d stk s c Ha Hd Hr Hw Hc.
  destruct (header_cut (R_map l) a d s Ha Hd Hr Hw) as [Hy|(m & -> & Hb)].
  { apply suspends_first; try assumption; apply Hr. }
  cbn [reply_tag reply_token reply_body wf] in *.
  destruct (cut_flat_map _ l m d Hb Hd)
    as (l1 & [k0 x] & l2 & a' & d' & -> & -> & Hx & Hd').
  apply Forall_elt in IH. cbn [snd] in IH.
  apply andb_prop in Hw. destruct Hw as [Hf Hw]. rewrite forallb_app in Hw.
  apply andb_prop in Hw. destruct Hw as [Hw1 Hw2].
  cbn [forallb fst snd] in Hw2. apply andb_prop in Hw2.
  destruct Hw2 as [Hwe _]. apply andb_prop in Hwe. destruct Hwe as [Hwk Hwx].
  cbn [fst snd] in Hx.
  set (N := Z.of_nat (List.length (l1 ++ (k0, x) :: l2))) in *.
  assert (HN : Z.of_nat (List.length l1) <= N - 1)
    by (unfold N; rewrite length_app; cbn [List.length]; lia).
  set (F := fun kv : scalar * reply => encode_scalar (fst kv) ++ encode (snd kv)) in *.
  set (V := fun kv : scalar * reply => (value_of_scalar (fst kv), value_of (snd kv))).
  set (C := fold_right (fun (kv : scalar * reply) n => S (S (cost (snd kv) + n))) 0%nat l1).
  assert (Hkey : (exists a2 d2, a' = encode_scalar k0 ++ a2 /\
                                a2 ++ d2 = encode x /\ d2 <> []) \/
                 (exists d2, a' ++ d2 = encode_scalar k0 /\ d2 <> [])).
  { apply app_eq_app in Hx. destruct Hx as (u & [[-> Hu]|[Hu Hu']]).
    - left. exists u, d'. auto.
    - destruct u as [|b u].
      + left. exists [], d'. rewrite app_nil_r in Hu. subst a'.
        rewrite app_nil_r. auto.
      + right. exists (b :: u). split; [now symmetry|discriminate]. }
  destruct Hkey as [(a2 & d2 & -> & Hx2 & Hd2)|(d2 & Hk2 & Hd2)].
  - (* the cut is in the value *)
    destruct (IH a2 d2
                (A_dict_value (N - 1 - Z.of_nat (List.length l1))
                   (value_of_scalar k0) ([] ++ map V l1) :: stk)
                s c Hx2 Hd2 Hr Hwx Hc) as (k & g & s1 & E1 & E2).
    exists (S (C + S k)), g, s1. split; intros n.
    + rewrite (parse_map_opens _ N (flat_map F l1 ++ encode_scalar k0 ++ a2)
                 (ready_set_buf _ _ Hr) ltac:(lia) Hf eq_refl).
      cbn [Nat.add]. rewrite send_open, set_buf_set_buf, <- Nat.add_assoc.
      rewrite (parses_some_entries l1 [] _ stk _ (encode_scalar k0 ++ a2) (N - 1)
                 (ready_set_buf _ _ Hr) Hw1 HN eq_refl).
      rewrite set_buf_set_buf.
      rewrite (parse_scalar _ k0 a2 (ready_set_buf _ _ Hr) Hwk eq_refl).
      cbn [Nat.add]. rewrite send_key, set_buf_set_buf.
      exact (E1 n).
    + rewrite feed_set_buf, header_app, <- !app_assoc.
      rewrite (parse_map_opens _ N
                 (flat_map F l1 ++ encode_scalar k0 ++ a2 ++ c)
                 (ready_set_buf _ _ Hr) ltac:(lia) Hf eq_refl).
      cbn [Nat.add]. rewrite send_open, set_buf_set_buf, <- Nat.add_assoc.
      rewrite (parses_some_entries l1 [] _ stk _ (encode_scalar k0 ++ a2 ++ c)
                 (N - 1) (ready_set_buf _ _ Hr) Hw1 HN eq_refl).
      rewrite set_buf_set_buf.
      rewrite (parse_scalar _ k0 (a2 ++ c) (ready_set_buf _ _ Hr) Hwk eq_refl).
      cbn [Nat.add]. rewrite send_key, set_buf_set_buf.
      exact (E2 n).
  - (* the cut is in the key *)
    destruct (cuts_scalar k0 a' d2
                (A_dict_key (N - 1 - Z.of_nat (List.length l1))
                   ([] ++ map V l1) :: stk)
                s c Hk2 Hd2 Hr Hwk Hc) as (k & g & s1 & E1 & E2).
    exists (S (C + k)), g, s1. split; intros n.
    + rewrite (parse_map_opens _ N (flat_map F l1 ++ a')
                 (ready_set_buf _ _ Hr) ltac:(lia) Hf eq_refl).
      cbn [Nat.add]. rewrite send_open, set_buf_set_buf, <- Nat.add_assoc.
      rewrite (parses_some_entries l1 [] _ stk _ a' (N - 1)
                 (ready_set_buf _ _ Hr) Hw1 HN eq_refl).
      exact (E1 n).
    + rewrite feed_set_buf, header_app, <- !app_assoc.
      rewrite (parse_map_opens _ N (flat_map F l1 ++ a' ++ c)
                 (ready_set_buf _ _ Hr) ltac:(lia) Hf eq_refl).
      cbn [Nat.add]. rewrite send_open, set_buf_set_buf, <- Nat.add_assoc.
      rewrite (parses_some_entries l1 [] _ stk _ (a' ++ c) (N - 1)
                 (ready_set_buf _ _ Hr) Hw1 HN eq_refl).
      exact (E2 n).
Qed.

Lemma cuts_all (w : reply) : cuts w.
Proof.
  induction w as [c0|push l IH|l IH] using reply_induction.
  - apply cuts_scalar.
  - apply cuts_array, IH.
  - apply cuts_map, IH.
Qed.

(** *** Whole replies in pieces *)

Lemma two_pieces (s : parser) (w : reply) (d c : bytes) :
  idle s -> protocols s = PROTOCOLS -> wf w = true ->
  buf s ++ d = encode w -> d <> [] -> List.length c <> 1%nat ->
  fst (parse_one s) = NotEnoughData /\
  parse_one (feed (snd (parse_one s)) c) = parse_one (feed s c).
Proof.
  intros Hi Ht Hw Ha Hd Hc.
  pose proof (idle_ready s Hi Ht) as Hr.
  pose proof (idle_sound s Hi) as Hs.
  pose proof (cuts_all w (buf s) d [] s c Ha Hd Hr Hw Hc) as Hsus.
  rewrite (set_buf_same s (buf s) eq_refl) in Hsus.
  destruct Hsus as (k & g & s1 & E1 & E2).
  pose proof (parse_one_sound s Hs) as S1.
  pose proof (parse_one_returns (feed s c) (sound_feed s c Hs)) as R2.
  destruct Hi as (Hg & He & Hp).
  assert (P1 : parse_one s = (NotEnoughData, set_gen s1 (Some g))).
  { rewrite (parse_one_with_fuel s k Hs), Hg. apply E1. }
  rewrite P1 in *. cbn [fst snd] in *. split; [reflexivity|].
  pose proof (parse_one_returns _ (sound_feed _ c S1)) as R1.
  change (feed (set_gen s1 (Some g)) c) with (set_gen (feed s1 c) (Some g)) in *.
  rewrite parse_one_resumes in *.
  rewrite (parse_one_with_fuel (feed s c) k (sound_feed s c Hs)) in *.
  change (gen (feed s c)) with (gen s) in *. rewrite Hg in *.
  rewrite E2 in *. apply send_any_fuel; assumption.
Qed.

Lemma feed_each_cons (s : parser) (c : bytes) (t : list bytes) :
  feed_each s (c :: t) =
  (fst (parse_one (feed s c))
     :: fst (feed_each (snd (parse_one (feed s c))) t),
   snd (feed_each (snd (parse_one (feed s c))) t)).
Proof.
  cbn [feed_each]. destruct (parse_one (feed s c)) as [o s1].
  cbn [fst snd]. destruct (feed_each s1 t). reflexivity.
Qed.

Lemma pieces_after (w : reply) (rest c : bytes) (cs : list bytes) :
  forall s : parser,
    idle s -> protocols s = PROTOCOLS -> wf w = true ->
    Forall (fun x => List.length x <> 1%nat) (cs ++ [c]) ->
    buf s ++ List.concat cs ++ c = encode w ++ rest ->
    (List.length (buf s ++ List.concat cs) < List.length (encode w))%nat ->
    feed_each (snd (parse_one s)) (cs ++ [c]) =
    (repeat NotEnoughData (List.length cs) ++ [Returned (value_of w)],
     set_buf s rest).
Proof.
  induction cs as [|c' cs' IH]; intros s Hi Ht Hw Hok Hb Hl.
  - cbn [List.concat app] in *. rewrite app_nil_r in Hl.
    destruct (proper_prefix _ _ _ _ Hb Hl) as (d & Hd & Nd).
    apply Forall_inv in Hok.
    destruct (two_pieces s w d c Hi Ht Hw Hd Nd Hok) as [_ E].
    rewrite feed_each_cons, E.
    rewrite (parse_one_reply (feed s c) w rest (idle_feed s c Hi) Ht Hw Hb).
    reflexivity.
  - cbn [List.concat app] in *.
    assert (Hl0 : (List.length (buf s) < List.length (encode w))%nat)
      by (rewrite length_app in Hl; lia).
    destruct (proper_prefix _ _ _ _ Hb Hl0) as (d & Hd & Nd).
    pose proof (Forall_inv Hok) as Hc'. apply Forall_inv_tail in Hok.
    destruct (two_pieces s w d c' Hi Ht Hw Hd Nd Hc') as [_ E].
    rewrite feed_each_cons, E.
    assert (Hb' : buf (feed s c') ++ List.concat cs' ++ c = encode w ++ rest).
    { cbn [feed set_buf buf]. rewrite <- Hb, <- !app_assoc. reflexivity. }
    assert (Hl' : (List.length (buf (feed s c') ++ List.concat cs')
                   < List.length (encode w))%nat).
    { cbn [feed set_buf buf]. rewrite <- app_assoc. exact Hl. }
    rewrite (IH (feed s c') (idle_feed s c' Hi) Ht Hw Hok Hb' Hl').
    assert (Hl1 : (List.length (buf (feed s c')) < List.length (encode w))%nat)
      by (rewrite length_app in Hl'; lia).
    destruct (proper_prefix _ _ _ _ Hb' Hl1) as (d1 & Hd1 & Nd1).
    destruct (two_pieces (feed s c') w d1 [] (idle_feed s c' Hi) Ht Hw Hd1 Nd1
                ltac:(discriminate)) as [-> _].
    reflexivity.
Qed.

(** X18: under the raw table, while what is buffered is a proper part
    of a well-formed reply of the grammar of X13, nested to any depth
    and cut anywhere, [parse_one] returns the sentinel, and after one
    more chunk of any content it does what one call on all the bytes
    together does and leaves the same state, unless that chunk is a
    single byte. *)
Theorem cut_reply_resumes_as_fresh (s : parser) (w : reply) (d c : bytes) :
  idle s -> protocols s = PROTOCOLS -> wf w = true ->
  buf s ++ d = encode w -> d <> [] -> List.length c <> 1%nat ->
  fst (parse_one s) = NotEnoughData /\
  parse_one (feed (snd (parse_one s)) c) = parse_one (feed s c).
Proof. apply two_pieces. Qed.

(** X19: under the raw table, a well-formed reply of the grammar of
    X13, nested to any depth, that arrives in any number of pieces, cut
    anywhere, none of them but the first a single byte: the call after
    every piece but the last returns the sentinel, and the call after
    the last piece returns the value of the reply and leaves what
    follows it in the buffer. *)
Theorem reply_in_pieces
        (s : parser) (w : reply) (rest c1 c : bytes) (cs : list bytes) :
  idle s -> protocols s = PROTOCOLS -> wf w = true ->
  Forall (fun x => List.length x <> 1%nat) (cs ++ [c]) ->
  buf s ++ c1 ++ List.concat cs ++ c = encode w ++ rest ->
  (List.length (buf s ++ c1 ++ List.concat cs) < List.length (encode w))%nat ->
  feed_each s (c1 :: cs ++ [c]) =
  (repeat NotEnoughData (S (List.length cs)) ++ [Returned (value_of w)],
   set_buf s rest).
Proof.
  intros Hi Ht Hw Hok Hb Hl.
  assert (Hb' : buf (feed s c1) ++ List.concat cs ++ c = encode w ++ rest).
  { cbn [feed set_buf buf]. rewrite <- Hb, <- !app_assoc. reflexivity. }
  assert (Hl' : (List.length (buf (feed s c1) ++ List.concat cs)
                 < List.length (encode w))%nat).
  { cbn [feed set_buf buf]. rewrite <- app_assoc. exact Hl. }
  rewrite feed_each_cons.
  rewrite (pieces_after w rest c cs (feed s c1) (idle_feed s c1 Hi) Ht Hw Hok
             Hb' Hl').
  assert (Hl1 : (List.length (buf (feed s c1)) < List.length (encode w))%nat)
    by (rewrite length_app in Hl'; lia).
  destruct (proper_prefix _ _ _ _ Hb' Hl1) as (d1 & Hd1 & Nd1).
  destruct (two_pieces (feed s c1) w d1 [] (idle_feed s c1 Hi) Ht Hw Hd1 Nd1
              ltac:(discriminate)) as [-> _].
  reflexivity.
Qed.

End Streams.

(** ** The further properties on the demonstration host *)

Section More_examples.

Import Demo.

Lemma boolean_reply_is_permissive_witness :
  parse_one (feed fresh (bs "#t" ++ crlf)) = (Returned (VBool true), fresh) /\
  parse_one (feed fresh (bs "#yes" ++ crlf)) = (Returned (VBool false), fresh).
Proof.
  split.
  - destruct (boolean_reply_is_permissive (feed fresh (bs "#t" ++ crlf))
                (bs "t") [] (idle_fed _) eq_refl eq_refl) as [A _].
    exact (A eq_refl).
  - destruct (boolean_reply_is_permissive (feed fresh (bs "#yes" ++ crlf))
                (bs "yes") [] (idle_fed _) eq_refl eq_refl) as [_ A].
    exact (A ltac:(discriminate)).
Defined.

Lemma null_reply_discards_its_line_witness :
  parse_one (feed fresh (bs "_junk" ++ crlf)) = (Returned VNone, fresh).
Proof.
  exact (null_reply_discards_its_line (feed fresh (bs "_junk" ++ crlf))
           (bs "junk") [] (idle_fed _) eq_refl eq_refl).
Defined.

Lemma simple_string_reply_witness :
  parse_one (feed (init (Some "utf8"%string) None) (bs "+OK" ++ crlf)) =
    (Returned (VStr (map Byte.to_N (bs "OK"))), init (Some "utf8"%string) None) /\
  parse_one (feed (init (Some ""%string) None) (bs "+OK" ++ crlf)) =
    (Returned (VBytes (bs "OK")), init (Some ""%string) None).
Proof.
  split.
  - exact (simple_string_reply (Some "utf8"%string) None (bs "OK") [] eq_refl).
  - exact (simple_string_reply (Some ""%string) None (bs "OK") [] eq_refl).
Defined.

Lemma double_reply_witness :
  parse_one (feed fresh (bs ",3.25" ++ crlf)) =
  (Returned (VFloat (325, -2)), fresh).
Proof.
  exact (double_reply (feed fresh (bs ",3.25" ++ crlf)) (bs "3.25") []
           (325, -2) (idle_fed _) eq_refl eq_refl eq_refl).
Defined.

Lemma verbatim_reply_drops_prefix_witness :
  parse_one (feed fresh (bs "=10" ++ crlf ++ bs "text:a:b c" ++ crlf)) =
  (Returned (VBytes (bs "a:b c")), fresh).
Proof.
  exact (verbatim_reply_drops_prefix
           (feed fresh (bs "=10" ++ crlf ++ bs "text:a:b c" ++ crlf))
           (bs "10") (bs "text") (bs "a:b c") [] (idle_fed _) eq_refl
           ltac:(repeat constructor; discriminate) eq_refl eq_refl).
Defined.

Lemma aggregate_with_nonpositive_length_witness :
  parse_one (feed fresh (bs "*0" ++ crlf)) = (Returned (VList []), fresh) /\
  parse_one (feed fresh (bs "%0" ++ crlf)) = (Returned (VDict []), fresh) /\
  parse_one (feed fresh (bs "~-3" ++ crlf)) = (Returned (VSet []), fresh).
Proof.
  split; [|split].
  - destruct (aggregate_with_nonpositive_length (feed fresh (bs "*0" ++ crlf))
                (bs "0") [] 0 (idle_fed _) eq_refl eq_refl
                ltac:(lia) ltac:(lia)) as (A & _).
    exact (A eq_refl).
  - destruct (aggregate_with_nonpositive_length (feed fresh (bs "%0" ++ crlf))
                (bs "0") [] 0 (idle_fed _) eq_refl eq_refl
                ltac:(lia) ltac:(lia)) as (_ & _ & A & _).
    exact (A eq_refl).
  - destruct (aggregate_with_nonpositive_length (feed fresh (bs "~-3" ++ crlf))
                (bs "-3") [] (-3) (idle_fed _) eq_refl eq_refl
                ltac:(lia) ltac:(lia)) as (_ & _ & _ & A).
    exact (A eq_refl).
Defined.

Lemma bulk_with_negative_length_witness :
  parse_one (feed fresh (bs "$-5" ++ crlf ++ crlf ++ bs "abc")) =
    (Returned (VBytes []), feed fresh (bs "abc")) /\
  fst (parse_one (feed fresh (bs "$-2" ++ crlf ++ bs "abc"))) =
    Raised (Protocol Msg_expected_crlf).
Proof.
  split.
  - pose proof (bulk_with_negative_length
                  (feed fresh (bs "$-5" ++ crlf ++ crlf ++ bs "abc"))
                  (bs "-5") (crlf ++ bs "abc") (-5) (idle_fed _) eq_refl
                  eq_refl ltac:(lia) eq_refl) as X.
    cbv zeta in X. destruct X as [A _]. exact A.
  - pose proof (bulk_with_negative_length
                  (feed fresh (bs "$-2" ++ crlf ++ bs "abc"))
                  (bs "-2") (bs "abc") (-2) (idle_fed _) eq_refl
                  eq_refl ltac:(lia) eq_refl) as X.
    cbv zeta in X. destruct X as [_ A]. exact (f_equal fst (A eq_refl)).
Defined.

Lemma encoding_set_to_none_raises_witness :
  parse_one (set_encoding (feed fresh (bs "+OK" ++ crlf)) None) =
    (Raised (Bare TypeError_encoding_none), set_encoding fresh None) /\
  parse_one (set_encoding (feed fresh (bs "$2" ++ crlf ++ bs "hi" ++ crlf)) None) =
    (Raised (Bare TypeError_encoding_none), set_encoding fresh None) /\
  parse_one (set_encoding (feed fresh (bs "$-1" ++ crlf)) None) =
    (Returned VNone, set_encoding fresh None).
Proof.
  split; [|split].
  - destruct (encoding_set_to_none_raises (feed fresh (bs "+OK" ++ crlf))
                (bs "OK") [] [] (idle_fed _) eq_refl) as (A & _).
    exact (A eq_refl).
  - destruct (encoding_set_to_none_raises
                (feed fresh (bs "$2" ++ crlf ++ bs "hi" ++ crlf))
                (bs "2") (bs "hi") [] (idle_fed _) eq_refl) as (_ & A & _).
    exact (A eq_refl eq_refl).
  - destruct (encoding_set_to_none_raises (feed fresh (bs "$-1" ++ crlf))
                (bs "-1") [] [] (idle_fed _) eq_refl) as (_ & _ & A).
    exact (A eq_refl eq_refl).
Defined.

Lemma call_on_empty_buffer_is_harmless_witness :
  parse_one fresh =
    (NotEnoughData,
     set_gen fresh (Some {| fr := In_readone 1; stack := [] |})) /\
  parse_one (feed (snd (parse_one fresh)) (bs "+OK" ++ crlf)) =
    (Returned (VBytes (bs "OK")), fresh).
Proof.
  destruct (call_on_empty_buffer_is_harmless fresh (idle_fed []) eq_refl)
    as [A B].
  split; [exact A|].
  etransitivity; [exact (B (bs "+OK" ++ crlf))|reflexivity].
Defined.

Lemma outcome_and_state_witness :
  err (snd (parse_one (feed fresh (bs "!x")))) =
    Some (Msg_protocol_error (bs "!")) /\
  gen (snd (parse_one (feed fresh (bs "!x")))) = None.
Proof.
  exact (outcome_and_state (feed fresh (bs "!x"))
           (snd (parse_one (feed fresh (bs "!x"))))
           (Raised (Protocol (Msg_protocol_error (bs "!")))) eq_refl).
Defined.

Lemma reply_round_trip_witness :
  parse_one
    (feed fresh
       (encode (R_array false
                  [R_scalar (S_int 1);
                   R_map [(S_simple (bs "k"),
                           R_array true [R_scalar (S_bulk (bs "v"));
                                         R_scalar S_null])]])
        ++ bs "+next")) =
  (Returned (VList [VInt 1;
                    VDict [(VBytes (bs "k"), VList [VBytes (bs "v"); VNone])]]),
   feed fresh (bs "+next")).
Proof.
  exact (reply_round_trip
           (feed fresh
              (encode (R_array false
                         [R_scalar (S_int 1);
                          R_map [(S_simple (bs "k"),
                                  R_array true [R_scalar (S_bulk (bs "v"));
                                                R_scalar S_null])]])
               ++ bs "+next"))
           (R_array false
              [R_scalar (S_int 1);
               R_map [(S_simple (bs "k"),
                       R_array true [R_scalar (S_bulk (bs "v"));
                                     R_scalar S_null])]])
           (bs "+next") (idle_fed _) eq_refl eq_refl eq_refl).
Defined.

Lemma pipelined_replies_witness :
  run (feed fresh (bs "+OK" ++ crlf ++ bs ":7" ++ crlf
                     ++ bs "*1" ++ crlf ++ bs "$-1" ++ crlf))
      [Parse_one; Parse_one; Parse_one] =
  ([Returned (VBytes (bs "OK")); Returned (VInt 7); Returned (VList [VNone])],
   fresh).
Proof.
  exact (pipelined_replies
           [R_scalar (S_simple (bs "OK")); R_scalar (S_int 7);
            R_array false [R_scalar S_null_bulk]]
           (feed fresh (bs "+OK" ++ crlf ++ bs ":7" ++ crlf
                          ++ bs "*1" ++ crlf ++ bs "$-1" ++ crlf))
           [] (idle_fed _) eq_refl eq_refl eq_refl).
Defined.

Lemma unknown_type_inside_array_witness :
  fst (parse_one (feed fresh (bs "*3" ++ crlf ++ bs ":1" ++ crlf ++ bs "!rest"))) =
    Raised (Protocol (Msg_protocol_error (bs "!"))) /\
  buf (snd (parse_one
              (feed fresh (bs "*3" ++ crlf ++ bs ":1" ++ crlf ++ bs "!rest")))) =
    bs "!rest".
Proof.
  pose proof (unknown_type_inside_array
                (feed fresh (bs "*3" ++ crlf ++ bs ":1" ++ crlf ++ bs "!rest"))
                false 3 [R_scalar (S_int 1)] "!"%byte (bs "rest")
                (idle_fed _) eq_refl eq_refl ltac:(cbn; lia) eq_refl eq_refl
                eq_refl) as X.
  cbv zeta in X.
  split; [exact (f_equal fst X)|exact (f_equal (fun r => buf (snd r)) X)].
Defined.

Lemma map_with_aggregate_key_raises_witness :
  parse_one (feed fresh (bs "%2" ++ crlf ++ bs "*0" ++ crlf ++ bs ":1" ++ crlf
                           ++ bs "+k" ++ crlf ++ bs ":2" ++ crlf)) =
  (Raised (Bare TypeError_unhashable),
   feed fresh (bs "+k" ++ crlf ++ bs ":2" ++ crlf)).
Proof.
  exact (map_with_aggregate_key_raises
           (feed fresh (bs "%2" ++ crlf ++ bs "*0" ++ crlf ++ bs ":1" ++ crlf
                          ++ bs "+k" ++ crlf ++ bs ":2" ++ crlf))
           2 (R_array false []) (R_scalar (S_int 1))
           (bs "+k" ++ crlf ++ bs ":2" ++ crlf)
           (idle_fed _) eq_refl ltac:(lia) eq_refl eq_refl eq_refl eq_refl
           eq_refl).
Defined.

Lemma first_frame_in_two_pieces_witness :
  parse_one (feed (snd (parse_one (feed fresh (bs "-ERR")))) (bs " x" ++ crlf)) =
  parse_one (feed (feed fresh (bs "-ERR")) (bs " x" ++ crlf)).
Proof.
  exact (first_frame_in_two_pieces
           (feed fresh (bs "-ERR")) (snd (parse_one (feed fresh (bs "-ERR"))))
           {| fr := In_proto P_error (Header 5); stack := [] |}
           (bs " x" ++ crlf)
           (idle_fed _) eq_refl eq_refl eq_refl ltac:(discriminate)).
Defined.

Lemma cut_reply_resumes_as_fresh_witness :
  fst (parse_one (feed fresh (bs "*2" ++ crlf ++ bs "$2" ++ crlf ++ bs "a"))) =
    NotEnoughData /\
  parse_one
    (feed (snd (parse_one
                  (feed fresh (bs "*2" ++ crlf ++ bs "$2" ++ crlf ++ bs "a"))))
          (bs "b" ++ crlf ++ bs ":5" ++ crlf ++ bs "+more")) =
  parse_one
    (feed (feed fresh (bs "*2" ++ crlf ++ bs "$2" ++ crlf ++ bs "a"))
          (bs "b" ++ crlf ++ bs ":5" ++ crlf ++ bs "+more")).
Proof.
  exact (cut_reply_resumes_as_fresh
           (feed fresh (bs "*2" ++ crlf ++ bs "$2" ++ crlf ++ bs "a"))
           (R_array false [R_scalar (S_bulk (bs "ab")); R_scalar (S_int 5)])
           (bs "b" ++ crlf ++ bs ":5" ++ crlf)
           (bs "b" ++ crlf ++ bs ":5" ++ crlf ++ bs "+more")
           (idle_fed _) eq_refl eq_refl eq_refl
           ltac:(discriminate) ltac:(discriminate)).
Defined.

Lemma reply_in_pieces_witness :
  feed_each fresh
    [bs "*2" ++ [CR]; [LF] ++ bs "$2" ++ crlf ++ bs "a";
     bs "b" ++ crlf ++ bs ":5"; crlf] =
  ([NotEnoughData; NotEnoughData; NotEnoughData;
    Returned (VList [VBytes (bs "ab"); VInt 5])],
   fresh).
Proof.
  exact (reply_in_pieces fresh
           (R_array false [R_scalar (S_bulk (bs "ab")); R_scalar (S_int 5)])
           [] (bs "*2" ++ [CR]) crlf
           [[LF] ++ bs "$2" ++ crlf ++ bs "a"; bs "b" ++ crlf ++ bs ":5"]
           (idle_fed []) eq_refl eq_refl
           ltac:(repeat constructor; discriminate)
           eq_refl ltac:(vm_compute; lia)).
Defined.

End More_examples.
